(** * msi_convert: antenna pattern reconstruction and MSI reader

    A shallow embedding of [patternFromSlices.py] and [msiread.py].

    Numbers.  The Python code computes on IEEE doubles through numpy.  The
    embedding is in exact arithmetic: angles and gains are rationals ([Q]),
    so that validation, normalisation, mesh construction and the Summing
    combiner evaluate inside Rocq; the CrossWeighted combiner, which needs
    [10 ** x] and [np.cbrt], is carried out on the reals ([R]) after
    injecting the rational grids with [Q2R].

    Effects.  Python exceptions and [warnings.warn] are modelled by a small
    monad [M] whose computations return the list of warnings emitted so far
    together with either the exception raised or the value returned. *)

From Stdlib Require Import String Ascii.
From Stdlib Require Import ZArith QArith Qabs Qround Qreals.
From Stdlib Require Import List Sorted Bool Arith Lia.
From Stdlib Require Import Reals Rpower Psatz.
Import ListNotations.

(** ** Exceptions, warnings and the monad of the embedding *)

Module Py.

(** The texts of the [ValueError]s of [patternFromSlices.py], one constructor
    per message, with the values its f-string interpolates. *)
Inductive message : Type :=
| DimVertTheta        (* 'Dimensions of vert_slice and theta do not match.' *)
| DimHorizPhi         (* 'Dimensions of horiz_slice and phi do not match.' *)
| RepeatedAngles (az_or_el : string) (angle : Z)
                      (* 'Repeated angles with unequal values in ..: ..' *)
| NoAnglesVertical (tol : Q)
                      (* 'No angles near boresight in vertical slice ..' *)
| NoAnglesHorizontal (tol : Q)
                      (* 'No angles near boresight in horizontal slice ..' *)
| VerticalBoresightGain
                      (* 'Vertical slice gain at boresight exceeds tolerance.' *)
| HorizontalBoresightGain
                      (* 'Horizontal slice gain at boresight exceeds tolerance.' *)
| GainDiffAtIntersection
                      (* 'Gain difference at slice intersection exceeds tolerance.' *)
| UnknownMethod (method : string)
                      (* 'Unknown method: ..' *)
| ZeroSizeReduction.  (* numpy: 'zero-size array to reduction operation ..' *)

Inductive exn : Type :=
| ValueError (m : message)
| IndexError
| TypeError
| UnboundLocalError (name : string)
| RuntimeError (cause : exn).

(** 'Gain difference at slice intersection is significant.' *)
Inductive warning : Type :=
| GainDiffSignificant.

Definition M (A : Type) : Type := (list warning * (exn + A))%type.

Definition ret {A} (a : A) : M A := ([], inr a).
Definition raise {A} (e : exn) : M A := ([], inl e).
Definition warn (w : warning) : M unit := ([w], inr tt).

Definition bind {A B} (m : M A) (k : A -> M B) : M B :=
  match m with
  | (ws, inl e) => (ws, inl e)
  | (ws, inr a) => let (ws', r) := k a in (ws ++ ws', r)
  end.

End Py.
Import Py.

Declare Scope py_scope.
Delimit Scope py_scope with py.
Notation "x <- e ;; k" := (bind e (fun x => k))
  (at level 61, e at next level, right associativity) : py_scope.
Notation "e ;;; k" := (bind e (fun _ => k))
  (at level 61, right associativity) : py_scope.

(** ** The numpy operations the code uses, on exact rationals *)

Module Numpy.

Open Scope Q_scope.

Definition Qlt_bool (x y : Q) : bool := negb (Qle_bool y x).

(** [np.mod(x, m)] for a positive modulus: the result has the sign of [m]. *)
Definition np_mod (x m : Q) : Q := x - m * inject_Z (Qfloor (x / m)).

(** [np.round]: to the nearest integer, a tie going to the even neighbour. *)
Definition np_round (x : Q) : Z :=
  let f := Qfloor x in
  match Qcompare (x - inject_Z f) (1 # 2) with
  | Lt => f
  | Gt => (f + 1)%Z
  | Eq => if Z.even f then f else (f + 1)%Z
  end.

(** [np.max] and [np.min] raise [ValueError] on an empty array. *)
Fixpoint max_list (x : Q) (l : list Q) : Q :=
  match l with
  | [] => x
  | y :: t => max_list (if Qlt_bool x y then y else x) t
  end.

Fixpoint min_list (x : Q) (l : list Q) : Q :=
  match l with
  | [] => x
  | y :: t => min_list (if Qlt_bool y x then y else x) t
  end.

Definition np_max (l : list Q) : M Q :=
  match l with
  | [] => raise (ValueError ZeroSizeReduction)
  | x :: t => ret (max_list x t)
  end.

Definition np_min (l : list Q) : M Q :=
  match l with
  | [] => raise (ValueError ZeroSizeReduction)
  | x :: t => ret (min_list x t)
  end.

(** [np.argmin]: the index of the first occurrence of the minimum. *)
Fixpoint argmin_from (i best_i : nat) (best : Q) (l : list Q) : nat :=
  match l with
  | [] => best_i
  | y :: t =>
      if Qlt_bool y best then argmin_from (S i) i y t
      else argmin_from (S i) best_i best t
  end.

Definition np_argmin (l : list Q) : M nat :=
  match l with
  | [] => raise (ValueError ZeroSizeReduction)
  | x :: t => ret (argmin_from 1 0 x t)
  end.

(** [a[i]] for an integer index. *)
Definition index {A} (a : list A) (i : nat) : M A :=
  match nth_error a i with
  | Some x => ret x
  | None => raise IndexError
  end.

(** [a[mask]] for a boolean mask of the length of [a]. *)
Fixpoint mask_select {A} (mask : list bool) (a : list A) : list A :=
  match mask, a with
  | b :: mask', x :: a' =>
      if b then x :: mask_select mask' a' else mask_select mask' a'
  | _, _ => []
  end.

(** [np.unique]: the sorted distinct elements. *)
Fixpoint insert_unique (x : Z) (l : list Z) : list Z :=
  match l with
  | [] => [x]
  | y :: t =>
      match (x ?= y)%Z with
      | Lt => x :: l
      | Eq => l
      | Gt => y :: insert_unique x t
      end
  end.

Definition np_unique (l : list Z) : list Z := fold_right insert_unique [] l.

Fixpoint insert_uniqueQ (x : Q) (l : list Q) : list Q :=
  match l with
  | [] => [x]
  | y :: t =>
      match x ?= y with
      | Lt => x :: l
      | Eq => l
      | Gt => y :: insert_uniqueQ x t
      end
  end.

Definition np_uniqueQ (l : list Q) : list Q := fold_right insert_uniqueQ [] l.

(** The second result of [np.unique(.., return_inverse=True)]: for every
    element its position in the sorted distinct elements. *)
Fixpoint position (x : Z) (u : list Z) : nat :=
  match u with
  | [] => 0
  | y :: t => if (x =? y)%Z then 0 else S (position x t)
  end.

Definition np_unique_inverse (l : list Z) : list nat :=
  map (fun x => position x (np_unique l)) l.

(** [np.arange(0, 361, 5)] *)
Definition arange_0_361_5 : list Q :=
  map (fun i => inject_Z (5 * Z.of_nat i)) (seq 0 73).

(** [np.meshgrid(x, y)] with the default ['xy'] indexing: both results have
    [len(y)] rows and [len(x)] columns, [X[i][j] = x[j]] and [Y[i][j] = y[i]]. *)
Definition meshgrid {A} (x y : list A) : list (list A) * list (list A) :=
  (map (fun _ => x) y, map (fun yi => map (fun _ => yi) x) y).

(** Element-wise binary operation on two arrays of the same shape. *)
Fixpoint zip_with {A B C} (f : A -> B -> C) (a : list A) (b : list B) : list C :=
  match a, b with
  | x :: a', y :: b' => f x y :: zip_with f a' b'
  | _, _ => []
  end.

End Numpy.
Import Numpy.

(** ** The real-valued operations of the CrossWeighted combiner *)

Module RealOps.

Open Scope R_scope.

(** [x ** y] for a positive base [x]. *)
Definition np_power (x y : R) : R := Rpower x y.

(** [np.cbrt]: the real cube root, odd in its argument. *)
Definition np_cbrt (x : R) : R :=
  match total_order_T x 0 with
  | inleft (left _) => - Rpower (- x) (/ 3)
  | inleft (right _) => 0
  | inright _ => Rpower x (/ 3)
  end.

(** [a / b] on doubles is not a finite number when [b] is zero (numpy yields
    [nan] or an infinity and goes on): [None] stands for such a cell. *)
Definition np_divide (a b : R) : option R :=
  if Req_EM_T b 0 then None else Some (a / b).

Definition Req_bool (a b : R) : bool :=
  if Req_EM_T a b then true else false.

(** Lines 64 to 69 of [pattern_from_slices] at one cell of the grids:
    [V] and [H] are the values of [vert_mesh_log] and [horiz_mesh_log]; the
    exponent [k], 2 by default, is a natural number. *)
Definition vert_mesh_lin (V : R) : R := np_power 10 (V / 10).
Definition horiz_mesh_lin (H : R) : R := np_power 10 (H / 10).
Definition w1 (V H : R) : R := vert_mesh_lin V * (1 - horiz_mesh_lin H).
Definition w2 (V H : R) : R := horiz_mesh_lin H * (1 - vert_mesh_lin V).

Definition cross_weighted_quotient (k : nat) (V H : R) : option R :=
  np_divide (H * w1 V H + V * w2 V H) (np_cbrt (w1 V H ^ k + w2 V H ^ k)).

Definition cross_weighted_cell (k : nat) (V H : R) : option R :=
  let pat3D := cross_weighted_quotient k V H in
  if Req_bool (w1 V H) 0 && Req_bool (w2 V H) 0 then Some 0 else pat3D.

End RealOps.
Import RealOps.

(** ** patternFromSlices.py *)

Module PatternFromSlices.

Open Scope Q_scope.
Open Scope py_scope.

Definition grid (A : Type) : Type := list (list A).

Definition grid_map {A B} (f : A -> B) (g : grid A) : grid B := map (map f) g.

Definition grid_zip {A B C} (f : A -> B -> C) (a : grid A) (b : grid B) : grid C :=
  zip_with (zip_with f) a b.

Definition grid_nth {A} (g : grid A) (i j : nat) : option A :=
  match nth_error g i with
  | Some row => nth_error row j
  | None => None
  end.

(** The argument [horiz_slice]: absent, a scalar, or a vector. *)
Inductive horiz_arg : Type :=
| HorizNone
| HorizScalar (g : Q)
| HorizVector (g : list Q).

(** The matrix [pat3D]: rationals for Summing, reals for CrossWeighted. *)
Inductive pat3D_t : Type :=
| PatQ (g : grid Q)
| PatR (g : grid (option R)).

Definition check_repeated_points (vals angles : list Q) (az_or_el : string)
  : M unit :=
  let rounded := map np_round angles in
  let unique_angles := np_unique rounded in
  let indices := np_unique_inverse rounded in
  (* [vals[indices == i]] needs a mask of the length of [vals] *)
  if negb (length unique_angles =? 0)%nat
     && negb (length vals =? length angles)%nat
  then raise IndexError
  else
    let repeated_vals :=
      map (fun i =>
             (1 <? length (np_uniqueQ
                             (mask_select (map (Nat.eqb i) indices) vals)))%nat)
          (seq 0 (length unique_angles)) in
    if existsb (fun b => b) repeated_vals then
      let repeated_angles := mask_select repeated_vals unique_angles in
      a <- index repeated_angles 0 ;;
      raise (ValueError (RepeatedAngles az_or_el a))
    else ret tt.

(** [slice[np.argmin(np.abs(angles - bs))]]: the gain at the sample whose
    angle is nearest to the boresight angle [bs]. *)
Definition boresight_gain (slice angles : list Q) (bs : Q) : M Q :=
  i <- np_argmin (map (fun t => Qabs (t - bs)) angles) ;;
  index slice i.

Definition check_reconstruction_requirements
  (vert_slice theta horiz_slice phi : list Q)
  (tol_nearest_angle_from_boresight tol_gain_max_vs_boresight : Q)
  (tol_gain_diff_at_slice_intersect : Q * Q) : M unit :=
  let phi_bs := 0 in
  let theta_bs := 90 in
  min_theta_from_bs <-
    np_min (map (fun t => Qabs (np_mod (t - theta_bs) 360)) theta) ;;
  min_phi_from_bs <-
    np_min (map (fun p => Qabs (np_mod (p - phi_bs) 360)) phi) ;;
  if Qlt_bool tol_nearest_angle_from_boresight min_theta_from_bs then
    raise (ValueError (NoAnglesVertical tol_nearest_angle_from_boresight))
  else if Qlt_bool tol_nearest_angle_from_boresight min_phi_from_bs then
    raise (ValueError (NoAnglesHorizontal tol_nearest_angle_from_boresight))
  else
    vert_max <- np_max vert_slice ;;
    vert_bs <- boresight_gain vert_slice theta theta_bs ;;
    if Qlt_bool tol_gain_max_vs_boresight (vert_max - vert_bs) then
      raise (ValueError VerticalBoresightGain)
    else
      horiz_max <- np_max horiz_slice ;;
      horiz_bs <- boresight_gain horiz_slice phi phi_bs ;;
      if Qlt_bool tol_gain_max_vs_boresight (horiz_max - horiz_bs) then
        raise (ValueError HorizontalBoresightGain)
      else if Qlt_bool (snd tol_gain_diff_at_slice_intersect)
                       (Qabs (vert_bs - horiz_bs)) then
        raise (ValueError GainDiffAtIntersection)
      else if Qlt_bool (fst tol_gain_diff_at_slice_intersect)
                       (Qabs (vert_bs - horiz_bs)) then
        warn GainDiffSignificant
      else ret tt.

(** [a[mask]]: numpy raises [IndexError] when the lengths differ. *)
Definition bool_index {A} (a : list A) (mask : list bool) : M (list A) :=
  if (length mask =? length a)%nat then ret (mask_select mask a)
  else raise IndexError.

(** [a[idx]] for an array of integer indices. *)
Fixpoint int_index {A} (a : list A) (idx : list nat) : M (list A) :=
  match idx with
  | [] => ret []
  | i :: idx' => x <- index a i ;; xs <- int_index a idx' ;; ret (x :: xs)
  end.

Definition is_known_method (method : string) : bool :=
  String.eqb method "Summing" || String.eqb method "CrossWeighted".

Definition preprocess_data
  (vert_slice_norm theta horiz_slice_norm phi : list Q) (method : string)
  : M (grid Q * list Q * grid Q * list Q) :=
  let theta_mod360 := map (fun t => np_mod t 360) theta in
  let phi_mod360 := map (fun p => np_mod p 360) phi in
  if is_known_method method then
    let idx_theta := map (fun t => Qle_bool t 180) theta_mod360 in
    let idx_phi := seq 0 (length phi) in
    theta_out <- bool_index theta idx_theta ;;
    phi_out <- int_index phi idx_phi ;;
    vert_sub <- bool_index vert_slice_norm idx_theta ;;
    horiz_sub <- int_index horiz_slice_norm idx_phi ;;
    let (vert_mesh_log, horiz_mesh_log) := meshgrid vert_sub horiz_sub in
    ret (vert_mesh_log, theta_out, horiz_mesh_log, phi_out)
  else raise (UnboundLocalError "idx_theta").

(** The two combiners, before denormalisation. *)
Definition summing (vert_mesh_log horiz_mesh_log : grid Q) : grid Q :=
  grid_zip Qplus vert_mesh_log horiz_mesh_log.

Definition cross_weighted (k : nat) (vert_mesh_log horiz_mesh_log : grid Q)
  : grid (option R) :=
  grid_zip (fun V H => cross_weighted_cell k (Q2R V) (Q2R H))
           vert_mesh_log horiz_mesh_log.

Definition normalize (max_directivity : Q) (slice : list Q) : list Q :=
  map (fun g => g - max_directivity) slice.

Definition add_back (max_directivity x : Q) : Q := x + max_directivity.

Definition denormalize (max_directivity : Q) (pat3D : pat3D_t) : pat3D_t :=
  match pat3D with
  | PatQ g => PatQ (grid_map (add_back max_directivity) g)
  | PatR g =>
      PatR (grid_map (option_map (fun x => (x + Q2R max_directivity)%R)) g)
  end.

Definition py_max (a b : Q) : Q := if Qlt_bool a b then b else a.

(** [max(np.max(vert_slice), np.max(horiz_slice))] *)
Definition max_directivity (vert_slice horiz_slice : list Q) : M Q :=
  vert_max <- np_max vert_slice ;;
  horiz_max <- np_max horiz_slice ;;
  ret (py_max vert_max horiz_max).

(** Lines 32 and 33: an absent [phi] is [np.arange(0, 361, 5)]. *)
Definition phi_used (phi : option (list Q)) : list Q :=
  match phi with None => arange_0_361_5 | Some p => p end.

(** Lines 35 to 40: an absent [horiz_slice] is the peak of the vertical
    slice times [np.ones_like(phi)], a scalar is that scalar times
    [np.ones_like(phi)], a vector must have the length of [phi]. *)
Definition materialize_horiz
  (vert_slice : list Q) (horiz_slice : horiz_arg) (phi : list Q)
  : M (list Q) :=
  match horiz_slice with
  | HorizNone => m <- np_max vert_slice ;; ret (map (fun _ => m * 1) phi)
  | HorizScalar g => ret (map (fun _ => g * 1) phi)
  | HorizVector g =>
      if negb (length g =? length phi)%nat then raise (ValueError DimHorizPhi)
      else ret g
  end.

Definition pattern_from_slices
  (vert_slice theta : list Q) (horiz_slice : horiz_arg) (phi : option (list Q))
  (method : string) (cross_weighted_normalization : nat)
  (tol_nearest_angle_from_boresight tol_gain_max_vs_boresight : Q)
  (tol_gain_diff_at_slice_intersect : Q * Q)
  : M (pat3D_t * list Q * list Q) :=
  if negb (length vert_slice =? length theta)%nat then
    raise (ValueError DimVertTheta)
  else
    let phi := phi_used phi in
    horiz_slice <- materialize_horiz vert_slice horiz_slice phi ;;
    check_repeated_points vert_slice theta "el" ;;;
    check_repeated_points horiz_slice phi "az" ;;;
    check_reconstruction_requirements vert_slice theta horiz_slice phi
      tol_nearest_angle_from_boresight tol_gain_max_vs_boresight
      tol_gain_diff_at_slice_intersect ;;;
    max_directivity <- max_directivity vert_slice horiz_slice ;;
    let vert_slice_norm := normalize max_directivity vert_slice in
    let horiz_slice_norm := normalize max_directivity horiz_slice in
    r <-
      (if String.eqb method "Summing" then
         p <- preprocess_data vert_slice_norm theta horiz_slice_norm phi method ;;
         let '(vert_mesh_log, theta_out, horiz_mesh_log, phi_out) := p in
         ret (PatQ (summing vert_mesh_log horiz_mesh_log), theta_out, phi_out)
       else if String.eqb method "CrossWeighted" then
         p <- preprocess_data vert_slice_norm theta horiz_slice_norm phi method ;;
         let '(vert_mesh_log, theta_out, horiz_mesh_log, phi_out) := p in
         let k := cross_weighted_normalization in
         ret (PatR (cross_weighted k vert_mesh_log horiz_mesh_log),
              theta_out, phi_out)
       else raise (ValueError (UnknownMethod method))) ;;
    let '(pat3D, theta_out, phi_out) := r in
    ret (denormalize max_directivity pat3D, theta_out, phi_out).

(** The defaults of the signature. *)
Definition default_tol_nearest_angle_from_boresight : Q := 10.
Definition default_tol_gain_max_vs_boresight : Q := 3.
Definition default_tol_gain_diff_at_slice_intersect : Q * Q := (1, 3).
Definition default_cross_weighted_normalization : nat := 2.

End PatternFromSlices.
Import PatternFromSlices.


(** ** The end-to-end scenario of the specification *)

Module Scenario.

Open Scope Q_scope.

Definition theta : list Q := [0; 45; 90; 135; 180].
Definition vert_gain : list Q := [-20; -6; 0; -6; -20].
Definition phi : list Q := [0; 90; 180; 270].
Definition horiz_gain : list Q := [0; -10; -20; -10].

Definition run : M (pat3D_t * list Q * list Q) :=
  pattern_from_slices vert_gain theta (HorizVector horiz_gain) (Some phi)
    "Summing" default_cross_weighted_normalization
    default_tol_nearest_angle_from_boresight
    default_tol_gain_max_vs_boresight
    default_tol_gain_diff_at_slice_intersect.

(** The outer sum of the two slices: row [i] is the vertical slice shifted by
    the [i]-th horizontal gain. *)
Definition outer_sum (vert horiz : list Q) : grid Q :=
  map (fun h => map (fun v => v + h) vert) horiz.

End Scenario.

(** ** msiread.py *)

Module MsiRead.

Open Scope py_scope.

(** *** The string methods the reader uses, on ASCII text *)

(** [str.isspace] on the ASCII range. *)
Definition is_space (c : ascii) : bool :=
  let n := nat_of_ascii c in
  ((9 <=? n) && (n <=? 13) || (28 <=? n) && (n <=? 32))%nat.

Definition is_empty (s : string) : bool :=
  match s with EmptyString => true | String _ _ => false end.

Fixpoint lstrip (s : string) : string :=
  match s with
  | EmptyString => EmptyString
  | String c t => if is_space c then lstrip t else s
  end.

Fixpoint rstrip (s : string) : string :=
  match s with
  | EmptyString => EmptyString
  | String c t =>
      let t' := rstrip t in
      if is_space c && is_empty t' then EmptyString else String c t'
  end.

(** [s.strip()] *)
Definition strip (s : string) : string := lstrip (rstrip s).

(** [s.split()]: the maximal runs of characters that are not white space. *)
Fixpoint split_from (s cur : string) : list string :=
  match s with
  | EmptyString => if is_empty cur then [] else [cur]
  | String c t =>
      if is_space c then
        if is_empty cur then split_from t EmptyString
        else cur :: split_from t EmptyString
      else split_from t (cur ++ String c EmptyString)
  end.

Definition split (s : string) : list string := split_from s EmptyString.

(** [s.lower()] *)
Definition lower_ascii (c : ascii) : ascii :=
  let n := nat_of_ascii c in
  if ((65 <=? n) && (n <=? 90))%nat then ascii_of_nat (n + 32) else c.

Fixpoint lower (s : string) : string :=
  match s with
  | EmptyString => EmptyString
  | String c t => String (lower_ascii c) (lower t)
  end.

(** [s.find(' ')], [None] standing for -1. *)
Fixpoint find_space (s : string) : option nat :=
  match s with
  | EmptyString => None
  | String c t =>
      if Ascii.eqb c " " then Some 0%nat else option_map S (find_space t)
  end.

Definition reduce_spaces (s : string) : string :=
  String.concat " " (split s).

Definition in_list (w : string) (l : list string) : bool :=
  existsb (String.eqb w) l.

(** *** The values the reader builds *)

(** The values stored in the dictionary [Optional]. *)
Inductive opt_value : Type :=
| VStr (s : string)
| VNum (x : Q)
| VNone
| VGain (value : option Q) (unit : string).   (* {'value': .., 'unit': ..} *)

(** A Python [dict] with string keys, in insertion order. *)
Definition dict : Type := list (string * opt_value).

Fixpoint dict_set (d : dict) (key : string) (v : opt_value) : dict :=
  match d with
  | [] => [(key, v)]
  | (k, v') :: t =>
      if String.eqb k key then (k, v) :: t else (k, v') :: dict_set t key v
  end.

Fixpoint dict_get (d : dict) (key : string) : option opt_value :=
  match d with
  | [] => None
  | (k, v) :: t => if String.eqb k key then Some v else dict_get t key
  end.

(** The dictionaries [Horizontal] and [Vertical]; three of their entries are
    never assigned and stay [None]. *)
Record slice_dict : Type := {
  PhysicalQuantity : option unit;
  Magnitude : option (list Q);
  Units : option string;
  Azimuth : option (list Q);
  Elevation : option unit;
  Frequency : option Q;
  Slice : option unit
}.

Definition empty_slice : slice_dict :=
  {| PhysicalQuantity := None; Magnitude := None; Units := None;
     Azimuth := None; Elevation := None; Frequency := None; Slice := None |}.

Definition set_Frequency (d : slice_dict) (f : Q) : slice_dict :=
  {| PhysicalQuantity := PhysicalQuantity d; Magnitude := Magnitude d;
     Units := Units d; Azimuth := Azimuth d; Elevation := Elevation d;
     Frequency := Some f; Slice := Slice d |}.

Definition set_Azimuth (d : slice_dict) (a : list Q) : slice_dict :=
  {| PhysicalQuantity := PhysicalQuantity d; Magnitude := Magnitude d;
     Units := Units d; Azimuth := Some a; Elevation := Elevation d;
     Frequency := Frequency d; Slice := Slice d |}.

Definition set_Magnitude (d : slice_dict) (a : list Q) : slice_dict :=
  {| PhysicalQuantity := PhysicalQuantity d; Magnitude := Some a;
     Units := Units d; Azimuth := Azimuth d; Elevation := Elevation d;
     Frequency := Frequency d; Slice := Slice d |}.

Definition set_Units (d : slice_dict) (u : string) : slice_dict :=
  {| PhysicalQuantity := PhysicalQuantity d; Magnitude := Magnitude d;
     Units := Some u; Azimuth := Azimuth d; Elevation := Elevation d;
     Frequency := Frequency d; Slice := Slice d |}.

(** The local variables of [msiread] that live across iterations of its
    loop; [TransData] is [None] while the name is unbound. *)
Record locals : Type := {
  Horizontal : slice_dict;
  Vertical : slice_dict;
  Optional : dict;
  line_num : nat;
  n : nat;
  m : nat;
  optional_gain_value : option Q;
  TransData : option (list Q)
}.

Definition initial : locals :=
  {| Horizontal := empty_slice; Vertical := empty_slice; Optional := [];
     line_num := 0; n := 0; m := 0;
     optional_gain_value := None; TransData := None |}.

Definition with_line_num (st : locals) (k : nat) : locals :=
  {| Horizontal := Horizontal st; Vertical := Vertical st;
     Optional := Optional st; line_num := k; n := n st; m := m st;
     optional_gain_value := optional_gain_value st;
     TransData := TransData st |}.

Definition with_Optional (st : locals) (d : dict) : locals :=
  {| Horizontal := Horizontal st; Vertical := Vertical st;
     Optional := d; line_num := line_num st; n := n st; m := m st;
     optional_gain_value := optional_gain_value st;
     TransData := TransData st |}.

Definition with_slices (st : locals) (h v : slice_dict) : locals :=
  {| Horizontal := h; Vertical := v;
     Optional := Optional st; line_num := line_num st; n := n st; m := m st;
     optional_gain_value := optional_gain_value st;
     TransData := TransData st |}.

Definition with_gain (st : locals) (g : option Q) : locals :=
  {| Horizontal := Horizontal st; Vertical := Vertical st;
     Optional := Optional st; line_num := line_num st; n := n st; m := m st;
     optional_gain_value := g; TransData := TransData st |}.

Definition with_counts (st : locals) (n' m' : nat) : locals :=
  {| Horizontal := Horizontal st; Vertical := Vertical st;
     Optional := Optional st; line_num := line_num st; n := n'; m := m';
     optional_gain_value := optional_gain_value st;
     TransData := TransData st |}.

Definition with_TransData (st : locals) (t : list Q) : locals :=
  {| Horizontal := Horizontal st; Vertical := Vertical st;
     Optional := Optional st; line_num := line_num st; n := n st; m := m st;
     optional_gain_value := optional_gain_value st;
     TransData := Some t |}.

(** [[-1 * d[1] + optional_gain_value for d in data]] *)
Definition trans_data (gain : Q) (data : list (Q * Q)) : list Q :=
  map (fun d => (-1 * snd d + gain)%Q) data.

Section Reader.

(** Python's [float] on a string: [None] when it raises [ValueError]. *)
Variable py_float : string -> option Q.

(** [get_scalar_numeric_value]: the value, [None] with a message when the
    text is not a number; the message is not modelled. *)
Definition get_scalar_numeric_value (txt : string) : option Q :=
  py_float (strip txt).

Definition get_value_with_unit (txt : string) : M (option Q * string) :=
  let parts := split txt in
  if (length parts =? 1)%nat then
    p0 <- index parts 0 ;;
    ret (get_scalar_numeric_value p0, "dBd"%string)
  else
    p0 <- index parts 0 ;;
    p1 <- index parts 1 ;;
    ret (get_scalar_numeric_value p0, p1).

Definition get_scalar_numeric_value_or_string (txt : string) : opt_value :=
  match get_scalar_numeric_value txt with
  | None => VStr (strip txt)
  | Some value => VNum value
  end.

Definition get_one_string_value (txt : string) : string := strip txt.

(** [get_xy_coords]: the pairs read, the line of a format error if any, and
    the line number reached. *)
Fixpoint get_xy_coords (lines : list string) (line_num : nat)
         (vec : list (Q * Q)) : list (Q * Q) * option nat * nat :=
  match lines with
  | [] => (vec, None, line_num)
  | l :: rest =>
      let line_num := S line_num in
      let line := reduce_spaces (strip l) in
      if is_empty line then get_xy_coords rest line_num vec
      else
        let parts := split line in
        match parts with
        | [p0; p1] =>
            match py_float p0, py_float p1 with
            | Some x, Some y => get_xy_coords rest line_num (vec ++ [(x, y)])
            | _, _ => (vec, None, line_num)
            end
        | _ => (vec, Some line_num, line_num)
        end
  end.

(** Lines 74 to 85: the first word of a line, in lower case, and the rest
    of the line; [None] for a line that is blank. *)
Definition parse_line (raw : string) : option (string * string) :=
  let line := strip raw in
  if is_empty line then None
  else
    let line := reduce_spaces line in
    let idx :=
      match find_space line with
      | None => String.length line
      | Some i => i
      end in
    let first_word := lower (substring 0 idx line) in
    let rest_of_line := strip (substring idx (String.length line - idx) line) in
    Some (first_word, rest_of_line).

(** Lines 87 to 123: the branch taken for [first_word]. *)
Definition dispatch (lines : list string) (first_word rest_of_line : string)
           (st : locals) : M locals :=
  if in_list first_word ["name"; "make"]%string then
    ret (with_Optional st (dict_set (Optional st) first_word (VStr rest_of_line)))
  else if in_list first_word
            ["h_width"; "v_width"; "front_to_back"; "frequency"]%string then
    let value := get_scalar_numeric_value rest_of_line in
    let st :=
      with_Optional st
        (dict_set (Optional st) first_word
           (match value with Some x => VNum x | None => VNone end)) in
    if String.eqb first_word "frequency" then
      match value with
      | Some x =>
          ret (with_slices st
                 (set_Frequency (Horizontal st) (x * 1000000)%Q)
                 (set_Frequency (Vertical st) (x * 1000000)%Q))
      | None => raise TypeError          (* None * 1e6 *)
      end
    else ret st
  else if String.eqb first_word "tilt" then
    ret (with_Optional st
           (dict_set (Optional st) first_word
              (get_scalar_numeric_value_or_string rest_of_line)))
  else if String.eqb first_word "gain" then
    vu <- get_value_with_unit rest_of_line ;;
    let (value, unit) := vu in
    ret (with_gain
           (with_Optional st
              (dict_set (Optional st) first_word (VGain value unit)))
           value)
  else if String.eqb first_word "polarization" then
    ret (with_Optional st
           (dict_set (Optional st) first_word
              (VStr (get_one_string_value rest_of_line))))
  else if String.eqb first_word "comment" then
    ret (with_Optional st (dict_set (Optional st) first_word (VStr rest_of_line)))
  else if in_list first_word ["horizontal"; "vertical"]%string then
    if String.eqb first_word "horizontal" then
      let st := with_counts st (S (n st)) (m st) in
      let '(data, msg, line_num') :=
        get_xy_coords (skipn (line_num st) lines) (line_num st) [] in
      let st := with_line_num st line_num' in
      let st :=
        match optional_gain_value st with
        | Some g => with_TransData st (trans_data g data)
        | None => st
        end in
      let st :=
        with_slices st (set_Azimuth (Horizontal st) (map fst data))
                    (Vertical st) in
      match TransData st with
      | Some t =>
          ret (with_slices st (set_Magnitude (Horizontal st) t) (Vertical st))
      | None => raise (UnboundLocalError "TransData")
      end
    else if String.eqb first_word "vertical" then
      let st := with_counts st (n st) (S (m st)) in
      let '(data, msg, line_num') :=
        get_xy_coords (skipn (line_num st) lines) (line_num st) [] in
      let st := with_line_num st line_num' in
      let st :=
        match optional_gain_value st with
        | Some g => with_TransData st (trans_data g data)
        | None => st
        end in
      let st :=
        with_slices st (Horizontal st)
                    (set_Azimuth (Vertical st) (map fst data)) in
      match TransData st with
      | Some t =>
          ret (with_slices st (Horizontal st) (set_Magnitude (Vertical st) t))
      | None => raise (UnboundLocalError "TransData")
      end
    else ret st
  else
    ret (with_Optional st (dict_set (Optional st) first_word (VStr rest_of_line))).

(** One iteration of the [while] loop, [parse_next_line] being always
    [True]. *)
Definition step (lines : list string) (st : locals) : M locals :=
  raw <- index lines (line_num st) ;;
  let st := with_line_num st (S (line_num st)) in
  match parse_line raw with
  | None => ret st                                  (* continue *)
  | Some (first_word, rest_of_line) => dispatch lines first_word rest_of_line st
  end.

(** The loop [while line_num < len(lines)]; [None] when [fuel] iterations
    were not enough. *)
Fixpoint loop (fuel : nat) (lines : list string) (st : locals)
  : option (M locals) :=
  if (line_num st <? length lines)%nat then
    match fuel with
    | O => None
    | S fuel' =>
        match step lines st with
        | (ws, inl e) => Some (ws, inl e)
        | (_, inr st') => loop fuel' lines st'
        end
    end
  else Some (ret st).

(** Lines 125 to 129. *)
Definition finish (st : locals) : M (slice_dict * slice_dict * dict) :=
  match dict_get (Optional st) "gain" with
  | Some (VGain _ unit) =>
      if String.eqb unit "dBi" then
        ret (set_Units (Horizontal st) "dBi", set_Units (Vertical st) "dBi",
             Optional st)
      else ret (Horizontal st, Vertical st, Optional st)
  | Some _ => raise TypeError
  | None => ret (Horizontal st, Vertical st, Optional st)
  end.

(** The body of the [try] on the lines read from the file, and the
    [except] clause, which wraps every exception in a [RuntimeError]. *)
Definition msiread_on (fuel : nat) (lines : list string)
  : option (M (slice_dict * slice_dict * dict)) :=
  match loop fuel lines initial with
  | None => None
  | Some r =>
      match bind r finish with
      | (ws, inl e) => Some (ws, inl (RuntimeError e))
      | (ws, inr v) => Some (ws, inr v)
      end
  end.

(** Every iteration reads at least one line: [len(lines)] iterations are
    enough. *)
Definition msiread (lines : list string)
  : option (M (slice_dict * slice_dict * dict)) :=
  msiread_on (length lines) lines.

(** The first word of a line, as the loop sees it. *)
Definition keyword (raw : string) : option string :=
  option_map fst (parse_line raw).

Definition is_section (raw : string) : Prop :=
  keyword raw = Some "horizontal"%string \/
  keyword raw = Some "vertical"%string.

End Reader.

(** A reading of unsigned decimal integers, a fragment of what [float]
    accepts, to run the reader on examples. *)
Definition digit (c : ascii) : option nat :=
  let k := nat_of_ascii c in
  if ((48 <=? k) && (k <=? 57))%nat then Some (k - 48)%nat else None.

Fixpoint digits (s : string) (acc : nat) : option nat :=
  match s with
  | EmptyString => Some acc
  | String c t =>
      match digit c with
      | Some d => digits t (10 * acc + d)
      | None => None
      end
  end.

Definition float_of_digits (s : string) : option Q :=
  if is_empty s then None
  else option_map (fun k => inject_Z (Z.of_nat k)) (digits s 0).

End MsiRead.

(** ** Predicates used to state the properties *)

Module Props.

Open Scope Q_scope.

(** Two samples of a slice round to the whole degree [a] and carry
    different gains. *)
Definition differing_gains_at (vals angles : list Q) (a : Z) : Prop :=
  exists i j ai aj x y,
    nth_error angles i = Some ai /\ nth_error angles j = Some aj /\
    np_round ai = a /\ np_round aj = a /\
    nth_error vals i = Some x /\ nth_error vals j = Some y /\ ~ x == y.

(** A grid of [rows] rows that all have [cols] entries. *)
Definition has_shape {A} (g : grid A) (rows cols : nat) : Prop :=
  length g = rows /\ Forall (fun row => length row = cols) g.

Definition pat_has_shape (pat3D : pat3D_t) (rows cols : nat) : Prop :=
  match pat3D with
  | PatQ g => has_shape g rows cols
  | PatR g => has_shape g rows cols
  end.

(** The mask [theta_mod360 <= 180] of [preprocess_data]. *)
Definition idx_theta (theta : list Q) : list bool :=
  map (fun t => Qle_bool (np_mod t 360) 180) theta.

(** The four checks that precede the comparison of the two slices at
    their intersection succeed, and the gains nearest to boresight are
    [vert_bs] and [horiz_bs]. *)
Definition passes_boresight_checks
  (vert_slice theta horiz_slice phi : list Q) (tol_angle tol_gain : Q)
  (vert_bs horiz_bs : Q) : Prop :=
  exists min_theta min_phi vert_max horiz_max,
    np_min (map (fun t => Qabs (np_mod (t - 90) 360)) theta) = ret min_theta /\
    np_min (map (fun p => Qabs (np_mod (p - 0) 360)) phi) = ret min_phi /\
    min_theta <= tol_angle /\ min_phi <= tol_angle /\
    np_max vert_slice = ret vert_max /\
    boresight_gain vert_slice theta 90 = ret vert_bs /\
    vert_max - vert_bs <= tol_gain /\
    np_max horiz_slice = ret horiz_max /\
    boresight_gain horiz_slice phi 0 = ret horiz_bs /\
    horiz_max - horiz_bs <= tol_gain.

(** A call of [pattern_from_slices] gets as far as the comparison of the two
    slices at their intersection: the dimensions agree, [horiz_slice] is
    the materialised horizontal slice, no repeated angle has unequal gains
    and the boresight checks pass. *)
Definition reaches_intersection_check
  (vert_slice theta : list Q) (horiz : horiz_arg) (phi : option (list Q))
  (tol_angle tol_gain : Q) (horiz_slice : list Q) (vert_bs horiz_bs : Q)
  : Prop :=
  length vert_slice = length theta /\
  materialize_horiz vert_slice horiz (phi_used phi) = ret horiz_slice /\
  check_repeated_points vert_slice theta "el" = ret tt /\
  check_repeated_points horiz_slice (phi_used phi) "az" = ret tt /\
  passes_boresight_checks vert_slice theta horiz_slice (phi_used phi)
    tol_angle tol_gain vert_bs horiz_bs.

(** The cell of a Summing pattern. *)
Definition patQ_nth (pat3D : pat3D_t) (i j : nat) : option Q :=
  match pat3D with
  | PatQ g => grid_nth g i j
  | PatR _ => None
  end.

(** The cell of a CrossWeighted pattern. *)
Definition patR_nth (pat3D : pat3D_t) (i j : nat) : option (option R) :=
  match pat3D with
  | PatR g => grid_nth g i j
  | PatQ _ => None
  end.

(** Line [i] of the file opens a horizontal or vertical section and no
    line before it is a gain line. *)
Definition section_without_gain (lines : list string) (i : nat) : Prop :=
  (exists raw, nth_error lines i = Some raw /\ MsiRead.is_section raw) /\
  forall j raw,
    (j < i)%nat -> nth_error lines j = Some raw ->
    MsiRead.keyword raw <> Some "gain"%string.

(** No gain value has been read and [TransData] is unbound. *)
Definition no_gain_yet (st : MsiRead.locals) : Prop :=
  MsiRead.optional_gain_value st = None /\ MsiRead.TransData st = None.

End Props.
Import Props.

(** ** Predicates used to state further properties *)

Module Facts.

Open Scope Q_scope.
Open Scope py_scope.


(** Lines 28 to 53 of [pattern_from_slices]: everything up to the choice of
    the method; the result is the materialised horizontal slice and
    [max_directivity]. *)
Definition validation
  (vert_slice theta : list Q) (horiz_slice : horiz_arg) (phi : option (list Q))
  (tol_angle tol_gain : Q) (tol_diff : Q * Q) : M (list Q * Q) :=
  if negb (length vert_slice =? length theta)%nat then
    raise (ValueError DimVertTheta)
  else
    let phi := phi_used phi in
    horiz_slice <- materialize_horiz vert_slice horiz_slice phi ;;
    check_repeated_points vert_slice theta "el" ;;;
    check_repeated_points horiz_slice phi "az" ;;;
    check_reconstruction_requirements vert_slice theta horiz_slice phi
      tol_angle tol_gain tol_diff ;;;
    max_directivity <- max_directivity vert_slice horiz_slice ;;
    ret (horiz_slice, max_directivity).

(** The pattern of a call that returns, from the two meshes. *)
Definition combined (method : string) (k : nat) (m : Q) (V H : grid Q)
  : pat3D_t :=
  if String.eqb method "Summing" then denormalize m (PatQ (summing V H))
  else denormalize m (PatR (cross_weighted k V H)).

(** The two meshes a call builds from its slices. *)
Definition vert_mesh (m : Q) (vert theta hs : list Q) : grid Q :=
  fst (meshgrid (mask_select (idx_theta theta) (normalize m vert))
                (normalize m hs)).

Definition horiz_mesh (m : Q) (vert theta hs : list Q) : grid Q :=
  snd (meshgrid (mask_select (idx_theta theta) (normalize m vert))
                (normalize m hs)).

(** Equality of rationals under [option]. *)
Definition opt_Qeq (a b : option Q) : Prop :=
  match a, b with
  | Some x, Some y => x == y
  | None, None => True
  | _, _ => False
  end.


(** Every row of the pattern is the same row. *)
Definition rows_all_equal (pat3D : pat3D_t) : Prop :=
  match pat3D with
  | PatQ g => exists row, Forall (eq row) g
  | PatR g => exists row, Forall (eq row) g
  end.

Definition is_omnidirectional (horiz : horiz_arg) : Prop :=
  match horiz with
  | HorizNone | HorizScalar _ => True
  | HorizVector _ => False
  end.

(** [i] is the first position of a least element of [l]. *)
Definition first_minimum (l : list Q) (i : nat) : Prop :=
  exists x,
    nth_error l i = Some x /\
    (forall y, In y l -> x <= y) /\
    (forall j y, (j < i)%nat -> nth_error l j = Some y -> x < y).

(** *** Lines of a data block of an MSI file *)

(** The line is blank for [get_xy_coords]. *)
Definition blank (l : string) : bool :=
  MsiRead.is_empty (MsiRead.reduce_spaces (MsiRead.strip l)).

(** The two numbers of a data line, if it has exactly two words and both
    are numbers. *)
Definition data_pair (py_float : string -> option Q) (l : string)
  : option (Q * Q) :=
  match MsiRead.split (MsiRead.reduce_spaces (MsiRead.strip l)) with
  | [p0; p1] =>
      match py_float p0, py_float p1 with
      | Some x, Some y => Some (x, y)
      | _, _ => None
      end
  | _ => None
  end.

(** A line that does not end a data block. *)
Definition continues_block (py_float : string -> option Q) (l : string)
  : Prop :=
  blank l = true \/ data_pair py_float l <> None.

Fixpoint pairs_of (py_float : string -> option Q) (ls : list string)
  : list (Q * Q) :=
  match ls with
  | [] => []
  | l :: rest =>
      if blank l then pairs_of py_float rest
      else
        match data_pair py_float l with
        | Some p => p :: pairs_of py_float rest
        | None => pairs_of py_float rest
        end
  end.

(** The dictionary a section line fills. *)
Definition section_of (w : string) (st : MsiRead.locals) : MsiRead.slice_dict :=
  if String.eqb w "horizontal" then MsiRead.Horizontal st
  else MsiRead.Vertical st.

Definition other_section_of (w : string) (st : MsiRead.locals)
  : MsiRead.slice_dict :=
  if String.eqb w "horizontal" then MsiRead.Vertical st
  else MsiRead.Horizontal st.

(** A line that is neither a section, nor a gain, nor a frequency line. *)
Definition plain_line (l : string) : Prop :=
  forall w, MsiRead.keyword l = Some w ->
            ~ In w ["horizontal"; "vertical"; "frequency"; "gain"]%string.

(** What holds between two iterations on a file of plain lines. *)
Definition plain_invariant (lines : list string) (st : MsiRead.locals)
  : Prop :=
  MsiRead.Horizontal st = MsiRead.empty_slice /\
  MsiRead.Vertical st = MsiRead.empty_slice /\
  MsiRead.dict_get (MsiRead.Optional st) "gain" = None /\
  forall j l w,
    (j < MsiRead.line_num st)%nat -> nth_error lines j = Some l ->
    MsiRead.keyword l = Some w ->
    MsiRead.dict_get (MsiRead.Optional st) w <> None.

(** Two states of the reader that differ at most in [line_num], the
    counters and [Optional]. *)
Definition same_slices (st st' : MsiRead.locals) : Prop :=
  MsiRead.Horizontal st' = MsiRead.Horizontal st /\
  MsiRead.Vertical st' = MsiRead.Vertical st /\
  MsiRead.optional_gain_value st' = MsiRead.optional_gain_value st /\
  MsiRead.TransData st' = MsiRead.TransData st /\
  MsiRead.dict_get (MsiRead.Optional st') "gain"
    = MsiRead.dict_get (MsiRead.Optional st) "gain".

(** The dictionary of a section that was read, and of one that was not. *)
Definition read_slice (azimuth magnitude : list Q) (units : option string)
  : MsiRead.slice_dict :=
  {| MsiRead.PhysicalQuantity := None; MsiRead.Magnitude := Some magnitude;
     MsiRead.Units := units; MsiRead.Azimuth := Some azimuth;
     MsiRead.Elevation := None; MsiRead.Frequency := None;
     MsiRead.Slice := None |}.

Definition unread_slice (units : option string) : MsiRead.slice_dict :=
  {| MsiRead.PhysicalQuantity := None; MsiRead.Magnitude := None;
     MsiRead.Units := units; MsiRead.Azimuth := None;
     MsiRead.Elevation := None; MsiRead.Frequency := None;
     MsiRead.Slice := None |}.

(** ['dBi'] when the gain line says so, [None] otherwise. *)
Definition units_of (unit : string) : option string :=
  if String.eqb unit "dBi" then Some "dBi"%string else None.

(** *** Words *)

Fixpoint no_space (s : string) : bool :=
  match s with
  | EmptyString => true
  | String c t => negb (MsiRead.is_space c) && no_space t
  end.

(** A word: a non-empty string without white space. *)
Definition word (s : string) : Prop :=
  MsiRead.is_empty s = false /\ no_space s = true.

End Facts.
Import Facts.

(** * Properties *)

Section Monad_facts.

Context {A B : Type}.

Lemma bind_returns (m : M A) (k : A -> M B) ws b :
  bind m k = (ws, inr b) ->
  exists ws1 a ws2, m = (ws1, inr a) /\ k a = (ws2, inr b) /\ ws = ws1 ++ ws2.
Proof.
  unfold bind. destruct m as [ws1 [e | a]]; [discriminate |].
  destruct (k a) as [ws2 r] eqn:Hk. intros H. inversion H; subst.
  exists ws1, a, ws2. auto.
Qed.

Lemma bind_ret (a : A) (k : A -> M B) : bind (ret a) k = k a.
Proof. unfold bind, ret. destruct (k a). reflexivity. Qed.

Lemma bind_raise (e : exn) (k : A -> M B) : bind (raise e) k = raise e.
Proof. reflexivity. Qed.

End Monad_facts.

(** C6: on the scenario of the specification the call returns without a
    warning, [max_directivity] is 0, the angle series come back unchanged, the
    grid is the outer sum of the two slices (one row per phi, one column per
    theta) and its cell for theta = 90, phi = 0 holds exactly 0. *)
Theorem C6_scenario_summing :
  max_directivity Scenario.vert_gain Scenario.horiz_gain = ret 0%Q /\
  Scenario.run =
    ([], inr (PatQ (Scenario.outer_sum Scenario.vert_gain Scenario.horiz_gain),
              [0; 45; 90; 135; 180]%Q, [0; 90; 180; 270]%Q)) /\
  nth_error Scenario.theta 2 = Some 90%Q /\
  nth_error Scenario.phi 0 = Some 0%Q /\
  grid_nth (Scenario.outer_sum Scenario.vert_gain Scenario.horiz_gain) 0 2
    = Some 0%Q.
Proof. repeat split; vm_compute; reflexivity. Qed.

(** C2: the vertical coverage test measures the distance of a sample from
    theta = 90 as [(theta - 90) mod 360]: a sample 10 degrees above
    boresight passes a tolerance of 10 and one 10.0001 degrees above fails,
    but a sample 10 degrees below boresight, at 80, is taken to be 350
    degrees away and is refused, although line 107 of the same function
    measures nearness to boresight as [abs(theta - 90)]. *)
Theorem C2_sample_below_boresight_refused :
  pattern_from_slices [0] [80] (HorizVector [0]) (Some [0]) "Summing"
    default_cross_weighted_normalization
    default_tol_nearest_angle_from_boresight
    default_tol_gain_max_vs_boresight
    default_tol_gain_diff_at_slice_intersect
    = raise (ValueError (NoAnglesVertical 10)) /\
  check_reconstruction_requirements [0] [80] [0] [0] 10 3 (1, 3)%Q
    = raise (ValueError (NoAnglesVertical 10)) /\
  (Qabs (np_mod (80 - 90) 360) == 350)%Q /\
  boresight_gain [0] [80] 90 = ret 0%Q /\
  check_reconstruction_requirements [0] [100] [0] [0] 10 3 (1, 3)%Q = ret tt /\
  check_reconstruction_requirements [0] [100.0001] [0] [0] 10 3 (1, 3)%Q
    = raise (ValueError (NoAnglesVertical 10)).
Proof. repeat split; vm_compute; reflexivity. Qed.

(** ** Facts about the numpy operations *)

Section Numpy_facts.

Open Scope Q_scope.

Lemma Qlt_bool_iff (x y : Q) : Qlt_bool x y = true <-> x < y.
Proof.
  unfold Qlt_bool. rewrite negb_true_iff. split; intros H.
  - apply Qnot_le_lt. intros Hle. apply Qle_bool_iff in Hle. congruence.
  - destruct (Qle_bool y x) eqn:E; [| reflexivity].
    apply Qle_bool_iff in E. lra.
Qed.

Lemma Qlt_bool_false (x y : Q) : Qlt_bool x y = false <-> y <= x.
Proof.
  unfold Qlt_bool. rewrite negb_false_iff. apply Qle_bool_iff.
Qed.

Lemma py_max_upper (a b : Q) : a <= py_max a b /\ b <= py_max a b.
Proof.
  unfold py_max. destruct (Qlt_bool a b) eqn:E.
  - apply Qlt_bool_iff in E. lra.
  - apply Qlt_bool_false in E. lra.
Qed.

Lemma py_max_cases (a b : Q) : py_max a b = a \/ py_max a b = b.
Proof. unfold py_max. destruct (Qlt_bool a b); auto. Qed.

Lemma max_list_upper (l : list Q) :
  forall x, x <= max_list x l /\ Forall (fun y => y <= max_list x l) l.
Proof.
  induction l as [| y t IH]; intros x; simpl.
  - split; [lra | constructor].
  - destruct (IH (if Qlt_bool x y then y else x)) as [H1 H2].
    destruct (Qlt_bool x y) eqn:E.
    + apply Qlt_bool_iff in E. repeat split; try constructor; auto; lra.
    + apply Qlt_bool_false in E. repeat split; try constructor; auto; lra.
Qed.

Lemma max_list_in (l : list Q) : forall x, In (max_list x l) (x :: l).
Proof.
  induction l as [| y t IH]; intros x; simpl.
  - auto.
  - destruct (IH (if Qlt_bool x y then y else x)) as [H | H].
    + destruct (Qlt_bool x y); rewrite <- H; auto.
    + auto.
Qed.

Lemma np_max_returns (l : list Q) ws m :
  np_max l = (ws, inr m) ->
  ws = [] /\ In m l /\ Forall (fun y => y <= m) l.
Proof.
  destruct l as [| x t]; simpl; [discriminate |].
  unfold ret. intros H. inversion H; subst. split; [reflexivity |].
  split; [apply max_list_in |].
  destruct (max_list_upper t x). constructor; assumption.
Qed.

Lemma max_directivity_returns (vert horiz : list Q) ws m :
  max_directivity vert horiz = (ws, inr m) ->
  ws = [] /\ In m (vert ++ horiz) /\ Forall (fun g => g <= m) (vert ++ horiz).
Proof.
  unfold max_directivity. intros H.
  apply bind_returns in H. destruct H as (ws1 & a & ws2 & Ha & H & ->).
  apply bind_returns in H. destruct H as (ws3 & b & ws4 & Hb & H & ->).
  unfold ret in H. inversion H; subst.
  apply np_max_returns in Ha. destruct Ha as (-> & Ia & Fa).
  apply np_max_returns in Hb. destruct Hb as (-> & Ib & Fb).
  destruct (py_max_upper a b) as [Ua Ub].
  split; [reflexivity |]. split.
  - apply in_or_app. destruct (py_max_cases a b) as [-> | ->]; auto.
  - apply Forall_app. split; eapply Forall_impl; try eassumption;
      simpl; intros; lra.
Qed.

End Numpy_facts.

(** ** Normalisation and denormalisation *)

(** With [m] the larger of the maxima of the two slices, [m] is a gain of
    one of the slices and bounds them all; every normalised gain is the
    gain minus [m], is at most 0, and one of them is 0; denormalising a
    matrix made of the two normalised slices gives the two slices back. *)
Lemma normalize_slices (vert horiz : list Q) (m : Q) :
  max_directivity vert horiz = ret m ->
  (In m (vert ++ horiz) /\ Forall (fun g => g <= m)%Q (vert ++ horiz)) /\
  Forall2 (fun n g => n == g - m)%Q
          (normalize m vert ++ normalize m horiz) (vert ++ horiz) /\
  Forall (fun g => g <= 0)%Q (normalize m vert ++ normalize m horiz) /\
  Exists (fun g => g == 0)%Q (normalize m vert ++ normalize m horiz) /\
  exists g,
    denormalize m (PatQ [normalize m vert; normalize m horiz]) = PatQ g /\
    Forall2 (Forall2 Qeq) g [vert; horiz].
Proof.
  intros H. apply max_directivity_returns in H. destruct H as (_ & Hin & Hall).
  split; [auto |].
  assert (Hround : forall l,
             Forall2 Qeq (map (add_back m) (normalize m l)) l).
  { induction l as [| x t IH]; simpl; constructor; auto.
    unfold add_back. ring. }
  split; [| split; [| split]].
  - unfold normalize. rewrite <- map_app.
    clear. induction (vert ++ horiz) as [| x t IH]; simpl; constructor;
      [reflexivity | exact IH].
  - unfold normalize. rewrite <- map_app.
    apply Forall_map. eapply Forall_impl; [| exact Hall].
    simpl. intros a Ha. lra.
  - unfold normalize. rewrite <- map_app.
    apply Exists_exists. exists (m - m)%Q. split; [| ring].
    apply in_map_iff. exists m. auto.
  - eexists. split; [reflexivity |]. simpl.
    constructor; [apply Hround |]. constructor; [apply Hround |]. constructor.
Qed.

(** ** The duplicate-angle check *)

Section Repeated_points.

Open Scope Q_scope.

Lemma insert_unique_In (x y : Z) (l : list Z) :
  In x (insert_unique y l) <-> x = y \/ In x l.
Proof.
  induction l as [| z t IH]; simpl.
  - intuition.
  - destruct (Z.compare_spec y z) as [E | E | E]; simpl.
    + subst. intuition.
    + intuition.
    + rewrite IH. intuition.
Qed.

Lemma np_unique_In (x : Z) (l : list Z) : In x (np_unique l) <-> In x l.
Proof.
  induction l as [| y t IH]; simpl; [reflexivity |].
  rewrite insert_unique_In, IH. intuition.
Qed.

Lemma position_nth (x : Z) (u : list Z) :
  In x u -> nth_error u (position x u) = Some x.
Proof.
  induction u as [| y t IH]; simpl; [contradiction |].
  intros H. destruct (Z.eqb_spec x y) as [E | E]; simpl.
  - congruence.
  - destruct H; [congruence | auto].
Qed.

Lemma mask_select_In {A} (mask : list bool) :
  forall (a : list A) (x : A),
    length mask = length a ->
    (In x (mask_select mask a) <->
     exists j, nth_error mask j = Some true /\ nth_error a j = Some x).
Proof.
  induction mask as [| b mask IH]; intros [| y a] x Hlen; simpl in *;
    try discriminate.
  - split; [contradiction |]. intros [[| j] [H _]]; discriminate.
  - injection Hlen as Hlen. specialize (IH a x Hlen).
    destruct b; simpl; rewrite IH; split.
    + intros [-> | [j Hj]]; [exists 0%nat; auto | exists (S j); auto].
    + intros [[| j] [H1 H2]]; simpl in *; [left; congruence | right; eauto].
    + intros [j Hj]. exists (S j). auto.
    + intros [[| j] [H1 H2]]; simpl in *; [discriminate | eauto].
Qed.

(** Membership is kept by [np_uniqueQ] up to equality of rationals, and its
    elements are elements of the argument. *)
Lemma insert_uniqueQ_sub (x y : Q) (l : list Q) :
  In x (insert_uniqueQ y l) -> x = y \/ In x l.
Proof.
  induction l as [| z t IH]; simpl.
  - intuition.
  - destruct (y ?= z); simpl; intuition.
Qed.

Lemma insert_uniqueQ_keeps (x y : Q) (l : list Q) :
  In x l -> In x (insert_uniqueQ y l).
Proof.
  induction l as [| z t IH]; simpl; [contradiction |].
  destruct (y ?= z); simpl; intuition.
Qed.

Lemma insert_uniqueQ_has (y : Q) (l : list Q) :
  exists u, In u (insert_uniqueQ y l) /\ u == y.
Proof.
  induction l as [| z t IH]; simpl.
  - exists y. split; [auto | reflexivity].
  - destruct (y ?= z) eqn:E; simpl.
    + exists z. split; [auto |]. symmetry. apply Qeq_alt. exact E.
    + exists y. split; [auto | reflexivity].
    + destruct IH as (u & Hu & Eu). exists u. auto.
Qed.

Lemma np_uniqueQ_sub (x : Q) (l : list Q) : In x (np_uniqueQ l) -> In x l.
Proof.
  induction l as [| y t IH]; simpl; [auto |].
  intros H. apply insert_uniqueQ_sub in H. intuition.
Qed.

Lemma np_uniqueQ_has (x : Q) (l : list Q) :
  In x l -> exists u, In u (np_uniqueQ l) /\ u == x.
Proof.
  induction l as [| y t IH]; simpl; [contradiction |].
  intros [-> | H].
  - apply insert_uniqueQ_has.
  - destruct (IH H) as (u & Hu & Eu). exists u.
    split; [apply insert_uniqueQ_keeps; exact Hu | exact Eu].
Qed.

Lemma np_uniqueQ_all_equal (l : list Q) :
  (forall x y, In x l -> In y l -> x == y) ->
  (length (np_uniqueQ l) <= 1)%nat.
Proof.
  induction l as [| x t IH]; intros Heq; simpl; [lia |].
  assert (Ht : (length (np_uniqueQ t) <= 1)%nat).
  { apply IH. intros a b Ha Hb. apply Heq; simpl; auto. }
  destruct (np_uniqueQ t) as [| z [| z' r]] eqn:E; simpl in *; try lia.
  assert (Hz : In z t) by (apply np_uniqueQ_sub; rewrite E; simpl; auto).
  assert (Hxz : x == z) by (apply Heq; simpl; auto).
  apply Qeq_alt in Hxz. rewrite Hxz. simpl. lia.
Qed.

Lemma np_uniqueQ_two_distinct (l : list Q) (x y : Q) :
  In x l -> In y l -> ~ x == y -> (1 < length (np_uniqueQ l))%nat.
Proof.
  intros Hx Hy Hne.
  destruct (np_uniqueQ_has x l Hx) as (u & Hu & Eu).
  destruct (np_uniqueQ_has y l Hy) as (v & Hv & Ev).
  assert (Huv : u <> v).
  { intros ->. apply Hne. rewrite <- Eu, <- Ev. reflexivity. }
  destruct (np_uniqueQ l) as [| a [| b r]].
  - destruct Hu.
  - destruct Hu as [Hu | []], Hv as [Hv | []]. congruence.
  - simpl. lia.
Qed.

Lemma all_equal_or_not (l : list Q) :
  (forall x y, In x l -> In y l -> x == y) \/
  (exists x y, In x l /\ In y l /\ ~ x == y).
Proof.
  induction l as [| x t IH].
  - left. intros ? ? [].
  - destruct IH as [IH | (a & b & Ha & Hb & Hab)].
    + destruct t as [| z t'].
      * left. intros a b [<- | []] [<- | []]. reflexivity.
      * destruct (Qeq_dec x z) as [E | N].
        -- left. intros a b Ha Hb.
           assert (Hz : forall c, In c (x :: z :: t') -> c == z).
           { intros c [<- | Hc]; [exact E | apply IH; simpl; auto]. }
           rewrite (Hz a Ha), (Hz b Hb). reflexivity.
        -- right. exists x, z. simpl. auto.
    + right. exists a, b. simpl. auto.
Qed.

Lemma np_uniqueQ_count (l : list Q) :
  (1 <? length (np_uniqueQ l))%nat = true <->
  exists x y, In x l /\ In y l /\ ~ x == y.
Proof.
  rewrite Nat.ltb_lt. split.
  - intros Hlen. destruct (all_equal_or_not l) as [H | H]; [| exact H].
    apply np_uniqueQ_all_equal in H. lia.
  - intros (x & y & Hx & Hy & Hne).
    exact (np_uniqueQ_two_distinct l x y Hx Hy Hne).
Qed.

End Repeated_points.

Section Check_repeated_points.

Open Scope Q_scope.

Lemma nth_error_seq_eq (n start i k : nat) :
  nth_error (seq start n) i = Some k -> k = (start + i)%nat /\ (i < n)%nat.
Proof.
  revert start i. induction n as [| n IH]; intros start [| i]; simpl;
    try discriminate.
  - intros H. injection H as <-. lia.
  - intros H. apply IH in H. lia.
Qed.

Lemma nth_error_seq_lt (n i : nat) :
  (i < n)%nat -> nth_error (seq 0 n) i = Some i.
Proof.
  intros H. rewrite nth_error_nth' with (d := 0%nat).
  - rewrite seq_nth; auto.
  - rewrite length_seq. exact H.
Qed.

(** The values selected by [vals[indices == i]]. *)
Lemma group_In (vals angles : list Q) (i : nat) (x : Q) :
  length vals = length angles ->
  In x (mask_select
          (map (Nat.eqb i) (np_unique_inverse (map np_round angles))) vals)
  <-> exists j aj,
        nth_error angles j = Some aj /\ nth_error vals j = Some x /\
        position (np_round aj) (np_unique (map np_round angles)) = i.
Proof.
  intros Hlen. rewrite mask_select_In.
  2:{ unfold np_unique_inverse. rewrite !length_map. auto. }
  unfold np_unique_inverse. split.
  - intros (j & Hm & Hv). exists j.
    rewrite !nth_error_map in Hm.
    destruct (nth_error angles j) as [aj |]; simpl in Hm; [| discriminate].
    exists aj. injection Hm as Hm. apply Nat.eqb_eq in Hm. auto.
  - intros (j & aj & Ha & Hv & Hp). exists j. split; [| exact Hv].
    rewrite !nth_error_map, Ha. simpl. rewrite Hp, Nat.eqb_refl. reflexivity.
Qed.

(** The entry [i] of [repeated_vals] says whether two samples of the group
    of [unique_angles[i]] have different gains. *)
Lemma repeated_at (vals angles : list Q) (i : nat) (a : Z) :
  length vals = length angles ->
  nth_error (np_unique (map np_round angles)) i = Some a ->
  (1 <? length (np_uniqueQ
         (mask_select
            (map (Nat.eqb i) (np_unique_inverse (map np_round angles)))
            vals)))%nat = true ->
  differing_gains_at vals angles a.
Proof.
  intros Hlen Hi H. apply np_uniqueQ_count in H.
  destruct H as (x & y & Hx & Hy & Hne).
  apply group_In in Hx; [| exact Hlen]. apply group_In in Hy; [| exact Hlen].
  destruct Hx as (j1 & a1 & Ha1 & Hv1 & Hp1).
  destruct Hy as (j2 & a2 & Ha2 & Hv2 & Hp2).
  assert (Hr : forall j aj, nth_error angles j = Some aj ->
                 position (np_round aj) (np_unique (map np_round angles)) = i ->
                 np_round aj = a).
  { intros j aj Haj Hp.
    assert (Hin : In (np_round aj) (np_unique (map np_round angles))).
    { apply np_unique_In, in_map, (nth_error_In _ j). exact Haj. }
    apply position_nth in Hin. rewrite Hp in Hin. congruence. }
  exists j1, j2, a1, a2, x, y. repeat split; eauto.
Qed.

Lemma differing_repeated (vals angles : list Q) (a : Z) :
  length vals = length angles ->
  differing_gains_at vals angles a ->
  exists i,
    nth_error (np_unique (map np_round angles)) i = Some a /\
    (1 <? length (np_uniqueQ
           (mask_select
              (map (Nat.eqb i) (np_unique_inverse (map np_round angles)))
              vals)))%nat = true.
Proof.
  intros Hlen (j1 & j2 & a1 & a2 & x & y & H1 & H2 & R1 & R2 & V1 & V2 & Hne).
  exists (position a (np_unique (map np_round angles))).
  assert (Hin : In a (np_unique (map np_round angles))).
  { apply np_unique_In. rewrite <- R1.
    apply in_map, (nth_error_In _ j1). exact H1. }
  split; [apply position_nth; exact Hin |].
  apply np_uniqueQ_count. exists x, y.
  repeat split; [| | exact Hne]; apply group_In; auto.
  - exists j1, a1. rewrite R1. auto.
  - exists j2, a2. rewrite R2. auto.
Qed.

Lemma check_repeated_points_cases (vals angles : list Q) (s : string) :
  length vals = length angles ->
  (exists a, check_repeated_points vals angles s
               = raise (ValueError (RepeatedAngles s a)) /\
             differing_gains_at vals angles a) \/
  (check_repeated_points vals angles s = ret tt /\
   forall a, ~ differing_gains_at vals angles a).
Proof.
  intros Hlen. unfold check_repeated_points.
  rewrite Hlen, Nat.eqb_refl, andb_false_r.
  set (U := np_unique (map np_round angles)).
  set (g := fun i : nat => _).
  destruct (existsb (fun b : bool => b) (map g (seq 0 (length U)))) eqn:Ex.
  - left. apply existsb_exists in Ex. destruct Ex as (b & Hb & ->).
    apply in_map_iff in Hb. destruct Hb as (i & Hg & Hi).
    apply in_seq in Hi.
    destruct (nth_error U i) as [u |] eqn:Hu.
    2:{ apply nth_error_None in Hu. lia. }
    assert (Hsel : In u (mask_select (map g (seq 0 (length U))) U)).
    { apply mask_select_In; [rewrite length_map, length_seq; reflexivity |].
      exists i. split; [| exact Hu].
      rewrite nth_error_map, nth_error_seq_lt by lia. simpl. congruence. }
    destruct (mask_select (map g (seq 0 (length U))) U) as [| a0 rest] eqn:Hms;
      [destruct Hsel |].
    exists a0. split; [reflexivity |].
    assert (Ha0 : In a0 (mask_select (map g (seq 0 (length U))) U))
      by (rewrite Hms; simpl; auto).
    apply mask_select_In in Ha0;
      [| rewrite length_map, length_seq; reflexivity].
    destruct Ha0 as (i0 & Hm0 & Hu0).
    rewrite nth_error_map in Hm0.
    destruct (nth_error (seq 0 (length U)) i0) as [k |] eqn:Hk;
      simpl in Hm0; [| discriminate].
    apply nth_error_seq_eq in Hk. destruct Hk as [-> _]. simpl in Hm0.
    injection Hm0 as Hm0.
    eapply repeated_at; eauto.
  - right. split; [reflexivity |]. intros a Hd.
    apply differing_repeated in Hd; [| exact Hlen].
    destruct Hd as (i & Hi & Hg).
    assert (Hex : existsb (fun b : bool => b) (map g (seq 0 (length U))) = true).
    { apply existsb_exists. exists true. split; [| reflexivity].
      apply in_map_iff. exists i. split; [exact Hg |].
      apply in_seq. split; [lia |]. simpl.
      apply nth_error_Some. unfold U. rewrite Hi. discriminate. }
    congruence.
Qed.

(** Samples at 10.0 and 10.4 degrees fall in the group of 10 degrees. *)
Lemma check_repeated_points_close_angles (g1 g2 : Q) (s : string) :
  (~ g1 == g2 ->
   check_repeated_points [g1; g2] [10.0; 10.4] s
     = raise (ValueError (RepeatedAngles s 10))) /\
  (g1 == g2 -> check_repeated_points [g1; g2] [10.0; 10.4] s = ret tt).
Proof.
  destruct (check_repeated_points_cases [g1; g2] [10.0; 10.4] s eq_refl)
    as [(b & Hb & Hdb) | (Hb & Hnb)]; rewrite Hb; split.
  - intros _.
    destruct Hdb as (i & j & ai & aj & x & y & Hi & _ & Ri & _).
    destruct i as [| [| i]]; simpl in Hi;
      try (injection Hi as <-; rewrite <- Ri; reflexivity).
    destruct i; discriminate.
  - intros Heq. exfalso.
    destruct Hdb as (i & j & ai & aj & x & y & _ & _ & _ & _ & Vi & Vj & N).
    apply N.
    assert (Hg : forall k v, nth_error [g1; g2] k = Some v -> v == g1).
    { intros [| [| [| k]]] v Hv; simpl in Hv; try discriminate;
        injection Hv as <-; [reflexivity | symmetry; exact Heq]. }
    rewrite (Hg i x Vi), (Hg j y Vj). reflexivity.
  - intros Hne. exfalso. apply (Hnb 10%Z).
    exists 0%nat, 1%nat, 10.0, 10.4, g1, g2. repeat split; auto.
  - reflexivity.
Qed.

End Check_repeated_points.

(** C8: for a slice whose gains and angles have the same length, the check
    raises 'Repeated angles with unequal values' exactly when two samples
    whose angles round to the same whole degree carry different gains, the
    reported angle being such a degree; otherwise it returns.  Two samples at
    10.0 and 10.4 degrees are refused when their gains differ and accepted
    when they are equal. *)
Theorem C8_check_repeated_points (vals angles : list Q) (s : string) :
  length vals = length angles ->
  ((exists a, check_repeated_points vals angles s
                = raise (ValueError (RepeatedAngles s a)))
   <-> (exists a, differing_gains_at vals angles a)) /\
  (check_repeated_points vals angles s = ret tt
   <-> ~ (exists a, differing_gains_at vals angles a)) /\
  (forall a, check_repeated_points vals angles s
               = raise (ValueError (RepeatedAngles s a)) ->
             differing_gains_at vals angles a) /\
  (forall g1 g2 : Q,
      (~ g1 == g2 ->
       check_repeated_points [g1; g2] [10.0; 10.4] s
         = raise (ValueError (RepeatedAngles s 10)))%Q /\
      (g1 == g2 -> check_repeated_points [g1; g2] [10.0; 10.4] s = ret tt)%Q).
Proof.
  intros Hlen.
  split; [| split; [| split]];
    [| | | intros g1 g2; apply check_repeated_points_close_angles].
  all: destruct (check_repeated_points_cases vals angles s Hlen)
    as [(a & Hr & Hd) | (Hr & Hn)]; rewrite Hr.
  - split; intros _; exists a; [exact Hd | reflexivity].
  - split; [intros [b Hb]; discriminate |].
    intros [b Hb]. exfalso. exact (Hn b Hb).
  - split; [discriminate |]. intros Hno. exfalso. apply Hno. eauto.
  - split; [intros _ [b Hb]; exact (Hn b Hb) | reflexivity].
  - intros b Hb. injection Hb as <-. exact Hd.
  - discriminate.
Qed.

(** Gains -3 and -5 at 10.0 and 10.4 degrees. *)
Lemma C8_check_repeated_points_witness :
  exists a, check_repeated_points [-3; -5]%Q [10.0; 10.4]%Q "el"
              = raise (ValueError (RepeatedAngles "el" a)).
Proof.
  apply (C8_check_repeated_points [-3; -5]%Q [10.0; 10.4]%Q "el" eq_refl).
  exists 10%Z, 0%nat, 1%nat, 10.0%Q, 10.4%Q, (-3)%Q, (-5)%Q.
  repeat split; try reflexivity. intros H. discriminate H.
Defined.

(** ** Mesh construction *)

Section Preprocess.

Open Scope Q_scope.

Lemma skipn_nth_error {A} (a : list A) :
  forall s x, nth_error a s = Some x -> skipn s a = x :: skipn (S s) a.
Proof.
  induction a as [| y t IH]; intros [| s] x H; simpl in *; try discriminate.
  - congruence.
  - apply IH. exact H.
Qed.

Lemma int_index_seq {A} (a : list A) (n : nat) :
  forall s,
    int_index a (seq s n) =
    if ((s + n <=? length a) || (n =? 0))%nat
    then ret (firstn n (skipn s a)) else raise IndexError.
Proof.
  induction n as [| n IH]; intros s; cbn [seq int_index Nat.eqb].
  - rewrite orb_true_r. reflexivity.
  - rewrite orb_false_r. unfold index.
    destruct (nth_error a s) as [x |] eqn:Hx.
    + rewrite bind_ret, IH.
      assert (Hs : (s < length a)%nat)
        by (apply nth_error_Some; congruence).
      rewrite (skipn_nth_error a s x Hx).
      destruct (S s + n <=? length a)%nat eqn:E1.
      * cbn [orb]. rewrite bind_ret.
        replace (s + S n <=? length a)%nat with true
          by (symmetry; apply Nat.leb_le; apply Nat.leb_le in E1; lia).
        reflexivity.
      * destruct (n =? 0)%nat eqn:E2.
        -- apply Nat.eqb_eq in E2. apply Nat.leb_gt in E1. lia.
        -- cbn [orb].
           replace (s + S n <=? length a)%nat with false
             by (symmetry; apply Nat.leb_gt; apply Nat.leb_gt in E1; lia).
           reflexivity.
    + apply nth_error_None in Hx.
      replace (s + S n <=? length a)%nat with false
        by (symmetry; apply Nat.leb_gt; lia).
      reflexivity.
Qed.

Lemma int_index_arange {A} (a : list A) :
  int_index a (seq 0 (length a)) = ret a.
Proof.
  rewrite int_index_seq. simpl. rewrite Nat.leb_refl. simpl.
  rewrite firstn_all. reflexivity.
Qed.

Lemma length_normalize (m : Q) (l : list Q) : length (normalize m l) = length l.
Proof. apply length_map. Qed.

Lemma preprocess_data_ok (vn theta hn phi : list Q) (method : string) :
  is_known_method method = true ->
  length vn = length theta ->
  length hn = length phi ->
  preprocess_data vn theta hn phi method =
  ret (fst (meshgrid (mask_select (idx_theta theta) vn) hn),
       mask_select (idx_theta theta) theta,
       snd (meshgrid (mask_select (idx_theta theta) vn) hn),
       phi).
Proof.
  intros Hm Hv Hh. unfold preprocess_data, bool_index, idx_theta.
  rewrite Hm, map_map, !length_map, Hv, Nat.eqb_refl. cbv iota.
  rewrite bind_ret, int_index_arange, !bind_ret.
  rewrite <- Hh, int_index_arange, bind_ret. reflexivity.
Qed.

Lemma length_mask_select {A} (mask : list bool) :
  forall (a : list A) (b : list Q),
    length a = length b ->
    length (mask_select mask a) = length (mask_select mask b).
Proof.
  induction mask as [| c mask IH]; intros [| x a] [| y b] H; simpl in *;
    try discriminate; try reflexivity.
  injection H as H. destruct c; simpl; auto.
Qed.

Lemma mask_select_filter (f : Q -> bool) (l : list Q) :
  mask_select (map f l) l = filter f l.
Proof.
  induction l as [| x t IH]; simpl; [reflexivity |].
  destruct (f x); rewrite IH; reflexivity.
Qed.

Lemma has_shape_meshgrid {A} (x y : list A) :
  has_shape (fst (meshgrid x y)) (length y) (length x) /\
  has_shape (snd (meshgrid x y)) (length y) (length x).
Proof.
  unfold has_shape, meshgrid. simpl. rewrite !length_map.
  repeat split; apply Forall_map, Forall_forall; intros; simpl;
    rewrite ?length_map; reflexivity.
Qed.

Lemma meshgrid_nth {A} (x y : list A) (i j : nat) :
  (i < length y)%nat ->
  grid_nth (fst (meshgrid x y)) i j = nth_error x j /\
  (j < length x -> grid_nth (snd (meshgrid x y)) i j = nth_error y i)%nat.
Proof.
  intros Hi. unfold grid_nth, meshgrid. simpl. rewrite !nth_error_map.
  destruct (nth_error y i) as [yi |] eqn:E.
  2:{ apply nth_error_None in E. lia. }
  simpl. split; [reflexivity |]. intros Hj. rewrite nth_error_map.
  destruct (nth_error x j) eqn:F; [reflexivity |].
  apply nth_error_None in F. lia.
Qed.

Lemma has_shape_grid_map {A B} (f : A -> B) (g : grid A) (r c : nat) :
  has_shape g r c -> has_shape (grid_map f g) r c.
Proof.
  unfold has_shape, grid_map. intros [H1 H2]. rewrite length_map.
  split; [exact H1 |]. apply Forall_map. eapply Forall_impl; [| exact H2].
  simpl. intros row Hrow. rewrite length_map. exact Hrow.
Qed.

Lemma length_zip_with {A B C} (f : A -> B -> C) (a : list A) :
  forall b, length a = length b -> length (zip_with f a b) = length a.
Proof.
  induction a as [| x a IH]; intros [| y b] H; simpl in *; try discriminate;
    auto.
Qed.

Lemma has_shape_grid_zip {A B C} (f : A -> B -> C) (a : grid A) :
  forall (b : grid B) (r c : nat),
    has_shape a r c -> has_shape b r c -> has_shape (grid_zip f a b) r c.
Proof.
  unfold has_shape, grid_zip.
  induction a as [| x a IH]; intros [| y b] r c [Ha Fa] [Hb Fb];
    simpl in *; subst; try discriminate.
  - split; [reflexivity | constructor].
  - inversion Fa; subst. inversion Fb; subst. injection Hb as Hb.
    destruct (IH b (length a) (length x)) as [L F]; [split; auto .. |].
    split; [simpl; congruence |].
    constructor; [| exact F]. apply length_zip_with. congruence.
Qed.

Lemma nth_error_zip_with {A B C} (f : A -> B -> C) (a : list A) :
  forall (b : list B) (i : nat) (x : A) (y : B),
    nth_error a i = Some x -> nth_error b i = Some y ->
    nth_error (zip_with f a b) i = Some (f x y).
Proof.
  induction a as [| x0 a IH]; intros [| y0 b] [| i] x y Hx Hy; simpl in *;
    try discriminate.
  - congruence.
  - eauto.
Qed.

Lemma grid_nth_zip {A B C} (f : A -> B -> C) (a : grid A) (b : grid B)
      (i j : nat) (x : A) (y : B) :
  grid_nth a i j = Some x -> grid_nth b i j = Some y ->
  grid_nth (grid_zip f a b) i j = Some (f x y).
Proof.
  unfold grid_nth, grid_zip. intros Ha Hb.
  destruct (nth_error a i) as [ra |] eqn:Ea; [| discriminate].
  destruct (nth_error b i) as [rb |] eqn:Eb; [| discriminate].
  rewrite (nth_error_zip_with (zip_with f) a b i ra rb Ea Eb).
  apply nth_error_zip_with; assumption.
Qed.

End Preprocess.

(** ** The pipeline *)

Section Pipeline.

Open Scope Q_scope.

Lemma materialize_horiz_returns vert horiz phi ws hs :
  materialize_horiz vert horiz phi = (ws, inr hs) ->
  ws = [] /\ length hs = length phi.
Proof.
  destruct horiz as [| g | g]; simpl.
  - intros H. apply bind_returns in H.
    destruct H as (ws1 & m & ws2 & Hm & H & ->).
    apply np_max_returns in Hm. destruct Hm as (-> & _).
    inversion H; subst. rewrite length_map. auto.
  - intros H. inversion H; subst. rewrite length_map. auto.
  - destruct (length g =? length phi)%nat eqn:E; simpl; [| discriminate].
    intros H. inversion H; subst. apply Nat.eqb_eq in E. auto.
Qed.

Lemma check_repeated_points_returns vals angles s ws u :
  length vals = length angles ->
  check_repeated_points vals angles s = (ws, inr u) -> ws = [] /\ u = tt.
Proof.
  intros Hlen H.
  destruct (check_repeated_points_cases vals angles s Hlen)
    as [(a & Hr & _) | (Hr & _)]; rewrite Hr in H.
  - discriminate.
  - inversion H; auto.
Qed.

(** What a call that returns has gone through. *)
Lemma pattern_from_slices_returns
      vert theta horiz phi method k t1 t2 t3 ws pat theta_out phi_out :
  pattern_from_slices vert theta horiz phi method k t1 t2 t3
    = (ws, inr (pat, theta_out, phi_out)) ->
  exists hs m,
    length vert = length theta /\
    materialize_horiz vert horiz (phi_used phi) = ret hs /\
    length hs = length (phi_used phi) /\
    check_repeated_points vert theta "el" = ret tt /\
    check_repeated_points hs (phi_used phi) "az" = ret tt /\
    check_reconstruction_requirements vert theta hs (phi_used phi) t1 t2 t3
      = (ws, inr tt) /\
    max_directivity vert hs = ret m /\
    theta_out = mask_select (idx_theta theta) theta /\
    phi_out = phi_used phi /\
    let vert_sub := mask_select (idx_theta theta) (normalize m vert) in
    let V := fst (meshgrid vert_sub (normalize m hs)) in
    let H := snd (meshgrid vert_sub (normalize m hs)) in
    (method = "Summing"%string /\ pat = denormalize m (PatQ (summing V H)) \/
     method = "CrossWeighted"%string /\
     pat = denormalize m (PatR (cross_weighted k V H))).
Proof.
  unfold pattern_from_slices. intros H.
  destruct (length vert =? length theta)%nat eqn:Hlen; simpl in H;
    [| discriminate].
  apply Nat.eqb_eq in Hlen.
  apply bind_returns in H. destruct H as (w1 & hs & w1' & Hh & H & ->).
  destruct (materialize_horiz_returns _ _ _ _ _ Hh) as [-> Hhs].
  apply bind_returns in H. destruct H as (w2 & [] & w2' & Hc1 & H & ->).
  destruct (check_repeated_points_returns _ _ _ _ _ Hlen Hc1) as [-> _].
  apply bind_returns in H. destruct H as (w3 & [] & w3' & Hc2 & H & ->).
  destruct (check_repeated_points_returns _ _ _ _ _ Hhs Hc2) as [-> _].
  apply bind_returns in H. destruct H as (w4 & [] & w4' & Hc3 & H & ->).
  apply bind_returns in H. destruct H as (w5 & m & w5' & Hm & H & ->).
  destruct (max_directivity_returns _ _ _ _ Hm) as (-> & _).
  apply bind_returns in H.
  destruct H as (w6 & [[pat0 th0] ph0] & w6' & Hr & H & ->).
  inversion H; subst; clear H.
  exists hs, m.
  assert (Hpre : forall meth, is_known_method meth = true ->
            preprocess_data (normalize m vert) theta (normalize m hs)
              (phi_used phi) meth
            = ret (fst (meshgrid (mask_select (idx_theta theta)
                                    (normalize m vert)) (normalize m hs)),
                   mask_select (idx_theta theta) theta,
                   snd (meshgrid (mask_select (idx_theta theta)
                                    (normalize m vert)) (normalize m hs)),
                   phi_used phi)).
  { intros meth Hk. apply preprocess_data_ok; auto;
      rewrite length_normalize; auto. }
  destruct (String.eqb method "Summing") eqn:E1.
  - apply String.eqb_eq in E1. subst method.
    rewrite (Hpre "Summing"%string eq_refl), bind_ret in Hr.
    inversion Hr; subst. simpl. rewrite app_nil_r.
    repeat (split; [auto; fail |]). left. auto.
  - destruct (String.eqb method "CrossWeighted") eqn:E2; [| discriminate].
    apply String.eqb_eq in E2. subst method.
    rewrite (Hpre "CrossWeighted"%string eq_refl), bind_ret in Hr.
    inversion Hr; subst. simpl. rewrite app_nil_r.
    repeat (split; [auto; fail |]). right. auto.
Qed.

End Pipeline.

(** ** Shape of the grids and the returned angle series *)

Section Angles.

Open Scope Q_scope.

Lemma np_mod_range (x m : Q) : 0 < m -> 0 <= np_mod x m /\ np_mod x m < m.
Proof.
  intros Hm. unfold np_mod.
  pose proof (Qfloor_le (x / m)) as Hle.
  pose proof (Qlt_floor (x / m)) as Hlt.
  rewrite inject_Z_plus in Hlt.
  assert (E : x == m * (x / m)) by (field; lra).
  revert Hle Hlt E. generalize (inject_Z (Qfloor (x / m))) as f.
  generalize (x / m) as y. intros y f Hle Hlt E.
  change (inject_Z 1) with 1 in Hlt. split; nra.
Qed.

End Angles.

(** C1 (as the claim states it): on the scenario, with five samples of theta
    and four of phi, the grids and the returned pattern have four rows of
    five entries, not five rows of four, and the vertical grid varies along
    a row, where the claim has it constant. *)
Lemma C1_rows_follow_phi_not_theta :
  exists V H pat,
    preprocess_data Scenario.vert_gain Scenario.theta Scenario.horiz_gain
      Scenario.phi "Summing" = ret (V, Scenario.theta, H, Scenario.phi) /\
    Scenario.run = ([], inr (PatQ pat, Scenario.theta, Scenario.phi)) /\
    ~ has_shape V (length Scenario.theta) (length Scenario.phi) /\
    ~ has_shape H (length Scenario.theta) (length Scenario.phi) /\
    ~ has_shape pat (length Scenario.theta) (length Scenario.phi) /\
    grid_nth V 0 0 = Some (-20)%Q /\ grid_nth V 0 1 = Some (-6)%Q.
Proof.
  eexists; eexists; eexists.
  split; [vm_compute; reflexivity |].
  split; [vm_compute; reflexivity |].
  repeat split; try reflexivity; intros [Hrows _]; discriminate Hrows.
Qed.

(** C1 (amended): whenever the call returns, the two grids built by
    [preprocess_data] and the returned pattern have one row per element of
    [phi_out] and one column per element of [theta_out]; the entry of the
    vertical grid in row [i] and column [j] is the [j]-th normalised gain
    of the theta subset, that of the horizontal grid is the [i]-th
    normalised horizontal gain. *)
Theorem C1_grids_phi_by_theta
        vert theta horiz phi method k t1 t2 t3 ws pat theta_out phi_out :
  pattern_from_slices vert theta horiz phi method k t1 t2 t3
    = (ws, inr (pat, theta_out, phi_out)) ->
  exists m hs V H,
    max_directivity vert hs = ret m /\
    materialize_horiz vert horiz phi_out = ret hs /\
    preprocess_data (normalize m vert) theta (normalize m hs) phi_out method
      = ret (V, theta_out, H, phi_out) /\
    has_shape V (length phi_out) (length theta_out) /\
    has_shape H (length phi_out) (length theta_out) /\
    pat_has_shape pat (length phi_out) (length theta_out) /\
    forall i j,
      (i < length phi_out)%nat -> (j < length theta_out)%nat ->
      grid_nth V i j
        = nth_error (mask_select (idx_theta theta) (normalize m vert)) j /\
      grid_nth H i j = nth_error (normalize m hs) i.
Proof.
  intros Hrun. apply pattern_from_slices_returns in Hrun.
  destruct Hrun as (hs & m & Hlen & Hh & Hhs & _ & _ & _ & Hm & -> & -> & Hp).
  set (vsub := mask_select (idx_theta theta) (normalize m vert)) in *.
  set (V := fst (meshgrid vsub (normalize m hs))) in *.
  set (H := snd (meshgrid vsub (normalize m hs))) in *.
  assert (Lv : length vsub = length (mask_select (idx_theta theta) theta)).
  { apply length_mask_select. rewrite length_normalize. exact Hlen. }
  assert (Lh : length (normalize m hs) = length (phi_used phi)).
  { rewrite length_normalize. exact Hhs. }
  destruct (has_shape_meshgrid vsub (normalize m hs)) as [SV SH].
  fold V in SV. fold H in SH. rewrite Lv, Lh in SV, SH.
  exists m, hs, V, H.
  split; [exact Hm |]. split; [exact Hh |]. split.
  { assert (Hk : is_known_method method = true)
      by (destruct Hp as [[-> _] | [-> _]]; reflexivity).
    rewrite preprocess_data_ok; auto. rewrite length_normalize. exact Hlen. }
  split; [exact SV |]. split; [exact SH |]. split.
  - destruct Hp as [[_ ->] | [_ ->]]; simpl;
      apply has_shape_grid_map, has_shape_grid_zip; assumption.
  - intros i j Hi Hj. rewrite <- Lh in Hi. rewrite <- Lv in Hj.
    destruct (meshgrid_nth vsub (normalize m hs) i j Hi) as [E1 E2].
    split; [exact E1 | exact (E2 Hj)].
Qed.

Lemma C1_grids_phi_by_theta_witness :
  exists m hs V H,
    max_directivity Scenario.vert_gain hs = ret m /\
    materialize_horiz Scenario.vert_gain (HorizVector Scenario.horiz_gain)
      Scenario.phi = ret hs /\
    preprocess_data (normalize m Scenario.vert_gain) Scenario.theta
      (normalize m hs) Scenario.phi "Summing"
      = ret (V, Scenario.theta, H, Scenario.phi) /\
    has_shape V 4 5 /\ has_shape H 4 5.
Proof.
  destruct (C1_grids_phi_by_theta
              Scenario.vert_gain Scenario.theta
              (HorizVector Scenario.horiz_gain) (Some Scenario.phi)
              "Summing" default_cross_weighted_normalization
              default_tol_nearest_angle_from_boresight
              default_tol_gain_max_vs_boresight
              default_tol_gain_diff_at_slice_intersect
              [] (PatQ (Scenario.outer_sum Scenario.vert_gain
                          Scenario.horiz_gain))
              Scenario.theta Scenario.phi)
    as (m & hs & V & H & H1 & H2 & H3 & H4 & H5 & _).
  - vm_compute. reflexivity.
  - exists m, hs, V, H. auto.
Defined.

(** C3 (as the claim states it): the valid input theta = [90, 370],
    phi = [0, 365] gets its angles back as they were given: 370 is not in
    [0, 180] and 365 is not in [0, 360). *)
Lemma C3_angles_returned_unwrapped :
  exists pat,
    pattern_from_slices [0; -5] [90; 370] (HorizVector [0; -3])
      (Some [0; 365]) "Summing" default_cross_weighted_normalization
      default_tol_nearest_angle_from_boresight
      default_tol_gain_max_vs_boresight
      default_tol_gain_diff_at_slice_intersect
    = ([], inr (pat, [90; 370], [0; 365]))%Q /\
    ~ Forall (fun t => 0 <= t /\ t <= 180)%Q [90; 370]%Q /\
    ~ Forall (fun p => 0 <= p /\ p < 360)%Q [0; 365]%Q.
Proof.
  eexists. split; [vm_compute; reflexivity |].
  split; intros H; inversion H as [| ? ? _ H1]; subst;
    inversion H1 as [| ? ? [_ H2] _]; subst; revert H2;
    vm_compute; intros H2; first [discriminate H2 | apply H2; reflexivity].
Qed.

(** C3 (amended): whenever the call returns, [theta_out] is the input theta
    restricted, in order and with the values as given, to the samples whose
    value wrapped into [0, 360) is at most 180, so that every element of
    [theta_out] wraps into [0, 180]; [phi_out] is the phi series the call
    ran on, as given. *)
Theorem C3_angle_series_out
        vert theta horiz phi method k t1 t2 t3 ws pat theta_out phi_out :
  pattern_from_slices vert theta horiz phi method k t1 t2 t3
    = (ws, inr (pat, theta_out, phi_out)) ->
  theta_out = filter (fun t => Qle_bool (np_mod t 360) 180) theta /\
  Forall (fun t => 0 <= np_mod t 360 /\ np_mod t 360 <= 180)%Q theta_out /\
  phi_out = phi_used phi.
Proof.
  intros Hrun. apply pattern_from_slices_returns in Hrun.
  destruct Hrun as (hs & m & _ & _ & _ & _ & _ & _ & _ & -> & -> & _).
  unfold idx_theta. rewrite mask_select_filter.
  split; [reflexivity |]. split; [| reflexivity].
  apply Forall_forall. intros t Ht. apply filter_In in Ht.
  destruct Ht as [_ Ht]. apply Qle_bool_iff in Ht.
  split; [| exact Ht]. apply np_mod_range. reflexivity.
Qed.

Lemma C3_angle_series_out_witness :
  [90; 370]%Q = filter (fun t => Qle_bool (np_mod t 360) 180) [90; 370]%Q /\
  [0; 365]%Q = phi_used (Some [0; 365]%Q).
Proof.
  destruct (C3_angle_series_out
              [0; -5]%Q [90; 370]%Q (HorizVector [0; -3]%Q)
              (Some [0; 365]%Q) "Summing"
              default_cross_weighted_normalization
              default_tol_nearest_angle_from_boresight
              default_tol_gain_max_vs_boresight
              default_tol_gain_diff_at_slice_intersect
              [] (PatQ [[0; -5]; [-3; -8]]%Q) [90; 370]%Q [0; 365]%Q)
    as (H1 & _ & H2).
  - vm_compute. reflexivity.
  - split; [exact H1 | exact H2].
Defined.

(** ** Agreement of the two slices at their intersection *)

Section Intersection.

Open Scope Q_scope.

Lemma bind_value {A B} (ws : list warning) (a : A) (k : A -> M B) :
  bind (ws, inr a) k = (ws ++ fst (k a), snd (k a)).
Proof. unfold bind. destruct (k a). reflexivity. Qed.

(** Once the boresight checks have passed, the outcome is decided by the
    last two comparisons. *)
Lemma check_reconstruction_requirements_tail
      vert theta horiz phi t1 t2 t3 vert_bs horiz_bs :
  passes_boresight_checks vert theta horiz phi t1 t2 vert_bs horiz_bs ->
  check_reconstruction_requirements vert theta horiz phi t1 t2 t3 =
  if Qlt_bool (snd t3) (Qabs (vert_bs - horiz_bs)) then
    raise (ValueError GainDiffAtIntersection)
  else if Qlt_bool (fst t3) (Qabs (vert_bs - horiz_bs)) then
    warn GainDiffSignificant
  else ret tt.
Proof.
  intros (mt & mp & vmax & hmax & Hmt & Hmp & Lt & Lp & Hv & Hvb & Lv
          & Hh & Hhb & Lh).
  unfold check_reconstruction_requirements.
  rewrite Hmt, bind_ret, Hmp, bind_ret.
  apply Qlt_bool_false in Lt, Lp, Lv, Lh. rewrite Lt, Lp.
  rewrite Hv, bind_ret, Hvb, bind_ret, Lv.
  rewrite Hh, bind_ret, Hhb, bind_ret, Lh. reflexivity.
Qed.

(** A call that has passed every check runs to completion, with the
    warnings of the checks. *)
Lemma pattern_from_slices_completes
      vert theta horiz phi method k t1 t2 t3 hs vert_bs horiz_bs ws :
  reaches_intersection_check vert theta horiz phi t1 t2 hs vert_bs horiz_bs ->
  check_reconstruction_requirements vert theta hs (phi_used phi) t1 t2 t3
    = (ws, inr tt) ->
  is_known_method method = true ->
  exists r, pattern_from_slices vert theta horiz phi method k t1 t2 t3
            = (ws, inr r).
Proof.
  intros (Hlen & Hh & Hc1 & Hc2 & Hpass) Hc3 Hk.
  destruct Hpass as (mt & mp & vmax & hmax & _ & _ & _ & _ & Hv & _ & _
                     & Hm & _).
  assert (Hhs : length hs = length (phi_used phi)).
  { apply (materialize_horiz_returns vert horiz (phi_used phi) [] hs Hh). }
  unfold pattern_from_slices.
  rewrite Hlen, Nat.eqb_refl. cbn [negb].
  rewrite Hh, bind_ret, Hc1, bind_ret, Hc2, bind_ret, Hc3, bind_value.
  unfold max_directivity. rewrite Hv, bind_ret, Hm, !bind_ret.
  assert (Hpre : preprocess_data (normalize (py_max vmax hmax) vert) theta
                   (normalize (py_max vmax hmax) hs) (phi_used phi) method
                 = ret (fst (meshgrid
                               (mask_select (idx_theta theta)
                                  (normalize (py_max vmax hmax) vert))
                               (normalize (py_max vmax hmax) hs)),
                        mask_select (idx_theta theta) theta,
                        snd (meshgrid
                               (mask_select (idx_theta theta)
                                  (normalize (py_max vmax hmax) vert))
                               (normalize (py_max vmax hmax) hs)),
                        phi_used phi)).
  { apply preprocess_data_ok; auto; rewrite length_normalize; auto. }
  unfold is_known_method in Hk.
  destruct (String.eqb method "Summing") eqn:E1.
  - rewrite Hpre, !bind_ret. cbn [fst snd]. rewrite app_nil_r.
    eexists. reflexivity.
  - simpl in Hk. rewrite Hk, Hpre, !bind_ret. cbn [fst snd].
    rewrite app_nil_r. eexists. reflexivity.
Qed.

End Intersection.

(** C9: for a call that gets as far as comparing the two slices at their
    intersection, with [d] the absolute difference of the gains nearest to
    boresight: the check raises 'Gain difference at slice intersection
    exceeds tolerance.' exactly when [d] exceeds the second element of the
    tolerance pair; when [d] exceeds the first element but not the second,
    the check warns and the call runs to completion with that warning; when
    [d] is within the first element, the lower of the two, nothing is raised
    and no warning is given. *)
Theorem C9_slice_intersection
        vert theta horiz phi method k t1 t2 t3 hs vert_bs horiz_bs :
  reaches_intersection_check vert theta horiz phi t1 t2 hs vert_bs horiz_bs ->
  is_known_method method = true ->
  let d := Qabs (vert_bs - horiz_bs) in
  let check :=
    check_reconstruction_requirements vert theta hs (phi_used phi) t1 t2 t3 in
  let call := pattern_from_slices vert theta horiz phi method k t1 t2 t3 in
  (check = raise (ValueError GainDiffAtIntersection) <-> (snd t3 < d)%Q) /\
  ((snd t3 < d)%Q -> call = raise (ValueError GainDiffAtIntersection)) /\
  ((fst t3 < d)%Q -> (d <= snd t3)%Q ->
   check = warn GainDiffSignificant /\
   exists r, call = ([GainDiffSignificant], inr r)) /\
  ((d <= fst t3)%Q -> (fst t3 <= snd t3)%Q ->
   check = ret tt /\ exists r, call = ([], inr r)).
Proof.
  intros Hreach Hk d check call.
  pose proof Hreach as (Hlen & Hh & Hc1 & Hc2 & Hpass).
  pose proof (check_reconstruction_requirements_tail
                vert theta hs (phi_used phi) t1 t2 t3 vert_bs horiz_bs Hpass)
    as Htail.
  fold d in Htail. fold check in Htail.
  split; [| split; [| split]].
  - rewrite Htail. split.
    + destruct (Qlt_bool (snd t3) d) eqn:E1.
      * intros _. apply Qlt_bool_iff. exact E1.
      * destruct (Qlt_bool (fst t3) d); discriminate.
    + intros Hd. apply Qlt_bool_iff in Hd. rewrite Hd. reflexivity.
  - intros Hd. apply Qlt_bool_iff in Hd. rewrite Hd in Htail.
    unfold call, pattern_from_slices.
    rewrite Hlen, Nat.eqb_refl. cbn [negb].
    rewrite Hh, bind_ret, Hc1, bind_ret, Hc2, bind_ret.
    fold check. rewrite Htail. reflexivity.
  - intros Hw He. apply Qlt_bool_iff in Hw. apply Qlt_bool_false in He.
    rewrite He, Hw in Htail. split; [exact Htail |].
    apply (pattern_from_slices_completes
             vert theta horiz phi method k t1 t2 t3 hs vert_bs horiz_bs);
      assumption.
  - intros Hw Hwe.
    assert (He : (d <= snd t3)%Q) by lra.
    apply Qlt_bool_false in Hw, He. rewrite He, Hw in Htail.
    split; [exact Htail |].
    apply (pattern_from_slices_completes
             vert theta horiz phi method k t1 t2 t3 hs vert_bs horiz_bs);
      assumption.
Qed.

(** The scenario with the horizontal slice 2 dB lower: the slices differ by
    2 dB at boresight, between the default thresholds 1 and 3. *)
Lemma C9_slice_intersection_witness :
  exists r,
    pattern_from_slices Scenario.vert_gain Scenario.theta
      (HorizVector [-2; -10; -20; -10]%Q) (Some Scenario.phi) "Summing"
      default_cross_weighted_normalization
      default_tol_nearest_angle_from_boresight
      default_tol_gain_max_vs_boresight
      default_tol_gain_diff_at_slice_intersect
    = ([GainDiffSignificant], inr r).
Proof.
  assert (Hreach :
            reaches_intersection_check Scenario.vert_gain Scenario.theta
              (HorizVector [-2; -10; -20; -10]%Q) (Some Scenario.phi)
              default_tol_nearest_angle_from_boresight
              default_tol_gain_max_vs_boresight
              [-2; -10; -20; -10]%Q 0%Q (-2)%Q).
  { repeat split; try reflexivity.
    unfold passes_boresight_checks. do 4 eexists.
    repeat split; try reflexivity; vm_compute; discriminate. }
  destruct (C9_slice_intersection
              Scenario.vert_gain Scenario.theta
              (HorizVector [-2; -10; -20; -10]%Q) (Some Scenario.phi)
              "Summing" default_cross_weighted_normalization
              default_tol_nearest_angle_from_boresight
              default_tol_gain_max_vs_boresight
              default_tol_gain_diff_at_slice_intersect
              [-2; -10; -20; -10]%Q 0%Q (-2)%Q Hreach eq_refl)
    as (_ & _ & Hwarn & _).
  destruct Hwarn as [_ Hcall].
  - vm_compute. reflexivity.
  - vm_compute. discriminate.
  - exact Hcall.
Defined.

(** ** The CrossWeighted combiner *)

Section Cross_weighted.

Open Scope R_scope.

Lemma ln_10_pos : 0 < ln 10.
Proof. rewrite <- ln_1. apply ln_increasing; lra. Qed.

(** [10 ** (x / 10)] lies in (0, 1] for [x <= 0] and is 1 only at 0. *)
Lemma lin_range (x : R) :
  x <= 0 -> 0 < np_power 10 (x / 10) <= 1.
Proof.
  intros Hx. unfold np_power, Rpower. split; [apply exp_pos |].
  pose proof ln_10_pos as L.
  destruct (Req_dec x 0) as [-> | Hne].
  - replace (0 / 10 * ln 10) with 0 by lra. rewrite exp_0. lra.
  - rewrite <- exp_0. left. apply exp_increasing. nra.
Qed.

Lemma lin_one (x : R) : np_power 10 (x / 10) = 1 <-> x = 0.
Proof.
  unfold np_power, Rpower. pose proof ln_10_pos as L. split.
  - intros H. rewrite <- exp_0 in H. apply exp_inv in H. nra.
  - intros ->. replace (0 / 10 * ln 10) with 0 by lra. apply exp_0.
Qed.

Lemma weights_nonneg (V H : R) :
  V <= 0 -> H <= 0 -> 0 <= w1 V H /\ 0 <= w2 V H.
Proof.
  intros HV HH. unfold w1, w2, vert_mesh_lin, horiz_mesh_lin.
  pose proof (lin_range V HV). pose proof (lin_range H HH). split; nra.
Qed.

Lemma weights_vanish (V H : R) :
  V <= 0 -> H <= 0 ->
  (w1 V H = 0 /\ w2 V H = 0 <-> vert_mesh_lin V = 1 /\ horiz_mesh_lin H = 1).
Proof.
  intros HV HH. unfold w1, w2, vert_mesh_lin, horiz_mesh_lin.
  pose proof (lin_range V HV). pose proof (lin_range H HH). split.
  - intros [E1 E2]. split; nra.
  - intros [-> ->]. split; lra.
Qed.

Lemma np_cbrt_pos (x : R) : 0 < x -> 0 < np_cbrt x.
Proof.
  intros Hx. unfold np_cbrt.
  destruct (total_order_T x 0) as [[Hlt | Heq] | Hgt]; try lra.
  unfold Rpower. apply exp_pos.
Qed.

Lemma np_cbrt_cube (x : R) : np_cbrt x ^ 3 = x.
Proof.
  assert (Hpos : forall y, 0 < y -> Rpower y (/ 3) ^ 3 = y).
  { intros y Hy. rewrite <- Rpower_pow by (unfold Rpower; apply exp_pos).
    rewrite Rpower_mult. replace (/ 3 * INR 3) with 1 by (simpl; lra).
    apply Rpower_1. exact Hy. }
  unfold np_cbrt.
  destruct (total_order_T x 0) as [[Hlt | Heq] | Hgt].
  - replace ((- Rpower (- x) (/ 3)) ^ 3) with (- (Rpower (- x) (/ 3) ^ 3))
      by ring.
    rewrite Hpos by lra. ring.
  - subst. ring.
  - apply Hpos. exact Hgt.
Qed.

Lemma power_sum_pos (a b : R) (k : nat) :
  0 <= a -> 0 <= b -> ~ (a = 0 /\ b = 0) -> 0 < a ^ k + b ^ k.
Proof.
  intros Ha Hb Hne.
  pose proof (pow_le a k Ha) as Pa. pose proof (pow_le b k Hb) as Pb.
  destruct (Req_dec a 0) as [Ea | Na].
  - assert (Hb' : 0 < b) by (destruct (Req_dec b 0); [tauto | lra]).
    pose proof (pow_lt b k Hb'). lra.
  - assert (Ha' : 0 < a) by lra. pose proof (pow_lt a k Ha'). lra.
Qed.

Lemma Req_bool_true (a b : R) : Req_bool a b = true <-> a = b.
Proof. unfold Req_bool. destruct (Req_EM_T a b); split; congruence. Qed.

(** The value of a cell whose two grid values are at most 0. *)
Lemma cross_weighted_cell_value (k : nat) (V H : R) :
  V <= 0 -> H <= 0 ->
  exists x,
    cross_weighted_cell k V H = Some x /\ x <= 0 /\
    (w1 V H = 0 /\ w2 V H = 0 -> x = 0) /\
    (~ (w1 V H = 0 /\ w2 V H = 0) ->
     np_cbrt (w1 V H ^ k + w2 V H ^ k) <> 0 /\
     cross_weighted_quotient k V H = Some x).
Proof.
  intros HV HH. destruct (weights_nonneg V H HV HH) as [P1 P2].
  unfold cross_weighted_cell.
  destruct (Req_bool (w1 V H) 0) eqn:B1; [destruct (Req_bool (w2 V H) 0) eqn:B2 |].
  - apply Req_bool_true in B1, B2. exists 0. simpl.
    repeat split; try lra; tauto.
  - assert (N : ~ (w1 V H = 0 /\ w2 V H = 0)).
    { intros [_ E]. apply Req_bool_true in E. congruence. }
    pose proof (np_cbrt_pos _ (power_sum_pos _ _ k P1 P2 N)) as C.
    simpl. unfold cross_weighted_quotient, np_divide.
    destruct (Req_EM_T (np_cbrt (w1 V H ^ k + w2 V H ^ k)) 0) as [E | _];
      [lra |].
    eexists. split; [reflexivity |]. repeat split; try tauto; try lra.
    pose proof (Rinv_0_lt_compat _ C) as Ci.
    assert (Hn : H * w1 V H + V * w2 V H <= 0) by nra.
    unfold Rdiv. nra.
  - assert (N : ~ (w1 V H = 0 /\ w2 V H = 0)).
    { intros [E _]. apply Req_bool_true in E. congruence. }
    pose proof (np_cbrt_pos _ (power_sum_pos _ _ k P1 P2 N)) as C.
    simpl. unfold cross_weighted_quotient, np_divide.
    destruct (Req_EM_T (np_cbrt (w1 V H ^ k + w2 V H ^ k)) 0) as [E | _];
      [lra |].
    eexists. split; [reflexivity |]. repeat split; try tauto; try lra.
    pose proof (Rinv_0_lt_compat _ C) as Ci.
    assert (Hn : H * w1 V H + V * w2 V H <= 0) by nra.
    unfold Rdiv. nra.
Qed.

Lemma Q2R_nonpos (q : Q) : (q <= 0)%Q -> Q2R q <= 0.
Proof. intros H. apply Qle_Rle in H. rewrite RMicromega.Q2R_0 in H. exact H. Qed.

Lemma grid_nth_map {A B} (f : A -> B) (g : grid A) (i j : nat) :
  grid_nth (grid_map f g) i j = option_map f (grid_nth g i j).
Proof.
  unfold grid_nth, grid_map. rewrite nth_error_map.
  destruct (nth_error g i); simpl; [apply nth_error_map | reflexivity].
Qed.

End Cross_weighted.

Section Cross_weighted_grid.

Open Scope R_scope.

Lemma np_cbrt_0 : np_cbrt 0 = 0.
Proof.
  unfold np_cbrt. destruct (total_order_T 0 0) as [[H | H] | H]; lra.
Qed.

Lemma cross_weighted_nth (k : nat) (Vg Hg : grid Q) (i j : nat) (V H : Q) :
  grid_nth Vg i j = Some V -> grid_nth Hg i j = Some H ->
  grid_nth (cross_weighted k Vg Hg) i j
    = Some (cross_weighted_cell k (Q2R V) (Q2R H)).
Proof.
  intros HV HH. unfold cross_weighted.
  exact (grid_nth_zip (fun a b => cross_weighted_cell k (Q2R a) (Q2R b))
           Vg Hg i j V H HV HH).
Qed.

End Cross_weighted_grid.



(** In exact arithmetic, at a cell whose two normalised grid values [V]
    and [H] are at most 0, the linear values [v] and [h] lie in (0, 1]; the
    weights [w1] and [w2] are both zero exactly when [v = h = 1]; at such a
    cell the quotient is 0/0 for a positive exponent and the cell is set to
    0; at every other cell the divisor [cbrt(w1^k + w2^k)] is not zero and
    the cell holds the quotient.  The program computes on doubles, where
    [w1 ** k + w2 ** k] can round to zero while the weights are not zero and
    [10 ** (V / 10)] can round to zero or to one: this lemma says nothing of
    those cells. *)
Lemma cross_weighted_singularity_exact
        (k : nat) (m : Q) (Vg Hg : grid Q) (i j : nat) (V H : Q) :
  grid_nth Vg i j = Some V -> grid_nth Hg i j = Some H ->
  (V <= 0)%Q -> (H <= 0)%Q ->
  let v := vert_mesh_lin (Q2R V) in
  let h := horiz_mesh_lin (Q2R H) in
  let a := w1 (Q2R V) (Q2R H) in
  let b := w2 (Q2R V) (Q2R H) in
  let cell := grid_nth (cross_weighted k Vg Hg) i j in
  (0 < v <= 1 /\ 0 < h <= 1)%R /\
  ((a = 0 /\ b = 0)%R <-> (v = 1 /\ h = 1)%R) /\
  ((a = 0 /\ b = 0)%R ->
   cell = Some (Some 0%R) /\
   ((0 < k)%nat -> cross_weighted_quotient k (Q2R V) (Q2R H) = None)) /\
  (~ (a = 0 /\ b = 0)%R ->
   np_cbrt (a ^ k + b ^ k) <> 0%R /\
   cell = Some (cross_weighted_quotient k (Q2R V) (Q2R H))) /\
  exists x : R,
    cell = Some (Some x) /\
    patR_nth (denormalize m (PatR (cross_weighted k Vg Hg))) i j
      = Some (Some (x + Q2R m)%R).
Proof.
  intros HV HH LV LH v h a b cell.
  apply Q2R_nonpos in LV, LH.
  destruct (cross_weighted_cell_value k (Q2R V) (Q2R H) LV LH)
    as (x & Hx & _ & Hzero & Hquot).
  assert (Hcell : cell = Some (Some x)).
  { unfold cell. rewrite (cross_weighted_nth k Vg Hg i j V H HV HH).
    congruence. }
  split; [split; apply lin_range; assumption |].
  split; [apply weights_vanish; assumption |].
  split; [| split].
  - intros Hab. split.
    + rewrite Hcell, (Hzero Hab). reflexivity.
    + intros Hk. destruct Hab as [Ea Eb].
      unfold cross_weighted_quotient, np_divide. fold a b.
      rewrite Ea, Eb, pow_i by exact Hk.
      replace (0 + 0)%R with 0%R by lra. rewrite np_cbrt_0.
      destruct (Req_EM_T 0 0) as [_ | N]; [reflexivity | lra].
  - intros Hab. destruct (Hquot Hab) as [Hc Hq]. split; [exact Hc |].
    rewrite Hcell, Hq. reflexivity.
  - exists x. split; [exact Hcell |].
    simpl. rewrite grid_nth_map. fold cell. rewrite Hcell. reflexivity.
Qed.

Lemma cross_weighted_singularity_exact_at_peak :
  exists x : R,
    grid_nth (cross_weighted 2 [[0]]%Q [[0]]%Q) 0 0 = Some (Some x) /\
    patR_nth (denormalize 5 (PatR (cross_weighted 2 [[0]]%Q [[0]]%Q))) 0 0
      = Some (Some (x + Q2R 5)%R).
Proof.
  apply (cross_weighted_singularity_exact 2 5%Q [[0]]%Q [[0]]%Q 0 0 0%Q 0%Q).
  - reflexivity.
  - reflexivity.
  - vm_compute. discriminate.
  - vm_compute. discriminate.
Defined.

(** ** The reader of MSI files *)

Section Msiread.

Import MsiRead.

Variable py_float : string -> option Q.

Lemma in_list_section (w : string) :
  in_list w ["horizontal"; "vertical"]%string = true <->
  w = "horizontal"%string \/ w = "vertical"%string.
Proof.
  unfold in_list. cbn [existsb].
  rewrite orb_false_r, orb_true_iff, !String.eqb_eq. tauto.
Qed.

Lemma loop_S (fuel : nat) (lines : list string) (st : locals) :
  loop py_float (S fuel) lines st =
  if (line_num st <? length lines)%nat then
    match step py_float lines st with
    | (ws, inl e) => Some (ws, inl e)
    | (_, inr st') => loop py_float fuel lines st'
    end
  else Some (ret st).
Proof. reflexivity. Qed.

(** A section line met before any gain value was read raises. *)
Lemma dispatch_section (lines : list string) (w rest : string) (st : locals) :
  w = "horizontal"%string \/ w = "vertical"%string ->
  no_gain_yet st ->
  dispatch py_float lines w rest st = raise (UnboundLocalError "TransData").
Proof.
  intros Hw [Hg Ht]. unfold dispatch.
  destruct Hw as [-> | ->]; cbn [in_list existsb String.eqb Ascii.eqb
                                  Bool.eqb orb andb];
    cbv iota;
    match goal with
    | |- context [get_xy_coords ?f ?l ?k ?v] =>
        destruct (get_xy_coords f l k v) as [[data msg] ln]
    end;
    cbn [optional_gain_value with_line_num with_counts]; rewrite Hg;
    cbn [TransData with_slices with_line_num with_counts]; rewrite Ht;
    reflexivity.
Qed.

(** Any other line, apart from a gain line, either raises or goes on to the
    next line without reading a gain value. *)
Lemma dispatch_other (lines : list string) (w rest : string) (st : locals) :
  w <> "gain"%string ->
  ~ (w = "horizontal"%string \/ w = "vertical"%string) ->
  no_gain_yet st ->
  dispatch py_float lines w rest st = raise TypeError \/
  exists st',
    dispatch py_float lines w rest st = ret st' /\
    line_num st' = line_num st /\ no_gain_yet st'.
Proof.
  intros Hgain Hsec Hinv. unfold dispatch.
  assert (Hret : forall d,
             exists st',
               @ret locals (with_Optional st d) = ret st' /\
               line_num st' = line_num st /\ no_gain_yet st').
  { intros d. eexists. split; [reflexivity |]. split; [reflexivity |].
    exact Hinv. }
  destruct (in_list w ["name"; "make"]%string); [right; apply Hret |].
  destruct (in_list w ["h_width"; "v_width"; "front_to_back"; "frequency"]%string).
  { destruct (String.eqb w "frequency"); [| right; apply Hret].
    destruct (get_scalar_numeric_value py_float rest); [| left; reflexivity].
    right. eexists. split; [reflexivity |]. split; [reflexivity |].
    exact Hinv. }
  destruct (String.eqb w "tilt"); [right; apply Hret |].
  destruct (String.eqb w "gain") eqn:E.
  { apply String.eqb_eq in E. contradiction. }
  destruct (String.eqb w "polarization"); [right; apply Hret |].
  destruct (String.eqb w "comment"); [right; apply Hret |].
  destruct (in_list w ["horizontal"; "vertical"]%string) eqn:S.
  { apply in_list_section in S. contradiction. }
  right. apply Hret.
Qed.

Lemma keyword_parse (raw w : string) :
  keyword raw = Some w <-> exists rest, parse_line raw = Some (w, rest).
Proof.
  unfold keyword. destruct (parse_line raw) as [[w' rest] |]; simpl.
  - split; [intros H; injection H as ->; eauto |].
    intros [r H]. congruence.
  - split; [discriminate | intros [r H]; discriminate].
Qed.

(** The loop raises when a section line lies ahead and no gain value has
    been read, nor will be before that line. *)
Lemma loop_raises (lines : list string) (i : nat) (raw : string) :
  nth_error lines i = Some raw -> is_section raw ->
  forall fuel st,
    no_gain_yet st ->
    (line_num st <= i)%nat ->
    (forall j raw',
        (line_num st <= j < i)%nat -> nth_error lines j = Some raw' ->
        keyword raw' <> Some "gain"%string) ->
    (length lines - line_num st <= fuel)%nat ->
    exists e,
      loop py_float fuel lines st = Some (raise e) /\
      (e = UnboundLocalError "TransData" \/ e = TypeError).
Proof.
  intros Hi Hsec.
  assert (Hlt : (i < length lines)%nat)
    by (apply nth_error_Some; congruence).
  induction fuel as [| fuel IH]; intros st Hinv Hle Hnog Hfuel; [lia |].
  rewrite loop_S.
  replace (line_num st <? length lines)%nat with true
    by (symmetry; apply Nat.ltb_lt; lia).
  unfold step, index.
  destruct (nth_error lines (line_num st)) as [raw0 |] eqn:Hraw0.
  2:{ apply nth_error_None in Hraw0. lia. }
  rewrite bind_ret.
  set (st1 := with_line_num st (S (line_num st))).
  assert (Hinv1 : no_gain_yet st1) by exact Hinv.
  assert (Hnext : (line_num st < i)%nat ->
                  forall st', line_num st' = line_num st1 -> no_gain_yet st' ->
                  exists e,
                    loop py_float fuel lines st' = Some (raise e) /\
                    (e = UnboundLocalError "TransData" \/ e = TypeError)).
  { intros Hlti st' Hln Hinv'. simpl in Hln.
    apply IH; [exact Hinv' | lia | | lia].
    intros j raw' Hj. apply Hnog. lia. }
  destruct (parse_line raw0) as [[w rest] |] eqn:Hparse.
  - assert (Hkw : keyword raw0 = Some w)
      by (apply keyword_parse; eauto).
    destruct (string_dec w "horizontal") as [Eh | Nh];
      [| destruct (string_dec w "vertical") as [Ev | Nv]].
    + rewrite (dispatch_section lines w rest st1) by auto.
      eexists. split; [reflexivity | auto].
    + rewrite (dispatch_section lines w rest st1) by auto.
      eexists. split; [reflexivity | auto].
    + assert (Hne : line_num st <> i).
      { intros E. rewrite E, Hi in Hraw0. injection Hraw0 as <-.
        destruct Hsec as [Hs | Hs]; rewrite Hs in Hkw; congruence. }
      assert (Hg : w <> "gain"%string).
      { intros ->. apply (Hnog (line_num st) raw0); auto. lia. }
      destruct (dispatch_other lines w rest st1 Hg) as [Hr | (st' & Hr & Hln & Hinv')];
        [tauto | exact Hinv1 | |]; rewrite Hr.
      * eexists. split; [reflexivity | auto].
      * apply Hnext; auto. lia.
  - assert (Hne : line_num st <> i).
    { intros E. rewrite E, Hi in Hraw0. injection Hraw0 as <-.
      unfold is_section, keyword in Hsec. rewrite Hparse in Hsec.
      destruct Hsec; discriminate. }
    apply Hnext; auto. lia.
Qed.

End Msiread.

(** C10: when a line of the file opens a horizontal or vertical section and
    no line before it is a gain line, [msiread] ends by raising a
    [RuntimeError] (the magnitudes being read from the unbound [TransData],
    or an earlier frequency line having no number), and returns nothing;
    when a gain value has been read, every magnitude is that value minus
    the second column of the data line. *)
Theorem C10_section_without_gain_raises
        (py_float : string -> option Q) (lines : list string) (i : nat) :
  section_without_gain lines i ->
  (exists e,
      MsiRead.msiread py_float lines = Some (raise (RuntimeError e)) /\
      (e = UnboundLocalError "TransData" \/ e = TypeError)) /\
  (forall gain data,
      Forall2 Qeq (MsiRead.trans_data gain data)
              (map (fun d => gain - snd d)%Q data)).
Proof.
  intros [(raw & Hi & Hsec) Hno]. split.
  - destruct (loop_raises py_float lines i raw Hi Hsec
                (length lines) MsiRead.initial) as (e & He & Hcase).
    + split; reflexivity.
    + simpl. lia.
    + intros j raw' Hj. apply Hno. lia.
    + simpl. lia.
    + exists e. split; [| exact Hcase].
      unfold MsiRead.msiread, MsiRead.msiread_on. rewrite He. reflexivity.
  - intros gain data. unfold MsiRead.trans_data.
    induction data as [| d t IH]; simpl; constructor; [ring | exact IH].
Qed.

(** A file with a horizontal section and no gain line. *)
Lemma C10_section_without_gain_raises_witness :
  exists e,
    MsiRead.msiread MsiRead.float_of_digits
      ["NAME antenna"; "HORIZONTAL 2"; "0 1"; "1 2"]%string
    = Some (raise (RuntimeError e)).
Proof.
  destruct (C10_section_without_gain_raises MsiRead.float_of_digits
              ["NAME antenna"; "HORIZONTAL 2"; "0 1"; "1 2"]%string 1)
    as [(e & He & _) _].
  - split.
    + exists "HORIZONTAL 2"%string. split; [reflexivity |].
      left. reflexivity.
    + intros j raw Hj Hraw. destruct j as [| j]; [| lia].
      simpl in Hraw. injection Hraw as <-. vm_compute. discriminate.
  - exists e. exact He.
Defined.

(** ** The loop of the reader ends within [len(lines)] iterations *)

Section Msiread_total.

Import MsiRead.

Variable py_float : string -> option Q.

Lemma get_xy_coords_advances (lines : list string) :
  forall k vec data msg k',
    get_xy_coords py_float lines k vec = (data, msg, k') -> (k <= k')%nat.
Proof.
  induction lines as [| l rest IH]; intros k vec data msg k' H; simpl in H.
  - injection H as _ _ <-. lia.
  - destruct (is_empty (reduce_spaces (strip l))).
    + apply IH in H. lia.
    + destruct (split (reduce_spaces (strip l))) as [| p0 [| p1 [| p2 ps]]];
        try (injection H as _ _ <-; lia).
      destruct (py_float p0); [destruct (py_float p1) |];
        try (injection H as _ _ <-; lia).
      apply IH in H. lia.
Qed.

Lemma dispatch_advances (lines : list string) (w rest : string)
      (st st' : locals) ws :
  dispatch py_float lines w rest st = (ws, inr st') ->
  (line_num st <= line_num st')%nat.
Proof.
  unfold dispatch, get_value_with_unit, index. intros H.
  pose proof (get_xy_coords_advances
                (skipn (line_num (with_counts st (S (n st)) (m st))) lines)
                (line_num (with_counts st (S (n st)) (m st))) []) as Hh.
  pose proof (get_xy_coords_advances
                (skipn (line_num (with_counts st (n st) (S (m st)))) lines)
                (line_num (with_counts st (n st) (S (m st)))) []) as Hv.
  repeat match type of H with
         | context [if ?c then _ else _] => destruct c
         | context [match get_xy_coords ?f ?l ?k ?v with _ => _ end] =>
             let E := fresh "E" in
             destruct (get_xy_coords f l k v) as [[? ?] ?] eqn:E;
             first [apply Hh in E | apply Hv in E]
         | context [match ?x with _ => _ end] => destruct x
         end;
    try discriminate;
    try (injection H as _ <-; simpl in *; lia).
Qed.

Lemma step_advances (lines : list string) (st st' : locals) ws :
  step py_float lines st = (ws, inr st') ->
  (line_num st < line_num st')%nat.
Proof.
  unfold step, index. intros H.
  destruct (nth_error lines (line_num st)) as [raw |]; [| discriminate].
  rewrite bind_ret in H.
  destruct (parse_line raw) as [[w rest] |].
  - apply dispatch_advances in H. simpl in H. lia.
  - injection H as _ <-. simpl. lia.
Qed.

Lemma loop_total (lines : list string) :
  forall fuel st,
    (length lines - line_num st <= fuel)%nat ->
    exists r, loop py_float fuel lines st = Some r.
Proof.
  induction fuel as [| fuel IH]; intros st Hfuel.
  - simpl. replace (line_num st <? length lines)%nat with false
      by (symmetry; apply Nat.ltb_ge; lia).
    eauto.
  - rewrite loop_S. destruct (line_num st <? length lines)%nat eqn:E; [| eauto].
    destruct (step py_float lines st) as [ws [e | st']] eqn:Hs; [eauto |].
    apply step_advances in Hs. apply IH. lia.
Qed.

Lemma msiread_total (lines : list string) :
  exists r, msiread py_float lines = Some r.
Proof.
  unfold msiread, msiread_on.
  destruct (loop_total lines (length lines) initial) as [r Hr]; [lia |].
  rewrite Hr. destruct (bind r finish) as [ws [e | v]]; eauto.
Qed.

End Msiread_total.

(** ** The CrossWeighted pattern end to end *)

Section Cross_weighted_pipeline.

Lemma mask_select_incl {A} (mask : list bool) :
  forall (a : list A) (x : A), In x (mask_select mask a) -> In x a.
Proof.
  induction mask as [| b mask IH]; intros [| y a] x H; simpl in *;
    try contradiction.
  destruct b; simpl in H; intuition.
Qed.

Lemma normalize_nonpos (vert hs : list Q) (m : Q) :
  max_directivity vert hs = ret m ->
  Forall (fun g => g <= 0)%Q (normalize m vert) /\
  Forall (fun g => g <= 0)%Q (normalize m hs).
Proof.
  intros H. apply max_directivity_returns in H. destruct H as (_ & _ & Hall).
  apply Forall_app in Hall. destruct Hall as [Hv Hh].
  split; apply Forall_map; eapply Forall_impl; try eassumption;
    simpl; intros a Ha; lra.
Qed.

(** Whenever a CrossWeighted call returns, every cell of the pattern holds a
    number, and none exceeds [max_directivity]. *)
Lemma cross_weighted_pattern_bounded
      vert theta horiz phi k t1 t2 t3 ws pat theta_out phi_out :
  pattern_from_slices vert theta horiz phi "CrossWeighted" k t1 t2 t3
    = (ws, inr (pat, theta_out, phi_out)) ->
  exists m hs,
    max_directivity vert hs = ret m /\
    forall i j,
      (i < length phi_out)%nat -> (j < length theta_out)%nat ->
      exists x : R,
        patR_nth pat i j = Some (Some x) /\ (x <= Q2R m)%R.
Proof.
  intros Hrun. apply pattern_from_slices_returns in Hrun.
  destruct Hrun as (hs & m & Hlen & _ & Hhs & _ & _ & _ & Hm & -> & -> & Hp).
  destruct Hp as [[Hs _] | [_ ->]]; [discriminate Hs |].
  exists m, hs. split; [exact Hm |]. intros i j Hi Hj.
  set (vsub := mask_select (idx_theta theta) (normalize m vert)).
  assert (Lv : length vsub = length (mask_select (idx_theta theta) theta)).
  { apply length_mask_select. rewrite length_normalize. exact Hlen. }
  rewrite <- Lv in Hj. rewrite <- Hhs, <- (length_normalize m hs) in Hi.
  destruct (meshgrid_nth vsub (normalize m hs) i j Hi) as [EV EH].
  specialize (EH Hj).
  destruct (nth_error vsub j) as [v |] eqn:Hv.
  2:{ apply nth_error_None in Hv. lia. }
  destruct (nth_error (normalize m hs) i) as [h |] eqn:Hh.
  2:{ apply nth_error_None in Hh. lia. }
  destruct (normalize_nonpos vert hs m Hm) as [Fv Fh].
  assert (Lev : (v <= 0)%Q).
  { apply nth_error_In in Hv. apply mask_select_incl in Hv.
    rewrite Forall_forall in Fv. auto. }
  assert (Leh : (h <= 0)%Q).
  { apply nth_error_In in Hh. rewrite Forall_forall in Fh. auto. }
  destruct (cross_weighted_cell_value k (Q2R v) (Q2R h))
    as (x & Hx & Hle & _); auto using Q2R_nonpos.
  exists (x + Q2R m)%R. split; [| lra].
  cbn [denormalize patR_nth]. rewrite grid_nth_map.
  fold vsub. rewrite (cross_weighted_nth k _ _ i j v h EV EH), Hx.
  reflexivity.
Qed.

End Cross_weighted_pipeline.

(** * Further properties of patternFromSlices.py *)

Section Validation.

Open Scope Q_scope.

Lemma bind_nil {A B} (a : A) (k : A -> M B) : bind ([], inr a) k = k a.
Proof. apply bind_ret. Qed.

(** The call is its validation followed by the choice of the method. *)
Lemma pattern_from_slices_split vert theta horiz phi method k t1 t2 t3 :
  pattern_from_slices vert theta horiz phi method k t1 t2 t3 =
  match validation vert theta horiz phi t1 t2 t3 with
  | (ws, inl e) => (ws, inl e)
  | (ws, inr (hs, m)) =>
      if is_known_method method then
        (ws, inr (combined method k m (vert_mesh m vert theta hs)
                           (horiz_mesh m vert theta hs),
                  mask_select (idx_theta theta) theta, phi_used phi))
      else (ws, inl (ValueError (UnknownMethod method)))
  end.
Proof.
  unfold pattern_from_slices, validation.
  destruct (length vert =? length theta)%nat eqn:Hlen; cbn [negb];
    [| reflexivity].
  apply Nat.eqb_eq in Hlen.
  destruct (materialize_horiz vert horiz (phi_used phi)) as [w1 [e | hs]] eqn:Hh;
    [reflexivity |].
  destruct (materialize_horiz_returns _ _ _ _ _ Hh) as [-> Hhs].
  rewrite !bind_nil.
  destruct (check_repeated_points vert theta "el") as [w2 [e | []]] eqn:Hc1;
    [reflexivity |].
  destruct (check_repeated_points_returns _ _ _ _ _ Hlen Hc1) as [-> _].
  rewrite !bind_nil.
  destruct (check_repeated_points hs (phi_used phi) "az") as [w3 [e | []]] eqn:Hc2;
    [reflexivity |].
  destruct (check_repeated_points_returns _ _ _ _ _ Hhs Hc2) as [-> _].
  rewrite !bind_nil.
  destruct (check_reconstruction_requirements vert theta hs (phi_used phi)
              t1 t2 t3) as [w4 [e | []]]; [reflexivity |].
  rewrite !bind_value.
  destruct (max_directivity vert hs) as [w5 [e | m]] eqn:Hm; [reflexivity |].
  destruct (max_directivity_returns _ _ _ _ Hm) as (-> & _).
  rewrite !bind_nil. cbn [fst snd]. rewrite !app_nil_r.
  assert (Hpre : forall meth, is_known_method meth = true ->
            preprocess_data (normalize m vert) theta (normalize m hs)
              (phi_used phi) meth
            = ret (vert_mesh m vert theta hs,
                   mask_select (idx_theta theta) theta,
                   horiz_mesh m vert theta hs, phi_used phi)).
  { intros meth Hk. apply preprocess_data_ok; auto;
      rewrite length_normalize; auto. }
  unfold is_known_method, combined.
  destruct (String.eqb method "Summing") eqn:E1.
  - apply String.eqb_eq in E1. subst method.
    rewrite (Hpre "Summing"%string eq_refl), !bind_ret. cbn [fst snd orb].
    rewrite app_nil_r. reflexivity.
  - destruct (String.eqb method "CrossWeighted") eqn:E2; cbn [orb].
    + apply String.eqb_eq in E2. subst method.
      rewrite (Hpre "CrossWeighted"%string eq_refl), !bind_ret.
      cbn [fst snd]. rewrite app_nil_r. reflexivity.
    + cbn [fst snd]. rewrite app_nil_r. reflexivity.
Qed.

End Validation.

Section Only_value_errors.

Open Scope Q_scope.













End Only_value_errors.



(** X2: the checks come before the choice of the method and do not depend
    on it.  A call whose method is neither 'Summing' nor 'CrossWeighted'
    never returns; when the same arguments pass the checks with a known
    method, it raises 'Unknown method', after the same warnings; and a call
    that raises anything but 'Unknown method' raises the same, with the
    same warnings, for every other method and exponent. *)
Theorem X2_validation_before_method vert theta horiz phi t1 t2 t3 :
  (forall method k ws r,
      is_known_method method = false ->
      pattern_from_slices vert theta horiz phi method k t1 t2 t3
        <> (ws, inr r)) /\
  (forall method k ws r method' k',
      pattern_from_slices vert theta horiz phi method k t1 t2 t3
        = (ws, inr r) ->
      is_known_method method' = false ->
      pattern_from_slices vert theta horiz phi method' k' t1 t2 t3
        = (ws, inl (ValueError (UnknownMethod method')))) /\
  (forall method k ws e method' k',
      pattern_from_slices vert theta horiz phi method k t1 t2 t3
        = (ws, inl e) ->
      e <> ValueError (UnknownMethod method) ->
      pattern_from_slices vert theta horiz phi method' k' t1 t2 t3
        = (ws, inl e)).
Proof.
  split; [| split].
  - intros method k ws r Hk. rewrite pattern_from_slices_split, Hk.
    destruct (validation vert theta horiz phi t1 t2 t3) as [w [e0 | [hs m]]];
      discriminate.
  - intros method k ws r method' k' H Hk'.
    rewrite pattern_from_slices_split in H |- *. rewrite Hk'.
    destruct (validation vert theta horiz phi t1 t2 t3) as [w [e0 | [hs m]]];
      [discriminate |].
    destruct (is_known_method method); inversion H; reflexivity.
  - intros method k ws e method' k' H Hne.
    rewrite pattern_from_slices_split in H |- *.
    destruct (validation vert theta horiz phi t1 t2 t3) as [w [e0 | [hs m]]];
      [exact H |].
    destruct (is_known_method method); inversion H; subst. congruence.
Qed.

(** The scenario passes the checks, so with the method 'Nearest' it raises
    'Unknown method'; a vertical slice sampled only at 80 degrees is refused
    in the same way whatever the method. *)
Lemma X2_validation_before_method_witness :
  pattern_from_slices Scenario.vert_gain Scenario.theta
    (HorizVector Scenario.horiz_gain) (Some Scenario.phi) "Nearest"%string 3
    default_tol_nearest_angle_from_boresight
    default_tol_gain_max_vs_boresight
    default_tol_gain_diff_at_slice_intersect
  = ([], inl (ValueError (UnknownMethod "Nearest"%string))) /\
  pattern_from_slices [0]%Q [80]%Q (HorizVector [0]%Q) (Some [0]%Q)
    "Nearest"%string 3 default_tol_nearest_angle_from_boresight
    default_tol_gain_max_vs_boresight
    default_tol_gain_diff_at_slice_intersect
  = ([], inl (ValueError (NoAnglesVertical 10))).
Proof.
  split.
  - apply (proj1 (proj2 (X2_validation_before_method
                           Scenario.vert_gain Scenario.theta
                           (HorizVector Scenario.horiz_gain)
                           (Some Scenario.phi)
                           default_tol_nearest_angle_from_boresight
                           default_tol_gain_max_vs_boresight
                           default_tol_gain_diff_at_slice_intersect))
             "Summing"%string default_cross_weighted_normalization []
             (PatQ (Scenario.outer_sum Scenario.vert_gain Scenario.horiz_gain),
              Scenario.theta, Scenario.phi)).
    + vm_compute. reflexivity.
    + reflexivity.
  - apply (proj2 (proj2 (X2_validation_before_method
                           [0]%Q [80]%Q (HorizVector [0]%Q) (Some [0]%Q)
                           default_tol_nearest_angle_from_boresight
                           default_tol_gain_max_vs_boresight
                           default_tol_gain_diff_at_slice_intersect))
             "Summing"%string default_cross_weighted_normalization []
             (ValueError (NoAnglesVertical 10))).
    + vm_compute. reflexivity.
    + discriminate.
Defined.

(** ** The pattern as an outer combination of the two slices *)

Section Outer.

Open Scope Q_scope.

Lemma zip_with_const_row {A B C} (f : A -> B -> C) (x : list A) (h : B) :
  zip_with f x (map (fun _ => h) x) = map (fun v => f v h) x.
Proof. induction x as [| v t IH]; simpl; [| rewrite IH]; reflexivity. Qed.

(** Combining the two meshes cell by cell gives, in row [i], the
    combination of the whole first slice with the [i]-th value of the
    second. *)
Lemma grid_zip_meshgrid {A B C} (f : A -> B -> C) (x : list A) (y : list B) :
  zip_with (zip_with f) (map (fun _ => x) y)
           (map (fun yi => map (fun _ => yi) x) y)
  = map (fun h => map (fun v => f v h) x) y.
Proof.
  induction y as [| h t IH]; simpl; [reflexivity |].
  rewrite IH, zip_with_const_row. reflexivity.
Qed.

Lemma mask_select_map {A B} (f : A -> B) (mask : list bool) :
  forall a, mask_select mask (map f a) = map f (mask_select mask a).
Proof.
  induction mask as [| b mask IH]; intros [| x a]; simpl; try reflexivity.
  destruct b; simpl; rewrite IH; reflexivity.
Qed.

Lemma nested_map_nth {A B C} (f : A -> B -> C) (x : list A) (y : list B)
      (i j : nat) :
  grid_nth (map (fun h => map (fun v => f v h) x) y) i j =
  match nth_error y i, nth_error x j with
  | Some h, Some v => Some (f v h)
  | _, _ => None
  end.
Proof.
  unfold grid_nth. rewrite nth_error_map.
  destruct (nth_error y i) as [h |]; simpl; [| reflexivity].
  rewrite nth_error_map. destruct (nth_error x j); reflexivity.
Qed.

(** The pattern of a Summing call that returns. *)
Lemma summing_pattern vert theta horiz phi k t1 t2 t3 ws pat theta_out phi_out :
  pattern_from_slices vert theta horiz phi "Summing" k t1 t2 t3
    = (ws, inr (pat, theta_out, phi_out)) ->
  exists hs m,
    materialize_horiz vert horiz phi_out = ret hs /\
    length hs = length phi_out /\
    length (mask_select (idx_theta theta) vert) = length theta_out /\
    max_directivity vert hs = ret m /\
    pat = PatQ (map (fun h =>
                       map (fun v => add_back m ((v - m) + (h - m)))
                           (mask_select (idx_theta theta) vert)) hs).
Proof.
  intros Hrun. apply pattern_from_slices_returns in Hrun.
  destruct Hrun as (hs & m & Hlen & Hh & Hhs & _ & _ & _ & Hm & -> & -> & Hp).
  destruct Hp as [[_ ->] | [Hs _]]; [| discriminate Hs].
  exists hs, m. repeat (split; [auto using length_mask_select; fail |]).
  unfold denormalize, summing, grid_zip, grid_map, meshgrid, normalize.
  cbn [fst snd]. rewrite grid_zip_meshgrid, mask_select_map, !map_map.
  f_equal. apply map_ext. intros h. rewrite !map_map. reflexivity.
Qed.

End Outer.

(** ** Normalisation and denormalisation in a call *)

Section Normalisation.

Open Scope Q_scope.

Lemma Q2R_eq_0 (q : Q) : q == 0 -> Q2R q = 0%R.
Proof. intros H. rewrite (Qeq_eqR _ _ H). apply RMicromega.Q2R_0. Qed.

(** At the peak of both slices the two weights vanish and the cell is
    forced to 0. *)
Lemma cross_weighted_cell_peak (k : nat) : cross_weighted_cell k 0 0 = Some 0%R.
Proof.
  unfold cross_weighted_cell, w1, w2, vert_mesh_lin, horiz_mesh_lin, np_power.
  replace (0 / 10)%R with 0%R by (unfold Rdiv; ring).
  rewrite Rpower_O by lra.
  replace (1 * (1 - 1))%R with 0%R by ring.
  assert (E : Req_bool 0 0 = true) by (apply Req_bool_true; reflexivity).
  rewrite E. reflexivity.
Qed.

(** The pattern of a CrossWeighted call that returns. *)
Lemma cross_weighted_pattern
      vert theta horiz phi k t1 t2 t3 ws pat theta_out phi_out :
  pattern_from_slices vert theta horiz phi "CrossWeighted" k t1 t2 t3
    = (ws, inr (pat, theta_out, phi_out)) ->
  exists hs m,
    materialize_horiz vert horiz phi_out = ret hs /\
    max_directivity vert hs = ret m /\
    pat = PatR (map (fun h =>
                       map (fun v =>
                              option_map (fun x => (x + Q2R m)%R)
                                (cross_weighted_cell k (Q2R (v - m))
                                                     (Q2R (h - m))))
                           (mask_select (idx_theta theta) vert)) hs).
Proof.
  intros Hrun. apply pattern_from_slices_returns in Hrun.
  destruct Hrun as (hs & m & Hlen & Hh & Hhs & _ & _ & _ & Hm & -> & -> & Hp).
  destruct Hp as [[Hs _] | [_ ->]]; [discriminate Hs |].
  exists hs, m. split; [exact Hh |]. split; [exact Hm |].
  unfold denormalize, cross_weighted, grid_zip, grid_map, meshgrid, normalize.
  cbn [fst snd]. rewrite grid_zip_meshgrid, mask_select_map, !map_map.
  f_equal. apply map_ext. intros h. rewrite !map_map. reflexivity.
Qed.

(** C7: in every call that returns, [max_directivity] is the largest gain of
    the two slices; the slices handed to [preprocess_data] are the two
    slices with that one number subtracted from every gain, so that none
    exceeds 0 and one is 0; and the returned pattern is the combination of
    those normalised gains with the same number added back in every cell.
    For Summing the cell of the horizontal gain [h] and the vertical gain
    [v] is [(v - m) + (h - m) + m], which is [v] where [h] is the maximum
    and [h] where [v] is; for CrossWeighted it is the combined value of
    [v - m] and [h - m] plus [m], which is [m] where both slices are at the
    maximum.  Denormalising the normalised slices gives the slices back. *)
Theorem C7_normalize_denormalize
        vert theta horiz phi method k t1 t2 t3 ws pat theta_out phi_out :
  pattern_from_slices vert theta horiz phi method k t1 t2 t3
    = (ws, inr (pat, theta_out, phi_out)) ->
  exists hs m,
    materialize_horiz vert horiz phi_out = ret hs /\
    max_directivity vert hs = ret m /\
    (In m (vert ++ hs) /\ Forall (fun g => g <= m) (vert ++ hs)) /\
    preprocess_data (normalize m vert) theta (normalize m hs) phi_out method
      = ret (vert_mesh m vert theta hs, theta_out,
             horiz_mesh m vert theta hs, phi_out) /\
    Forall2 (fun n g => n == g - m)
            (normalize m vert ++ normalize m hs) (vert ++ hs) /\
    Forall (fun g => g <= 0) (normalize m vert ++ normalize m hs) /\
    Exists (fun g => g == 0) (normalize m vert ++ normalize m hs) /\
    pat = denormalize m
            (if String.eqb method "Summing"
             then PatQ (summing (vert_mesh m vert theta hs)
                                (horiz_mesh m vert theta hs))
             else PatR (cross_weighted k (vert_mesh m vert theta hs)
                                       (horiz_mesh m vert theta hs))) /\
    (forall i j v h,
        nth_error hs i = Some h ->
        nth_error (mask_select (idx_theta theta) vert) j = Some v ->
        (method = "Summing"%string ->
         exists c,
           patQ_nth pat i j = Some c /\
           c == (v - m) + (h - m) + m /\
           (h == m -> c == v) /\ (v == m -> c == h)) /\
        (method = "CrossWeighted"%string ->
         patR_nth pat i j
           = Some (option_map (fun x => (x + Q2R m)%R)
                     (cross_weighted_cell k (Q2R (v - m)) (Q2R (h - m)))) /\
         (v == m -> h == m -> patR_nth pat i j = Some (Some (Q2R m))))) /\
    exists g,
      denormalize m (PatQ [normalize m vert; normalize m hs]) = PatQ g /\
      Forall2 (Forall2 Qeq) g [vert; hs].
Proof.
  intros Hrun. pose proof Hrun as Hinv.
  apply pattern_from_slices_returns in Hinv.
  destruct Hinv as (hs & m & Hlen & Hh & Hhs & _ & _ & _ & Hm & Hth & Hph & Hp).
  cbv zeta in Hp. fold (vert_mesh m vert theta hs) in Hp.
  fold (horiz_mesh m vert theta hs) in Hp.
  assert (Hknown : is_known_method method = true).
  { destruct Hp as [[-> _] | [-> _]]; reflexivity. }
  destruct (normalize_slices vert hs m Hm) as (Hmax & Hsub & Hle & Hex & Hround).
  exists hs, m. rewrite Hph.
  split; [exact Hh |]. split; [exact Hm |]. split; [exact Hmax |].
  split.
  { rewrite Hth. unfold vert_mesh, horiz_mesh.
    apply preprocess_data_ok; [exact Hknown | |];
      rewrite length_normalize; assumption. }
  split; [exact Hsub |]. split; [exact Hle |]. split; [exact Hex |].
  split.
  { destruct Hp as [[-> ->] | [-> ->]]; reflexivity. }
  split; [| exact Hround].
  intros i j v h Ei Ej. split; intros ->.
  - apply summing_pattern in Hrun.
    destruct Hrun as (hs' & m' & Hh' & _ & _ & Hm' & ->).
    rewrite Hph in Hh'. rewrite Hh' in Hh. inversion Hh; subst hs'.
    rewrite Hm' in Hm. inversion Hm; subst m'.
    exists (add_back m ((v - m) + (h - m))).
    split; [cbn [patQ_nth]; rewrite nested_map_nth, Ei, Ej; reflexivity |].
    unfold add_back. split; [reflexivity |].
    split; intros E; rewrite E; ring.
  - apply cross_weighted_pattern in Hrun.
    destruct Hrun as (hs' & m' & Hh' & Hm' & ->).
    rewrite Hph in Hh'. rewrite Hh' in Hh. inversion Hh; subst hs'.
    rewrite Hm' in Hm. inversion Hm; subst m'.
    assert (Hcell :
              patR_nth
                (PatR (map (fun h0 =>
                         map (fun v0 =>
                                option_map (fun x => (x + Q2R m)%R)
                                  (cross_weighted_cell k (Q2R (v0 - m))
                                                       (Q2R (h0 - m))))
                             (mask_select (idx_theta theta) vert)) hs)) i j
              = Some (option_map (fun x => (x + Q2R m)%R)
                        (cross_weighted_cell k (Q2R (v - m)) (Q2R (h - m))))).
    { cbn [patR_nth]. rewrite nested_map_nth, Ei, Ej. reflexivity. }
    split; [exact Hcell |].
    intros Ev Eh. rewrite Hcell.
    rewrite (Q2R_eq_0 (v - m)) by (rewrite Ev; ring).
    rewrite (Q2R_eq_0 (h - m)) by (rewrite Eh; ring).
    rewrite cross_weighted_cell_peak. simpl. do 2 f_equal. ring.
Qed.

(** In the scenario, a Summing call: the maximum is 0 and the pattern is the
    outer sum of the two slices. *)
Lemma C7_normalize_denormalize_witness :
  exists hs m,
    materialize_horiz Scenario.vert_gain (HorizVector Scenario.horiz_gain)
      Scenario.phi = ret hs /\
    max_directivity Scenario.vert_gain hs = ret m /\
    Exists (fun g => g == 0) (normalize m Scenario.vert_gain ++ normalize m hs) /\
    exists g,
      denormalize m (PatQ [normalize m Scenario.vert_gain; normalize m hs])
        = PatQ g /\
      Forall2 (Forall2 Qeq) g [Scenario.vert_gain; hs].
Proof.
  destruct (C7_normalize_denormalize
              Scenario.vert_gain Scenario.theta
              (HorizVector Scenario.horiz_gain) (Some Scenario.phi)
              "Summing"%string default_cross_weighted_normalization
              default_tol_nearest_angle_from_boresight
              default_tol_gain_max_vs_boresight
              default_tol_gain_diff_at_slice_intersect
              []
              (PatQ (Scenario.outer_sum Scenario.vert_gain Scenario.horiz_gain))
              Scenario.theta Scenario.phi)
    as (hs & m & Hh & Hm & _ & _ & _ & _ & Hex & _ & _ & Hround).
  - vm_compute. reflexivity.
  - exists hs, m. repeat split; assumption.
Defined.

End Normalisation.

(** X3: whenever a Summing call returns, the pattern is the outer sum of the
    two slices: its entry in row [i] and column [j] equals the [j]-th gain of
    the theta subset plus the [i]-th horizontal gain minus [max_directivity],
    and is at most each of the two gains, hence at most [max_directivity]. *)
Theorem X3_summing_outer_sum
        vert theta horiz phi k t1 t2 t3 ws pat theta_out phi_out :
  pattern_from_slices vert theta horiz phi "Summing" k t1 t2 t3
    = (ws, inr (pat, theta_out, phi_out)) ->
  exists hs m g,
    materialize_horiz vert horiz phi_out = ret hs /\
    max_directivity vert hs = ret m /\
    pat = PatQ g /\
    forall i j,
      (i < length phi_out)%nat -> (j < length theta_out)%nat ->
      exists v h c,
        nth_error (mask_select (idx_theta theta) vert) j = Some v /\
        nth_error hs i = Some h /\
        grid_nth g i j = Some c /\
        (c == v + h - m /\ c <= v /\ c <= h /\ c <= m)%Q.
Proof.
  intros Hrun. apply summing_pattern in Hrun.
  destruct Hrun as (hs & m & Hh & Hhs & Hth & Hm & ->).
  eexists hs, m, _. split; [exact Hh |]. split; [exact Hm |].
  split; [reflexivity |]. intros i j Hi Hj.
  destruct (nth_error hs i) as [h |] eqn:Eh.
  2:{ apply nth_error_None in Eh. lia. }
  destruct (nth_error (mask_select (idx_theta theta) vert) j) as [v |] eqn:Ev.
  2:{ apply nth_error_None in Ev. lia. }
  exists v, h, (add_back m ((v - m) + (h - m)))%Q.
  split; [reflexivity |]. split; [reflexivity |].
  split; [rewrite nested_map_nth, Eh, Ev; reflexivity |].
  apply max_directivity_returns in Hm. destruct Hm as (_ & _ & Hall).
  rewrite Forall_forall in Hall.
  assert (Hv : (v <= m)%Q).
  { apply Hall, in_or_app. left.
    apply nth_error_In in Ev. eapply mask_select_incl. exact Ev. }
  assert (Hh' : (h <= m)%Q).
  { apply Hall, in_or_app. right. eapply nth_error_In. exact Eh. }
  unfold add_back. repeat split; lra.
Qed.

Lemma X3_summing_outer_sum_witness :
  exists hs m g,
    materialize_horiz Scenario.vert_gain (HorizVector Scenario.horiz_gain)
      Scenario.phi = ret hs /\
    max_directivity Scenario.vert_gain hs = ret m /\
    PatQ (Scenario.outer_sum Scenario.vert_gain Scenario.horiz_gain)
      = PatQ g.
Proof.
  destruct (X3_summing_outer_sum
              Scenario.vert_gain Scenario.theta
              (HorizVector Scenario.horiz_gain) (Some Scenario.phi)
              default_cross_weighted_normalization
              default_tol_nearest_angle_from_boresight
              default_tol_gain_max_vs_boresight
              default_tol_gain_diff_at_slice_intersect
              [] (PatQ (Scenario.outer_sum Scenario.vert_gain
                          Scenario.horiz_gain))
              Scenario.theta Scenario.phi)
    as (hs & m & g & H1 & H2 & H3 & _).
  - vm_compute. reflexivity.
  - exists hs, m, g. auto.
Defined.

(** ** Omnidirectional horizontal slices *)

Section Omnidirectional.

Open Scope Q_scope.

Lemma materialize_omnidirectional vert horiz phi hs :
  is_omnidirectional horiz ->
  materialize_horiz vert horiz phi = ret hs ->
  exists c, hs = map (fun _ => c) phi.
Proof.
  destruct horiz as [| g | g]; simpl; intros Ho H; [| | contradiction].
  - destruct (np_max vert) as [w [e | v]] eqn:Hv; [discriminate |].
    apply np_max_returns in Hv. destruct Hv as (-> & _).
    rewrite bind_nil in H. inversion H; subst. eauto.
  - inversion H; subst. eauto.
Qed.

Lemma map_const_rows {A B} (row : B) (l : list A) :
  Forall (eq row) (map (fun _ => row) l).
Proof. apply Forall_map, Forall_forall. reflexivity. Qed.

End Omnidirectional.

(** X4: with an absent or scalar horizontal slice the returned pattern does
    not depend on phi: for both methods all its rows are the same row. *)
Theorem X4_omnidirectional_rows_equal
        vert theta horiz phi method k t1 t2 t3 ws pat theta_out phi_out :
  is_omnidirectional horiz ->
  pattern_from_slices vert theta horiz phi method k t1 t2 t3
    = (ws, inr (pat, theta_out, phi_out)) ->
  rows_all_equal pat /\ pat_has_shape pat (length phi_out) (length theta_out).
Proof.
  intros Ho Hrun. apply pattern_from_slices_returns in Hrun.
  destruct Hrun as (hs & m & Hlen & Hh & Hhs & _ & _ & _ & Hm & -> & -> & Hp).
  destruct (materialize_omnidirectional vert horiz (phi_used phi) hs Ho Hh)
    as (c & ->).
  set (vsub := mask_select (idx_theta theta) (normalize m vert)) in *.
  assert (Lv : length vsub = length (mask_select (idx_theta theta) theta)).
  { apply length_mask_select. rewrite length_normalize. exact Hlen. }
  destruct (has_shape_meshgrid vsub (normalize m (map (fun _ => c) (phi_used phi))))
    as [SV SH].
  rewrite length_normalize, length_map, Lv in SV, SH.
  split.
  - destruct Hp as [[_ ->] | [_ ->]];
      unfold denormalize, rows_all_equal, summing, cross_weighted, grid_zip,
        grid_map, meshgrid, normalize; cbn [fst snd];
      rewrite grid_zip_meshgrid, !map_map; eexists; apply map_const_rows.
  - destruct Hp as [[_ ->] | [_ ->]]; simpl;
      apply has_shape_grid_map, has_shape_grid_zip; assumption.
Qed.

Lemma X4_omnidirectional_rows_equal_witness :
  rows_all_equal (PatQ [[-3; 0; -3]; [-3; 0; -3]]%Q).
Proof.
  apply (X4_omnidirectional_rows_equal
           [-3; 0; -3]%Q [45; 90; 135]%Q HorizNone (Some [0; 180]%Q) "Summing"
           default_cross_weighted_normalization
           default_tol_nearest_angle_from_boresight
           default_tol_gain_max_vs_boresight
           default_tol_gain_diff_at_slice_intersect
           [] (PatQ [[-3; 0; -3]; [-3; 0; -3]]%Q) [45; 90; 135]%Q [0; 180]%Q).
  - exact I.
  - vm_compute. reflexivity.
Defined.

Section Absent_horizontal.

Open Scope Q_scope.

Lemma Forall2_map_Qeq (f : Q -> Q) (l : list Q) :
  (forall v, f v == v) -> Forall2 Qeq (map f l) l.
Proof. intros Hf. induction l; simpl; constructor; auto. Qed.

(** With the horizontal slice absent, [max_directivity] is the peak of the
    vertical slice and every horizontal gain equals it. *)
Lemma absent_horizontal_peak vert phi hs m :
  materialize_horiz vert HorizNone phi = ret hs ->
  max_directivity vert hs = ret m ->
  Forall (fun h => h == m) hs.
Proof.
  simpl. intros Hh Hm.
  destruct (np_max vert) as [w [e | vmax]] eqn:Hv; [discriminate |].
  apply np_max_returns in Hv. destruct Hv as (-> & Hin & Hall).
  rewrite bind_nil in Hh. inversion Hh; subst. clear Hh.
  apply max_directivity_returns in Hm. destruct Hm as (_ & Hmin & Hmall).
  rewrite Forall_forall in Hall, Hmall.
  assert (H1 : vmax <= m) by (apply Hmall, in_or_app; auto).
  assert (H2 : m <= vmax).
  { apply in_app_or in Hmin. destruct Hmin as [Hi | Hi]; [auto |].
    apply in_map_iff in Hi. destruct Hi as (_ & <- & _). lra. }
  apply Forall_map, Forall_forall. intros _ _. lra.
Qed.

End Absent_horizontal.

(** X5: with the horizontal slice absent, a Summing call that returns gives
    back the vertical slice: there is one row per phi and every row equals
    the gains of the theta subset, as they were passed in. *)
Theorem X5_absent_horizontal_summing
        vert theta phi k t1 t2 t3 ws pat theta_out phi_out :
  pattern_from_slices vert theta HorizNone phi "Summing" k t1 t2 t3
    = (ws, inr (pat, theta_out, phi_out)) ->
  exists g,
    pat = PatQ g /\ length g = length phi_out /\
    Forall (fun row =>
              Forall2 Qeq row (mask_select (idx_theta theta) vert)) g.
Proof.
  intros Hrun. apply summing_pattern in Hrun.
  destruct Hrun as (hs & m & Hh & Hhs & _ & Hm & ->).
  eexists. split; [reflexivity |]. split; [rewrite length_map; exact Hhs |].
  pose proof (absent_horizontal_peak vert phi_out hs m Hh Hm) as Hpeak.
  apply Forall_map. eapply Forall_impl; [| exact Hpeak].
  intros h Hhm. apply Forall2_map_Qeq. intros v. unfold add_back.
  rewrite Hhm. ring.
Qed.

Lemma X5_absent_horizontal_summing_witness :
  exists g,
    PatQ [[-3; 0; -3]; [-3; 0; -3]]%Q = PatQ g /\ length g = 2%nat.
Proof.
  destruct (X5_absent_horizontal_summing
              [-3; 0; -3]%Q [45; 90; 135]%Q (Some [0; 180]%Q)
              default_cross_weighted_normalization
              default_tol_nearest_angle_from_boresight
              default_tol_gain_max_vs_boresight
              default_tol_gain_diff_at_slice_intersect
              [] (PatQ [[-3; 0; -3]; [-3; 0; -3]]%Q)
              [45; 90; 135]%Q [0; 180]%Q)
    as (g & H1 & H2 & _).
  - vm_compute. reflexivity.
  - exists g. auto.
Defined.

(** ** Symmetry of the two combiners *)

Section Symmetry.

Open Scope R_scope.

Lemma cross_weighted_cell_sym (k : nat) (V H : R) :
  cross_weighted_cell k V H = cross_weighted_cell k H V.
Proof.
  unfold cross_weighted_cell, cross_weighted_quotient.
  assert (E1 : w1 V H = w2 H V) by reflexivity.
  assert (E2 : w2 V H = w1 H V) by reflexivity.
  rewrite E1, E2, andb_comm.
  replace (w2 H V ^ k + w1 H V ^ k) with (w1 H V ^ k + w2 H V ^ k) by ring.
  replace (H * w2 H V + V * w1 H V) with (V * w1 H V + H * w2 H V) by ring.
  reflexivity.
Qed.

End Symmetry.

(** X6: the two combiners treat their slices alike: building the meshes
    from the slices [x], [y] or from [y], [x] gives patterns that are
    transposes of one another, cell for cell, equal as rationals for
    Summing and identical for CrossWeighted. *)
Theorem X6_combiners_transpose (k : nat) (x y : list Q) (i j : nat) :
  opt_Qeq
    (grid_nth (summing (fst (meshgrid x y)) (snd (meshgrid x y))) i j)
    (grid_nth (summing (fst (meshgrid y x)) (snd (meshgrid y x))) j i) /\
  grid_nth (cross_weighted k (fst (meshgrid x y)) (snd (meshgrid x y))) i j
  = grid_nth (cross_weighted k (fst (meshgrid y x)) (snd (meshgrid y x))) j i.
Proof.
  unfold summing, cross_weighted, grid_zip, meshgrid. cbn [fst snd].
  rewrite !grid_zip_meshgrid, !nested_map_nth.
  destruct (nth_error y i) as [h |], (nth_error x j) as [v |]; simpl;
    try (split; [exact I | reflexivity]).
  split; [ring | f_equal; apply cross_weighted_cell_sym].
Qed.

(** ** A returned pattern is not empty *)

Section Nonempty.

Open Scope Q_scope.

Lemma Qfloor_unique (q : Q) (z : Z) :
  inject_Z z <= q -> q < inject_Z z + 1 -> Qfloor q = z.
Proof.
  intros Hle Hlt. apply Z.le_antisymm.
  - assert (H : (Qfloor q < z + 1)%Z).
    { rewrite Zlt_Qlt, inject_Z_plus. pose proof (Qfloor_le q).
      change (inject_Z 1) with 1. lra. }
    lia.
  - rewrite <- (Qfloor_Z z). apply Qfloor_resp_le. exact Hle.
Qed.

Lemma np_mod_unique (x m r : Q) (z : Z) :
  0 < m -> x == r + m * inject_Z z -> 0 <= r -> r < m -> np_mod x m == r.
Proof.
  intros Hm Hx H0 H1. unfold np_mod.
  assert (E : x / m == r / m + inject_Z z) by (rewrite Hx; field; lra).
  assert (L0 : 0 <= r / m) by (apply Qle_shift_div_l; lra).
  assert (L1 : r / m < 1) by (apply Qlt_shift_div_r; lra).
  rewrite (Qfloor_unique (x / m) z) by lra.
  rewrite Hx. ring.
Qed.

Lemma min_list_in (l : list Q) : forall x, In (min_list x l) (x :: l).
Proof.
  induction l as [| y t IH]; intros x; simpl.
  - auto.
  - destruct (IH (if Qlt_bool y x then y else x)) as [H | H].
    + destruct (Qlt_bool y x); rewrite <- H; auto.
    + auto.
Qed.

(** A sample within 90 degrees above boresight lies in the upper half. *)
Lemma near_boresight_kept (t tol : Q) :
  tol <= 90 -> Qabs (np_mod (t - 90) 360) <= tol ->
  Qle_bool (np_mod t 360) 180 = true.
Proof.
  intros Htol Hnear.
  destruct (np_mod_range (t - 90) 360 eq_refl) as [R0 R1].
  rewrite Qabs_pos in Hnear by exact R0.
  apply Qle_bool_iff.
  rewrite (np_mod_unique t 360 (np_mod (t - 90) 360 + 90)
             (Qfloor ((t - 90) / 360))); try lra.
  unfold np_mod. ring.
Qed.

(** A check that returns has found a sample of theta within the tolerance. *)
Lemma coverage_passed vert theta horiz phi t1 t2 t3 ws :
  check_reconstruction_requirements vert theta horiz phi t1 t2 t3
    = (ws, inr tt) ->
  exists t, In t theta /\ Qabs (np_mod (t - 90) 360) <= t1.
Proof.
  unfold check_reconstruction_requirements. intros H.
  apply bind_returns in H. destruct H as (w1 & mt & w1' & Hmt & H & _).
  apply bind_returns in H. destruct H as (w2 & mp & w2' & Hmp & H & _).
  destruct (Qlt_bool t1 mt) eqn:E; [discriminate |].
  apply Qlt_bool_false in E.
  destruct theta as [| t0 rest]; [discriminate |].
  simpl in Hmt. inversion Hmt; subst.
  match type of E with
  | min_list ?a ?l <= _ => pose proof (min_list_in l a) as Hin
  end.
  change (In (min_list (Qabs (np_mod (t0 - 90) 360))
                (map (fun t => Qabs (np_mod (t - 90) 360)) rest))
             (map (fun t => Qabs (np_mod (t - 90) 360)) (t0 :: rest))) in Hin.
  apply in_map_iff in Hin. destruct Hin as (t & Ht & Hin).
  exists t. split; [exact Hin |]. rewrite Ht. exact E.
Qed.

End Nonempty.

(** X7: a call that returns had non-empty slices and returns at least one
    row; when the tolerance on the angle nearest to boresight is at most 90
    degrees it returns at least one column too, the sample found near
    theta = 90 being one whose wrapped angle is at most 180. *)
Theorem X7_returned_pattern_nonempty
        vert theta horiz phi method k t1 t2 t3 ws pat theta_out phi_out :
  pattern_from_slices vert theta horiz phi method k t1 t2 t3
    = (ws, inr (pat, theta_out, phi_out)) ->
  vert <> [] /\ theta <> [] /\ phi_out <> [] /\
  ((t1 <= 90)%Q -> theta_out <> []).
Proof.
  intros Hrun. apply pattern_from_slices_returns in Hrun.
  destruct Hrun as (hs & m & Hlen & _ & Hhs & _ & _ & Hc & Hm & -> & -> & _).
  destruct (coverage_passed _ _ _ _ _ _ _ _ Hc) as (t & Hin & Hnear).
  assert (Hv : vert <> []).
  { intros ->. destruct theta; [destruct Hin | discriminate]. }
  assert (Hp : phi_used phi <> []).
  { intros E. rewrite E in Hhs. destruct hs; [| discriminate].
    unfold max_directivity in Hm. destruct vert; discriminate. }
  repeat split; auto.
  - intros ->. destruct Hin.
  - intros Htol E. unfold idx_theta in E. rewrite mask_select_filter in E.
    assert (Hf : In t (filter (fun t => Qle_bool (np_mod t 360) 180) theta)).
    { apply filter_In. split; [exact Hin |].
      apply (near_boresight_kept t t1); assumption. }
    rewrite E in Hf. destruct Hf.
Qed.

Lemma X7_returned_pattern_nonempty_witness :
  Scenario.vert_gain <> [] /\ Scenario.theta <> [] /\ Scenario.phi <> [] /\
  ((default_tol_nearest_angle_from_boresight <= 90)%Q -> Scenario.theta <> []).
Proof.
  apply (X7_returned_pattern_nonempty
           Scenario.vert_gain Scenario.theta
           (HorizVector Scenario.horiz_gain) (Some Scenario.phi)
           "Summing" default_cross_weighted_normalization
           default_tol_nearest_angle_from_boresight
           default_tol_gain_max_vs_boresight
           default_tol_gain_diff_at_slice_intersect
           [] (PatQ (Scenario.outer_sum Scenario.vert_gain
                       Scenario.horiz_gain))
           Scenario.theta Scenario.phi).
  vm_compute. reflexivity.
Defined.

(** ** The gain nearest to boresight *)

Section Nearest.

Open Scope Q_scope.

Lemma argmin_from_first_minimum (t : list Q) :
  forall (p : list Q) (best_i : nat) (best : Q),
    nth_error p best_i = Some best ->
    (forall y, In y p -> best <= y) ->
    (forall j y, (j < best_i)%nat -> nth_error p j = Some y -> best < y) ->
    first_minimum (p ++ t) (argmin_from (length p) best_i best t).
Proof.
  induction t as [| y t IH]; intros p bi b Hb Hmin Hfirst.
  - rewrite app_nil_r. simpl. exists b. auto.
  - assert (Hbi : (bi < length p)%nat)
      by (apply nth_error_Some; congruence).
    replace (p ++ y :: t) with ((p ++ [y]) ++ t)
      by (rewrite <- app_assoc; reflexivity).
    simpl. replace (S (length p)) with (length (p ++ [y]))
      by (rewrite length_app; simpl; lia).
    destruct (Qlt_bool y b) eqn:E.
    + apply Qlt_bool_iff in E. apply IH.
      * rewrite nth_error_app2, Nat.sub_diag by lia. reflexivity.
      * intros z Hz. apply in_app_or in Hz.
        destruct Hz as [Hz | [<- | []]]; [specialize (Hmin z Hz) |]; lra.
      * intros j z Hj Hz. rewrite nth_error_app1 in Hz by exact Hj.
        apply nth_error_In in Hz. specialize (Hmin z Hz). lra.
    + apply Qlt_bool_false in E. apply IH.
      * rewrite nth_error_app1 by exact Hbi. exact Hb.
      * intros z Hz. apply in_app_or in Hz.
        destruct Hz as [Hz | [<- | []]]; [apply Hmin; exact Hz | exact E].
      * intros j z Hj Hz. rewrite nth_error_app1 in Hz by lia.
        apply (Hfirst j); assumption.
Qed.

Lemma np_argmin_first_minimum (l : list Q) :
  l <> [] -> exists i, np_argmin l = ret i /\ first_minimum l i.
Proof.
  destruct l as [| x t]; [congruence |]. intros _.
  exists (argmin_from 1 0 x t). split; [reflexivity |].
  apply (argmin_from_first_minimum t [x] 0%nat x).
  - reflexivity.
  - intros y [<- | []]. lra.
  - intros j y Hj. lia.
Qed.

End Nearest.

(** X8: for a non-empty slice whose gains and angles have the same length,
    the gain compared at boresight is the gain of the first sample whose
    angle, as given, is nearest to the boresight angle: no sample is
    nearer and every earlier sample is farther. *)
Theorem X8_boresight_gain_nearest (slice angles : list Q) (bs : Q) :
  length slice = length angles -> angles <> [] ->
  exists i a g,
    boresight_gain slice angles bs = ret g /\
    nth_error angles i = Some a /\ nth_error slice i = Some g /\
    (forall a', In a' angles -> Qabs (a - bs) <= Qabs (a' - bs))%Q /\
    (forall j a', (j < i)%nat -> nth_error angles j = Some a' ->
                  Qabs (a - bs) < Qabs (a' - bs))%Q.
Proof.
  intros Hlen Hne.
  destruct (np_argmin_first_minimum (map (fun t => Qabs (t - bs)) angles))
    as (i & Hi & x & Hx & Hmin & Hfirst).
  { destruct angles; [congruence | discriminate]. }
  rewrite nth_error_map in Hx.
  destruct (nth_error angles i) as [a |] eqn:Ha; [| discriminate].
  simpl in Hx. injection Hx as <-.
  destruct (nth_error slice i) as [g |] eqn:Hg.
  2:{ apply nth_error_None in Hg.
      assert (i < length angles)%nat by (apply nth_error_Some; congruence).
      lia. }
  exists i, a, g. split.
  { unfold boresight_gain. rewrite Hi, bind_ret. unfold index.
    rewrite Hg. reflexivity. }
  repeat split; auto.
  - intros a' Ha'. apply Hmin. apply in_map_iff. eauto.
  - intros j a' Hj Ha'. apply (Hfirst j); [exact Hj |].
    rewrite nth_error_map, Ha'. reflexivity.
Qed.

Lemma X8_boresight_gain_nearest_witness :
  exists i a g,
    boresight_gain Scenario.vert_gain Scenario.theta 90 = ret g /\
    nth_error Scenario.theta i = Some a /\
    nth_error Scenario.vert_gain i = Some g.
Proof.
  destruct (X8_boresight_gain_nearest Scenario.vert_gain Scenario.theta 90%Q)
    as (i & a & g & H1 & H2 & H3 & _).
  - reflexivity.
  - discriminate.
  - exists i, a, g. auto.
Defined.

(** ** More on the duplicate-angle check *)

Section Repeated_more.

Open Scope Q_scope.

Lemma insert_unique_sorted (x : Z) (l : list Z) :
  StronglySorted Z.lt l -> StronglySorted Z.lt (insert_unique x l).
Proof.
  induction l as [| y t IH]; intros Hs; simpl.
  - repeat constructor.
  - inversion Hs as [| ? ? Ht Hy]; subst.
    destruct (Z.compare_spec x y) as [E | E | E].
    + exact Hs.
    + constructor; [exact Hs |]. constructor; [exact E |].
      eapply Forall_impl; [| exact Hy]. simpl. intros; lia.
    + constructor; [apply IH; exact Ht |].
      apply Forall_forall. intros z Hz. apply insert_unique_In in Hz.
      destruct Hz as [-> | Hz]; [exact E |].
      rewrite Forall_forall in Hy. auto.
Qed.

Lemma np_unique_sorted (l : list Z) : StronglySorted Z.lt (np_unique l).
Proof.
  induction l as [| x t IH]; simpl; [constructor |].
  apply insert_unique_sorted. exact IH.
Qed.

Lemma sorted_nth_le (u : list Z) :
  StronglySorted Z.lt u ->
  forall i j a b,
    (i <= j)%nat -> nth_error u i = Some a -> nth_error u j = Some b ->
    (a <= b)%Z.
Proof.
  induction 1 as [| x t Ht IH Hx]; intros i j a b Hij Ha Hb.
  - destruct i; discriminate.
  - destruct i as [| i], j as [| j]; simpl in *; try lia.
    + injection Ha as <-. injection Hb as <-. lia.
    + injection Ha as <-. apply nth_error_In in Hb.
      rewrite Forall_forall in Hx. specialize (Hx b Hb). lia.
    + apply (IH i j); auto. lia.
Qed.

Lemma mask_select_head {A} (mask : list bool) :
  forall (a : list A) (x : A) (rest : list A),
    length mask = length a ->
    mask_select mask a = x :: rest ->
    exists i,
      nth_error mask i = Some true /\ nth_error a i = Some x /\
      forall j, (j < i)%nat -> nth_error mask j = Some false.
Proof.
  induction mask as [| b mask IH]; intros [| y a] x rest Hlen H;
    simpl in *; try discriminate.
  injection Hlen as Hlen. destruct b.
  - injection H as -> _. exists 0%nat. repeat split; auto. intros j Hj. lia.
  - destruct (IH a x rest Hlen H) as (i & Hm & Ha & Hf).
    exists (S i). repeat split; auto.
    intros [| j] Hj; simpl; [reflexivity | apply Hf; lia].
Qed.

Lemma check_repeated_points_first (vals angles : list Q) (s : string) (a : Z) :
  length vals = length angles ->
  check_repeated_points vals angles s
    = raise (ValueError (RepeatedAngles s a)) ->
  forall a', differing_gains_at vals angles a' -> (a <= a')%Z.
Proof.
  intros Hlen H a' Hd. unfold check_repeated_points in H.
  rewrite Hlen, Nat.eqb_refl, andb_false_r in H.
  set (U := np_unique (map np_round angles)) in *.
  set (g := fun i : nat => _) in H.
  destruct (existsb (fun b : bool => b) (map g (seq 0 (length U))));
    [| discriminate].
  destruct (mask_select (map g (seq 0 (length U))) U) as [| a0 rest] eqn:Hms;
    [discriminate |].
  unfold index in H. simpl in H. injection H as ->.
  apply mask_select_head in Hms;
    [| rewrite length_map, length_seq; reflexivity].
  destruct Hms as (i0 & _ & Hu0 & Hfalse).
  apply differing_repeated in Hd; [| exact Hlen].
  destruct Hd as (i' & Hu' & Hg'). fold U in Hu'.
  destruct (le_lt_dec i0 i') as [Hle | Hlt].
  - exact (sorted_nth_le U (np_unique_sorted _) i0 i' a a' Hle Hu0 Hu').
  - specialize (Hfalse i' Hlt).
    assert (Hi' : (i' < length U)%nat)
      by (apply nth_error_Some; congruence).
    rewrite nth_error_map, nth_error_seq_lt in Hfalse by exact Hi'.
    simpl in Hfalse. unfold g in Hfalse. congruence.
Qed.

End Repeated_more.

(** X9: when the duplicate-angle check raises, the angle it reports is the
    smallest whole degree at which two samples carry different gains. *)
Theorem X9_smallest_repeated_angle_reported
        (vals angles : list Q) (s : string) (a : Z) :
  length vals = length angles ->
  check_repeated_points vals angles s
    = raise (ValueError (RepeatedAngles s a)) ->
  differing_gains_at vals angles a /\
  forall a', differing_gains_at vals angles a' -> (a <= a')%Z.
Proof.
  intros Hlen H. split.
  - destruct (check_repeated_points_cases vals angles s Hlen)
      as [(b & Hr & Hd) | (Hr & _)]; rewrite Hr in H.
    + injection H as ->. exact Hd.
    + discriminate.
  - apply (check_repeated_points_first vals angles s a Hlen H).
Qed.

Lemma X9_smallest_repeated_angle_reported_witness :
  differing_gains_at [1; 2; 3; 4]%Q [20.2; 5.1; 19.9; 4.8]%Q 5 /\
  forall a', differing_gains_at [1; 2; 3; 4]%Q [20.2; 5.1; 19.9; 4.8]%Q a' ->
             (5 <= a')%Z.
Proof.
  apply (X9_smallest_repeated_angle_reported
           [1; 2; 3; 4]%Q [20.2; 5.1; 19.9; 4.8]%Q "el" 5%Z).
  - reflexivity.
  - vm_compute. reflexivity.
Defined.

(** X10: a slice is accepted, whatever its gains, when its angles round to
    pairwise different whole degrees, and whatever its angles, when all its
    gains are equal. *)
Theorem X10_repeated_points_accepted (vals angles : list Q) (s : string) :
  length vals = length angles ->
  NoDup (map np_round angles) \/
  (forall x y, In x vals -> In y vals -> x == y)%Q ->
  check_repeated_points vals angles s = ret tt.
Proof.
  intros Hlen Hok.
  destruct (check_repeated_points_cases vals angles s Hlen)
    as [(a & _ & Hd) | (Hr & _)]; [exfalso | exact Hr].
  destruct Hd as (i & j & ai & aj & x & y & Hi & Hj & Ri & Rj & Vi & Vj & Hne).
  destruct Hok as [Hnd | Heq].
  - assert (Hij : i = j).
    { apply (proj1 (NoDup_nth_error (map np_round angles)) Hnd).
      - rewrite length_map. apply nth_error_Some. congruence.
      - rewrite !nth_error_map, Hi, Hj. simpl. congruence. }
    subst j. apply Hne. assert (x = y) by congruence. subst. reflexivity.
  - apply Hne. apply Heq; eapply nth_error_In; eassumption.
Qed.

Lemma X10_repeated_points_accepted_witness :
  check_repeated_points Scenario.vert_gain Scenario.theta "el" = ret tt.
Proof.
  apply (X10_repeated_points_accepted Scenario.vert_gain Scenario.theta "el").
  - reflexivity.
  - left. vm_compute.
    repeat (constructor; [simpl; intuition discriminate |]). constructor.
Defined.

(** X11: whenever a CrossWeighted call returns, every cell of the returned
    pattern holds a number (the normalised slices being at most 0, no
    division by zero survives) and none exceeds [max_directivity]. *)
Theorem X11_cross_weighted_call_bounded
        vert theta horiz phi k t1 t2 t3 ws pat theta_out phi_out :
  pattern_from_slices vert theta horiz phi "CrossWeighted" k t1 t2 t3
    = (ws, inr (pat, theta_out, phi_out)) ->
  exists m hs,
    max_directivity vert hs = ret m /\
    materialize_horiz vert horiz phi_out = ret hs /\
    forall i j,
      (i < length phi_out)%nat -> (j < length theta_out)%nat ->
      exists x : R,
        patR_nth pat i j = Some (Some x) /\ (x <= Q2R m)%R.
Proof.
  intros Hrun. apply pattern_from_slices_returns in Hrun.
  destruct Hrun as (hs & m & Hlen & Hh & Hhs & _ & _ & _ & Hm & -> & -> & Hp).
  destruct Hp as [[Hs _] | [_ ->]]; [discriminate Hs |].
  exists m, hs. split; [exact Hm |]. split; [exact Hh |]. intros i j Hi Hj.
  set (vsub := mask_select (idx_theta theta) (normalize m vert)).
  assert (Lv : length vsub = length (mask_select (idx_theta theta) theta)).
  { apply length_mask_select. rewrite length_normalize. exact Hlen. }
  rewrite <- Lv in Hj. rewrite <- Hhs, <- (length_normalize m hs) in Hi.
  destruct (meshgrid_nth vsub (normalize m hs) i j Hi) as [EV EH].
  specialize (EH Hj).
  destruct (nth_error vsub j) as [v |] eqn:Hv.
  2:{ apply nth_error_None in Hv. lia. }
  destruct (nth_error (normalize m hs) i) as [h |] eqn:Hhn.
  2:{ apply nth_error_None in Hhn. lia. }
  destruct (normalize_nonpos vert hs m Hm) as [Fv Fh].
  assert (Lev : (v <= 0)%Q).
  { apply nth_error_In in Hv. apply mask_select_incl in Hv.
    rewrite Forall_forall in Fv. auto. }
  assert (Leh : (h <= 0)%Q).
  { apply nth_error_In in Hhn. rewrite Forall_forall in Fh. auto. }
  destruct (cross_weighted_cell_value k (Q2R v) (Q2R h))
    as (x & Hx & Hle & _); auto using Q2R_nonpos.
  exists (x + Q2R m)%R. split; [| lra].
  cbn [denormalize patR_nth]. rewrite grid_nth_map.
  fold vsub. rewrite (cross_weighted_nth k _ _ i j v h EV EH), Hx.
  reflexivity.
Qed.

Lemma X11_cross_weighted_call_bounded_witness :
  exists m hs,
    max_directivity Scenario.vert_gain hs = ret m /\
    materialize_horiz Scenario.vert_gain (HorizVector Scenario.horiz_gain)
      Scenario.phi = ret hs.
Proof.
  assert (Hv : validation Scenario.vert_gain Scenario.theta
                 (HorizVector Scenario.horiz_gain) (Some Scenario.phi)
                 default_tol_nearest_angle_from_boresight
                 default_tol_gain_max_vs_boresight
                 default_tol_gain_diff_at_slice_intersect
               = ([], inr (Scenario.horiz_gain, 0%Q))).
  { vm_compute. reflexivity. }
  destruct (X11_cross_weighted_call_bounded
              Scenario.vert_gain Scenario.theta
              (HorizVector Scenario.horiz_gain) (Some Scenario.phi)
              default_cross_weighted_normalization
              default_tol_nearest_angle_from_boresight
              default_tol_gain_max_vs_boresight
              default_tol_gain_diff_at_slice_intersect
              []
              (combined "CrossWeighted" default_cross_weighted_normalization
                 0%Q
                 (vert_mesh 0%Q Scenario.vert_gain Scenario.theta
                    Scenario.horiz_gain)
                 (horiz_mesh 0%Q Scenario.vert_gain Scenario.theta
                    Scenario.horiz_gain))
              (mask_select (idx_theta Scenario.theta) Scenario.theta)
              Scenario.phi)
    as (m & hs & H1 & H2 & _).
  - rewrite pattern_from_slices_split, Hv. reflexivity.
  - exists m, hs. auto.
Defined.

(** * Further properties of msiread.py *)

Section Data_blocks.

Import MsiRead.

Variable py_float : string -> option Q.

Lemma get_xy_coords_block (good : list string) :
  forall tail k vec,
    Forall (continues_block py_float) good ->
    get_xy_coords py_float (good ++ tail) k vec
    = get_xy_coords py_float tail (k + length good)
        (vec ++ pairs_of py_float good).
Proof.
  induction good as [| l good IH]; intros tail k vec Hgood; simpl.
  - rewrite Nat.add_0_r, app_nil_r. reflexivity.
  - inversion Hgood as [| ? ? Hl Hrest]; subst.
    fold (blank l). destruct (blank l) eqn:Eb.
    + rewrite IH by exact Hrest. f_equal. lia.
    + destruct Hl as [Hl | Hl]; [congruence |].
      unfold data_pair in *.
      destruct (split (reduce_spaces (strip l))) as [| p0 [| p1 [| p2 ps]]];
        try congruence.
      destruct (py_float p0) as [x |]; [| congruence].
      destruct (py_float p1) as [y |]; [| congruence].
      rewrite IH by exact Hrest. rewrite <- app_assoc. simpl.
      f_equal. lia.
Qed.

Lemma get_xy_coords_stop (stop : string) (rest : list string) k vec :
  ~ continues_block py_float stop ->
  exists msg,
    get_xy_coords py_float (stop :: rest) k vec = (vec, msg, S k).
Proof.
  intros Hstop. simpl. fold (blank stop).
  destruct (blank stop) eqn:Eb.
  - exfalso. apply Hstop. left. exact Eb.
  - assert (Hd : data_pair py_float stop = None).
    { destruct (data_pair py_float stop) eqn:E; [| reflexivity].
      exfalso. apply Hstop. right. congruence. }
    unfold data_pair in Hd.
    destruct (split (reduce_spaces (strip stop))) as [| p0 [| p1 [| p2 ps]]];
      eauto.
    destruct (py_float p0) as [x |]; [| eauto].
    destruct (py_float p1) as [y |]; [discriminate | eauto].
Qed.

Lemma skipn_past_block {A} (lines good : list A) (stop : A) (rest : list A)
      (k : nat) :
  skipn k lines = good ++ stop :: rest ->
  skipn (k + length good + 1) lines = rest.
Proof.
  intros H. rewrite <- Nat.add_assoc, Nat.add_comm, <- skipn_skipn, H.
  rewrite skipn_app.
  replace (length good + 1 - length good)%nat with 1%nat by lia.
  rewrite skipn_all2 by lia. reflexivity.
Qed.

End Data_blocks.

Section Section_step.

Import MsiRead.

Variable py_float : string -> option Q.

(** A section line met after a gain value was read, the data block that
    follows being [good] and the lines after it [tail]; [c] is the number
    of lines of [tail] that [get_xy_coords] takes with the block. *)
Lemma section_step (lines : list string) (st : locals) (raw w r : string)
      (g : Q) (good tail : list string) (msg : option nat) (c : nat) :
  nth_error lines (line_num st) = Some raw ->
  parse_line raw = Some (w, r) ->
  w = "horizontal"%string \/ w = "vertical"%string ->
  optional_gain_value st = Some g ->
  skipn (S (line_num st)) lines = good ++ tail ->
  Forall (continues_block py_float) good ->
  get_xy_coords py_float tail (S (line_num st) + length good)
    (pairs_of py_float good)
  = (pairs_of py_float good, msg, (S (line_num st) + length good + c)%nat) ->
  exists st',
    step py_float lines st = ret st' /\
    line_num st' = (S (line_num st) + length good + c)%nat /\
    section_of w st'
      = set_Magnitude
          (set_Azimuth (section_of w st) (map fst (pairs_of py_float good)))
          (trans_data g (pairs_of py_float good)) /\
    other_section_of w st' = other_section_of w st /\
    optional_gain_value st' = Some g /\
    Optional st' = Optional st.
Proof.
  intros Hraw Hparse Hw Hg Hskip Hgood Htail.
  unfold step, index. rewrite Hraw, bind_ret, Hparse.
  unfold dispatch.
  destruct Hw as [-> | ->];
    cbn [in_list existsb String.eqb Ascii.eqb Bool.eqb orb andb];
    cbv iota;
    cbn [line_num with_line_num with_counts];
    rewrite Hskip, (get_xy_coords_block py_float good) by exact Hgood;
    cbn [app]; rewrite Htail;
    cbn [optional_gain_value with_line_num with_counts]; rewrite Hg;
    cbn [TransData with_slices with_TransData with_line_num with_counts];
    eexists; (split; [reflexivity |]);
    cbn [line_num with_slices with_TransData with_line_num];
    (split; [reflexivity |]);
    repeat split; simpl; auto.
Qed.

End Section_step.

(** X12: a section line met after a gain value [g] was read fills its
    dictionary from the data lines that follow: the first column under
    ['Azimuth'] (for both sections), [g] minus the second column under
    ['Magnitude'], the other dictionary being left alone.  The line that
    ends the block is taken with it: the loop resumes on the line after,
    so that a header ending a block is not read as a header. *)
Theorem X12_section_block
        (py_float : string -> option Q) (lines : list string)
        (st : MsiRead.locals) (raw w r : string) (g : Q)
        (good : list string) (stop : string) (rest : list string) :
  nth_error lines (MsiRead.line_num st) = Some raw ->
  MsiRead.parse_line raw = Some (w, r) ->
  w = "horizontal"%string \/ w = "vertical"%string ->
  MsiRead.optional_gain_value st = Some g ->
  skipn (S (MsiRead.line_num st)) lines = good ++ stop :: rest ->
  Forall (continues_block py_float) good ->
  ~ continues_block py_float stop ->
  exists st',
    MsiRead.step py_float lines st = ret st' /\
    MsiRead.line_num st' = (S (MsiRead.line_num st) + length good + 1)%nat /\
    skipn (MsiRead.line_num st') lines = rest /\
    MsiRead.Azimuth (section_of w st')
      = Some (map fst (pairs_of py_float good)) /\
    MsiRead.Magnitude (section_of w st')
      = Some (MsiRead.trans_data g (pairs_of py_float good)) /\
    other_section_of w st' = other_section_of w st /\
    MsiRead.optional_gain_value st' = Some g.
Proof.
  intros Hraw Hparse Hw Hg Hskip Hgood Hstop.
  destruct (get_xy_coords_stop py_float stop rest
              (S (MsiRead.line_num st) + length good)
              (pairs_of py_float good) Hstop) as [msg Hmsg].
  destruct (section_step py_float lines st raw w r g good (stop :: rest)
              msg 1 Hraw Hparse Hw Hg Hskip Hgood) as
      (st' & H1 & H2 & H3 & H6 & H7 & _).
  { rewrite Hmsg. f_equal. lia. }
  exists st'. rewrite H3. repeat split; auto.
  rewrite H2. apply (skipn_past_block lines good stop rest _ Hskip).
Qed.

(** A horizontal block of two data lines ended by the vertical header. *)
Lemma X12_section_block_witness :
  exists st',
    MsiRead.step MsiRead.float_of_digits
      ["GAIN 10 dBi"; "HORIZONTAL 2"; "0 1"; "1 2"; "VERTICAL 2"; "0 3"]%string
      (MsiRead.with_gain (MsiRead.with_line_num MsiRead.initial 1) (Some 10%Q))
    = ret st' /\
    skipn (MsiRead.line_num st')
      ["GAIN 10 dBi"; "HORIZONTAL 2"; "0 1"; "1 2"; "VERTICAL 2"; "0 3"]%string
    = ["0 3"]%string /\
    MsiRead.Magnitude (MsiRead.Horizontal st') = Some [9; 8]%Q.
Proof.
  destruct (X12_section_block MsiRead.float_of_digits
              ["GAIN 10 dBi"; "HORIZONTAL 2"; "0 1"; "1 2"; "VERTICAL 2";
               "0 3"]%string
              (MsiRead.with_gain (MsiRead.with_line_num MsiRead.initial 1)
                 (Some 10%Q))
              "HORIZONTAL 2"%string "horizontal"%string "2"%string 10%Q
              ["0 1"; "1 2"]%string "VERTICAL 2"%string ["0 3"]%string)
    as (st' & H1 & _ & H3 & _ & H5 & _).
  - reflexivity.
  - reflexivity.
  - left. reflexivity.
  - reflexivity.
  - reflexivity.
  - apply Forall_cons; [right; vm_compute; discriminate |].
    apply Forall_cons; [right; vm_compute; discriminate |].
    apply Forall_nil.
  - intros [H | H]; vm_compute in H; [discriminate | apply H; reflexivity].
  - exists st'. split; [exact H1 |]. split; [exact H3 |].
    change (MsiRead.Horizontal st') with (section_of "horizontal" st').
    rewrite H5. vm_compute. reflexivity.
Defined.

(** X13: every iteration of the reader's loop that does not raise moves
    [line_num] forward by at least one line, so the loop ends within
    [len(lines)] iterations: the reader always comes to a result. *)
Theorem X13_reader_loop_ends
        (py_float : string -> option Q) (lines : list string) :
  (forall st st' ws,
      MsiRead.step py_float lines st = (ws, inr st') ->
      (MsiRead.line_num st < MsiRead.line_num st')%nat) /\
  (forall fuel st,
      (length lines - MsiRead.line_num st <= fuel)%nat ->
      exists r, MsiRead.loop py_float fuel lines st = Some r) /\
  exists r, MsiRead.msiread py_float lines = Some r.
Proof.
  split; [| split].
  - intros st st' ws. apply step_advances.
  - apply loop_total.
  - apply msiread_total.
Qed.

(** ** Files without sections *)

Section Plain_files.

Import MsiRead.

Variable py_float : string -> option Q.

Lemma dict_get_set_same (d : dict) (key : string) (v : opt_value) :
  dict_get (dict_set d key v) key = Some v.
Proof.
  induction d as [| [k v'] t IH]; simpl.
  - rewrite String.eqb_refl. reflexivity.
  - destruct (String.eqb k key) eqn:E; simpl; rewrite E; auto.
Qed.

Lemma dict_get_set_other (d : dict) (key key' : string) (v : opt_value) :
  key' <> key -> dict_get (dict_set d key v) key' = dict_get d key'.
Proof.
  intros Hne. induction d as [| [k v'] t IH]; simpl.
  - destruct (String.eqb key key') eqn:E; [| reflexivity].
    apply String.eqb_eq in E. congruence.
  - destruct (String.eqb k key) eqn:E; simpl.
    + apply String.eqb_eq in E. subst k.
      destruct (String.eqb key key') eqn:E'; [| reflexivity].
      apply String.eqb_eq in E'. congruence.
    + destruct (String.eqb k key'); auto.
Qed.

Lemma in_list_In (w : string) (l : list string) :
  in_list w l = true <-> In w l.
Proof.
  unfold in_list. rewrite existsb_exists. split.
  - intros (x & Hx & E). apply String.eqb_eq in E. subst. exact Hx.
  - intros H. exists w. split; [exact H | apply String.eqb_refl].
Qed.

(** A plain line stores one entry under its first word and nothing else. *)
Lemma dispatch_plain (lines : list string) (w rest : string) (st : locals) :
  ~ In w ["horizontal"; "vertical"; "frequency"; "gain"]%string ->
  exists v,
    dispatch py_float lines w rest st
    = ret (with_Optional st (dict_set (Optional st) w v)).
Proof.
  intros Hw. unfold dispatch.
  destruct (in_list w ["name"; "make"]%string); [eauto |].
  destruct (in_list w ["h_width"; "v_width"; "front_to_back"; "frequency"]%string).
  { destruct (String.eqb w "frequency") eqn:E; [| eauto].
    apply String.eqb_eq in E. subst. exfalso. apply Hw. simpl. auto. }
  destruct (String.eqb w "tilt"); [eauto |].
  destruct (String.eqb w "gain") eqn:E.
  { apply String.eqb_eq in E. subst. exfalso. apply Hw. simpl. auto. }
  destruct (String.eqb w "polarization"); [eauto |].
  destruct (String.eqb w "comment"); [eauto |].
  destruct (in_list w ["horizontal"; "vertical"]%string) eqn:S; [| eauto].
  apply in_list_In in S. exfalso. apply Hw. simpl in *. tauto.
Qed.

Lemma loop_plain (lines : list string) :
  Forall plain_line lines ->
  forall fuel st,
    plain_invariant lines st ->
    (length lines - line_num st <= fuel)%nat ->
    exists st',
      loop py_float fuel lines st = Some (ret st') /\
      plain_invariant lines st' /\ (length lines <= line_num st')%nat.
Proof.
  intros Hplain.
  induction fuel as [| fuel IH]; intros st Hinv Hfuel.
  - exists st. simpl.
    replace (line_num st <? length lines)%nat with false
      by (symmetry; apply Nat.ltb_ge; lia).
    split; [reflexivity | split; [exact Hinv | lia]].
  - rewrite loop_S. destruct (line_num st <? length lines)%nat eqn:E.
    2:{ apply Nat.ltb_ge in E. exists st. auto. }
    apply Nat.ltb_lt in E. unfold step, index.
    destruct (nth_error lines (line_num st)) as [raw |] eqn:Hraw.
    2:{ apply nth_error_None in Hraw. lia. }
    rewrite bind_ret.
    destruct Hinv as (HH & HV & Hgain & Hkeys).
    destruct (parse_line raw) as [[w rest] |] eqn:Hparse.
    + assert (Hkw : keyword raw = Some w)
        by (apply keyword_parse; eauto).
      assert (Hw : ~ In w ["horizontal"; "vertical"; "frequency"; "gain"]%string).
      { rewrite Forall_forall in Hplain.
        apply (Hplain raw); [eapply nth_error_In; exact Hraw | exact Hkw]. }
      destruct (dispatch_plain lines w rest
                  (with_line_num st (S (line_num st))) Hw) as [v ->].
      apply IH; [| simpl; lia].
      repeat split; simpl; auto.
      * rewrite dict_get_set_other; [exact Hgain |].
        intros <-. apply Hw. simpl. auto.
      * intros j l w' Hj Hl Hk.
        destruct (string_dec w' w) as [-> | Hne].
        -- rewrite dict_get_set_same. discriminate.
        -- rewrite dict_get_set_other by exact Hne.
           assert (Hjn : j <> line_num st).
           { intros ->. rewrite Hraw in Hl. injection Hl as <-. congruence. }
           apply (Hkeys j l w'); auto. lia.
    + apply IH; [| simpl; lia].
      repeat split; simpl; auto.
      intros j l w' Hj Hl Hk.
      assert (Hjn : j <> line_num st).
      { intros ->. rewrite Hraw in Hl. injection Hl as <-.
        unfold keyword in Hk. rewrite Hparse in Hk. discriminate. }
      apply (Hkeys j l w'); auto. lia.
Qed.

End Plain_files.

(** X14: a file none of whose lines is a section, gain or frequency line is
    read without error: both slice dictionaries come back with every entry
    [None], no unit is set, and [Optional] has an entry under the first
    word of every line that is not blank, and none under ['gain']. *)
Theorem X14_file_without_sections
        (py_float : string -> option Q) (lines : list string) :
  Forall plain_line lines ->
  exists opt,
    MsiRead.msiread py_float lines
      = Some (ret (MsiRead.empty_slice, MsiRead.empty_slice, opt)) /\
    MsiRead.dict_get opt "gain" = None /\
    forall l w,
      In l lines -> MsiRead.keyword l = Some w ->
      MsiRead.dict_get opt w <> None.
Proof.
  intros Hplain.
  destruct (loop_plain py_float lines Hplain (length lines) MsiRead.initial)
    as (st' & Hloop & (HH & HV & Hgain & Hkeys) & Hend).
  - repeat split; try reflexivity. intros j l w Hj. simpl in Hj. lia.
  - simpl. lia.
  - exists (MsiRead.Optional st'). split; [| split].
    + unfold MsiRead.msiread, MsiRead.msiread_on. rewrite Hloop, bind_ret.
      unfold MsiRead.finish. rewrite Hgain, HH, HV. reflexivity.
    + exact Hgain.
    + intros l w Hl Hk. apply In_nth_error in Hl. destruct Hl as [j Hj].
      apply (Hkeys j l w); auto.
      assert (j < length lines)%nat by (apply nth_error_Some; congruence).
      lia.
Qed.

Lemma X14_file_without_sections_witness :
  exists opt,
    MsiRead.msiread MsiRead.float_of_digits
      ["NAME antenna"; ""; "TILT electrical"; "H_WIDTH 65"]%string
    = Some (ret (MsiRead.empty_slice, MsiRead.empty_slice, opt)) /\
    MsiRead.dict_get opt "gain" = None.
Proof.
  destruct (X14_file_without_sections MsiRead.float_of_digits
              ["NAME antenna"; ""; "TILT electrical"; "H_WIDTH 65"]%string)
    as (opt & H1 & H2 & _).
  - repeat constructor; intros w Hw; vm_compute in Hw;
      try discriminate; injection Hw as <-; simpl;
      intuition discriminate.
  - exists opt. auto.
Defined.

(** ** Stretches of plain lines *)

Section Plain_stretch.

Import MsiRead.

Variable py_float : string -> option Q.

(** Over a stretch of [d] plain lines the loop moves [d] lines forward and
    touches nothing but [Optional], whose entry ['gain'] it leaves alone. *)
Lemma loop_plain_stretch (lines : list string) :
  forall d fuel st,
    (line_num st + d <= length lines)%nat ->
    (forall j l,
        (line_num st <= j < line_num st + d)%nat ->
        nth_error lines j = Some l -> plain_line l) ->
    exists st',
      loop py_float (d + fuel) lines st = loop py_float fuel lines st' /\
      line_num st' = (line_num st + d)%nat /\ same_slices st st'.
Proof.
  induction d as [| d IH]; intros fuel st Hlen Hplain.
  - exists st. rewrite Nat.add_0_r. repeat split; reflexivity.
  - cbn [Nat.add]. rewrite loop_S.
    replace (line_num st <? length lines)%nat with true
      by (symmetry; apply Nat.ltb_lt; lia).
    unfold step, index.
    destruct (nth_error lines (line_num st)) as [raw |] eqn:Hraw.
    2:{ apply nth_error_None in Hraw. lia. }
    rewrite bind_ret.
    set (st1 := with_line_num st (S (line_num st))).
    assert (Hgo : forall st2,
               line_num st2 = S (line_num st) -> same_slices st st2 ->
               exists st',
                 loop py_float (d + fuel) lines st2
                 = loop py_float fuel lines st' /\
                 line_num st' = (line_num st + S d)%nat /\
                 same_slices st st').
    { intros st2 Hln (H1 & H2 & H3 & H4 & H5).
      destruct (IH fuel st2) as (st' & Hl & Hn & (K1 & K2 & K3 & K4 & K5)).
      - rewrite Hln. lia.
      - intros j l Hj. apply Hplain. rewrite Hln in Hj. lia.
      - exists st'. split; [exact Hl |]. split; [rewrite Hn, Hln; lia |].
        repeat split; congruence. }
    destruct (parse_line raw) as [[w rest] |] eqn:Hparse.
    + assert (Hw : ~ In w ["horizontal"; "vertical"; "frequency"; "gain"]%string).
      { apply (Hplain (line_num st) raw); [lia | exact Hraw |].
        apply keyword_parse. eauto. }
      destruct (dispatch_plain py_float lines w rest st1 Hw) as [v ->].
      apply Hgo; [reflexivity |].
      repeat split. simpl. apply dict_get_set_other.
      intros <-. apply Hw. simpl. auto.
    + apply Hgo; [reflexivity |]. repeat split.
Qed.

Lemma nth_error_middle {A} (pre : list A) (x : A) (post : list A) :
  nth_error (pre ++ x :: post) (length pre) = Some x.
Proof. rewrite nth_error_app2, Nat.sub_diag by lia. reflexivity. Qed.

Lemma plain_prefix (pre : list string) (tail : list string) (n : nat) :
  Forall plain_line pre ->
  forall j l,
    (n <= j < n + length pre)%nat ->
    nth_error (pre ++ tail) (j - n) = Some l -> plain_line l.
Proof.
  intros Hpre j l Hj Hl. rewrite nth_error_app1 in Hl by lia.
  rewrite Forall_forall in Hpre. apply Hpre. eapply nth_error_In. exact Hl.
Qed.

End Plain_stretch.

(** X15: after any number of plain lines, a frequency line whose value is
    not a number makes the reader raise a [RuntimeError] (the [None] value
    is multiplied by 1e6), and so does a gain line with nothing after the
    word 'gain' (the first word of an empty list is asked for). *)
Theorem X15_malformed_line_raises
        (py_float : string -> option Q)
        (pre : list string) (raw : string) (post : list string)
        (w r : string) :
  Forall plain_line pre ->
  MsiRead.parse_line raw = Some (w, r) ->
  (w = "frequency"%string /\ py_float (MsiRead.strip r) = None) \/
  (w = "gain"%string /\ MsiRead.split r = []) ->
  exists e,
    MsiRead.msiread py_float (pre ++ raw :: post)
      = Some (raise (RuntimeError e)) /\
    (w = "frequency"%string -> e = TypeError) /\
    (w = "gain"%string -> e = IndexError).
Proof.
  intros Hpre Hparse Hbad.
  set (lines := pre ++ raw :: post).
  assert (Hlen : length lines = (length pre + S (length post))%nat).
  { unfold lines. rewrite length_app. reflexivity. }
  destruct (loop_plain_stretch py_float lines (length pre) (S (length post))
              MsiRead.initial) as (st & Hloop & Hln & _).
  - simpl. lia.
  - intros j l Hj Hl. simpl in Hj.
    apply (plain_prefix pre (raw :: post) 0 Hpre j l); [simpl; lia |].
    rewrite Nat.sub_0_r. exact Hl.
  - simpl in Hln.
    assert (Hstep : exists e,
               MsiRead.step py_float lines st = raise e /\
               (w = "frequency"%string -> e = TypeError) /\
               (w = "gain"%string -> e = IndexError)).
    { unfold MsiRead.step, index. rewrite Hln. unfold lines.
      rewrite nth_error_middle, bind_ret, Hparse.
      unfold MsiRead.dispatch.
      destruct Hbad as [[-> Hf] | [-> Hs]];
        cbn [MsiRead.in_list existsb String.eqb Ascii.eqb Bool.eqb orb andb];
        cbv iota.
      - unfold MsiRead.get_scalar_numeric_value. rewrite Hf.
        exists TypeError. repeat split; [discriminate].
      - unfold MsiRead.get_value_with_unit. rewrite Hs. simpl.
        exists IndexError. repeat split; [discriminate]. }
    destruct Hstep as (e & Hstep & He).
    exists e. split; [| exact He].
    unfold MsiRead.msiread, MsiRead.msiread_on.
    rewrite Hlen, Hloop, loop_S.
    replace (MsiRead.line_num st <? length lines)%nat with true
      by (symmetry; apply Nat.ltb_lt; lia).
    rewrite Hstep. reflexivity.
Qed.

Lemma X15_malformed_line_raises_witness :
  exists e,
    MsiRead.msiread MsiRead.float_of_digits
      (["NAME antenna"%string]
         ++ "FREQUENCY high"%string :: ["GAIN 10 dBi"%string])
    = Some (raise (RuntimeError e)).
Proof.
  destruct (X15_malformed_line_raises MsiRead.float_of_digits
              ["NAME antenna"]%string "FREQUENCY high"%string
              ["GAIN 10 dBi"]%string "frequency"%string "high"%string)
    as (e & He & _).
  - apply Forall_cons; [| apply Forall_nil].
    intros w Hw. vm_compute in Hw. injection Hw as <-.
    simpl. intuition discriminate.
  - reflexivity.
  - left. split; reflexivity.
  - exists e. exact He.
Defined.

(** ** A file with one gain line and one section *)

Section One_section.

Import MsiRead.

Variable py_float : string -> option Q.

Lemma loop_done (fuel : nat) (lines : list string) (st : locals) :
  (length lines <= line_num st)%nat ->
  loop py_float fuel lines st = Some (ret st).
Proof.
  intros H. destruct fuel; simpl;
    replace (line_num st <? length lines)%nat with false
      by (symmetry; apply Nat.ltb_ge; exact H);
    reflexivity.
Qed.

Lemma skipn_middle {A} (a : list A) (x : A) (b : list A) :
  skipn (S (length a)) (a ++ x :: b) = b.
Proof.
  replace (S (length a)) with (length (a ++ [x]))
    by (rewrite length_app; simpl; lia).
  replace (a ++ x :: b) with ((a ++ [x]) ++ b)
    by (rewrite <- app_assoc; reflexivity).
  rewrite skipn_app, Nat.sub_diag, skipn_all. reflexivity.
Qed.

Lemma nth_error_segment {A} (a b c : list A) (j : nat) (l : A) :
  (length a <= j < length a + length b)%nat ->
  nth_error (a ++ b ++ c) j = Some l -> In l b.
Proof.
  intros Hj H. rewrite nth_error_app2 in H by lia.
  rewrite nth_error_app1 in H by lia. eapply nth_error_In. exact H.
Qed.

(** A gain line with a value stores the value and the unit. *)
Lemma gain_step (lines : list string) (st : locals) (raw rg u : string)
      (g : Q) :
  nth_error lines (line_num st) = Some raw ->
  parse_line raw = Some ("gain"%string, rg) ->
  get_value_with_unit py_float rg = ret (Some g, u) ->
  exists st',
    step py_float lines st = ret st' /\
    line_num st' = S (line_num st) /\
    Horizontal st' = Horizontal st /\ Vertical st' = Vertical st /\
    optional_gain_value st' = Some g /\
    dict_get (Optional st') "gain" = Some (VGain (Some g) u).
Proof.
  intros Hraw Hparse Hgv. unfold step, index.
  rewrite Hraw, bind_ret, Hparse. unfold dispatch.
  cbn [in_list existsb String.eqb Ascii.eqb Bool.eqb orb andb]. cbv iota.
  rewrite Hgv, bind_ret. eexists. split; [reflexivity |].
  repeat split. simpl. apply dict_get_set_same.
Qed.

End One_section.

(** X16: a file made of plain lines, one gain line with a value [g] and a
    unit, more plain lines, one section line, its block of data lines and
    then either nothing or one line that ends the block followed by plain
    lines, is read without error.  The dictionary of the section holds the
    first column under ['Azimuth'] and [g] minus the second column under
    ['Magnitude']; the other dictionary holds neither; both hold the unit
    'dBi' exactly when the gain line gives that unit; [Optional] holds the
    gain and its unit. *)
Theorem X16_gain_then_section
        (py_float : string -> option Q)
        (pre : list string) (gl : string) (mid : list string) (hl : string)
        (good tail : list string) (rg w rh u : string) (g : Q) :
  Forall plain_line pre -> Forall plain_line mid ->
  MsiRead.parse_line gl = Some ("gain"%string, rg) ->
  MsiRead.get_value_with_unit py_float rg = ret (Some g, u) ->
  MsiRead.parse_line hl = Some (w, rh) ->
  w = "horizontal"%string \/ w = "vertical"%string ->
  Forall (continues_block py_float) good ->
  tail = [] \/
  (exists stop post,
      tail = stop :: post /\ ~ continues_block py_float stop /\
      Forall plain_line post) ->
  let azimuth := map fst (pairs_of py_float good) in
  let magnitude := MsiRead.trans_data g (pairs_of py_float good) in
  exists opt,
    MsiRead.msiread py_float (pre ++ gl :: mid ++ hl :: good ++ tail)
    = Some (ret (if String.eqb w "horizontal"
                 then (read_slice azimuth magnitude (units_of u),
                       unread_slice (units_of u), opt)
                 else (unread_slice (units_of u),
                       read_slice azimuth magnitude (units_of u), opt))) /\
    MsiRead.dict_get opt "gain" = Some (MsiRead.VGain (Some g) u).
Proof.
  intros Hpre Hmid Hgl Hgv Hhl Hw Hgood Htail azimuth magnitude.
  set (lines := pre ++ gl :: mid ++ hl :: good ++ tail).
  assert (Hlen : length lines
                 = (length pre + S (length mid + S (length good + length tail)))%nat).
  { unfold lines. repeat (rewrite length_app; simpl). reflexivity. }
  rewrite Forall_forall in Hpre, Hmid.
  (* the plain lines before the gain line *)
  destruct (loop_plain_stretch py_float lines (length pre)
              (S (length mid + S (length good + length tail)))
              MsiRead.initial) as (sa & La & Na & Sa).
  { simpl. lia. }
  { intros j l Hj Hl. simpl in Hj. unfold lines in Hl.
    rewrite nth_error_app1 in Hl by lia.
    apply Hpre. eapply nth_error_In. exact Hl. }
  simpl in Na. destruct Sa as (SaH & SaV & _ & _ & _).
  (* the gain line *)
  destruct (gain_step py_float lines sa gl rg u g)
    as (sb & Sb & Nb & HbH & HbV & Hbg & Hbd); auto.
  { rewrite Na. apply nth_error_middle. }
  (* the plain lines before the section line *)
  destruct (loop_plain_stretch py_float lines (length mid)
              (S (length good + length tail)) sb) as (sc & Lc & Nc & Sc).
  { rewrite Nb, Na. lia. }
  { intros j l Hj Hl. rewrite Nb, Na in Hj. apply Hmid.
    assert (E : lines = (pre ++ [gl]) ++ mid ++ (hl :: good ++ tail))
      by (unfold lines; rewrite <- app_assoc; reflexivity).
    rewrite E in Hl. apply nth_error_segment in Hl; [exact Hl |].
    rewrite length_app. simpl. lia. }
  rewrite Nb, Na in Nc. destruct Sc as (ScH & ScV & Scg & _ & Scd).
  (* the section line and its block *)
  assert (EA : lines = (pre ++ gl :: mid) ++ hl :: (good ++ tail))
    by (unfold lines; rewrite <- app_assoc; reflexivity).
  assert (LA : length (pre ++ gl :: mid) = MsiRead.line_num sc)
    by (rewrite length_app, Nc; simpl; lia).
  assert (Htl : exists msg c,
             MsiRead.get_xy_coords py_float tail
               (S (MsiRead.line_num sc) + length good)
               (pairs_of py_float good)
             = (pairs_of py_float good, msg,
                (S (MsiRead.line_num sc) + length good + c)%nat) /\
             (c <= length tail)%nat /\
             forall l, In l (skipn c tail) -> plain_line l).
  { destruct Htail as [-> | (stop & post & -> & Hstop & Hpost)].
    - exists None, 0%nat. simpl. rewrite Nat.add_0_r.
      repeat split; auto. intros l [].
    - destruct (get_xy_coords_stop py_float stop post
                  (S (MsiRead.line_num sc) + length good)
                  (pairs_of py_float good) Hstop) as [msg Hmsg].
      exists msg, 1%nat. rewrite Hmsg. rewrite Forall_forall in Hpost.
      repeat split; simpl; auto; try lia. f_equal. lia. }
  destruct Htl as (msg & c & Hxy & Hc & Hpost).
  destruct (section_step py_float lines sc hl w rh g good tail msg c)
    as (sd & Sd & Nd & Hsec & Hoth & _ & Hopt); auto.
  { rewrite EA, <- LA. apply nth_error_middle. }
  { congruence. }
  { rewrite EA, <- LA. apply skipn_middle. }
  (* the plain lines after the block *)
  destruct (loop_plain_stretch py_float lines (length tail - c)
              (length good + c) sd) as (se & Le & Ne & Se).
  { rewrite Nd, <- LA, Hlen, length_app. simpl. lia. }
  { intros j l Hj Hl. apply Hpost.
    assert (E : lines
                = ((pre ++ gl :: mid) ++ hl :: good ++ firstn c tail)
                    ++ skipn c tail ++ []).
    { rewrite EA, app_nil_r, <- !app_assoc. simpl.
      rewrite <- !app_assoc, firstn_skipn. reflexivity. }
    rewrite E in Hl. apply nth_error_segment in Hl; [exact Hl |].
    rewrite length_skipn. rewrite Nd in Hj.
    repeat (rewrite length_app; simpl). rewrite firstn_length_le by exact Hc.
    rewrite length_app in LA. simpl in LA. lia. }
  destruct Se as (SeH & SeV & _ & _ & Sed).
  assert (Hend : (length lines <= MsiRead.line_num se)%nat).
  { rewrite Ne, Nd, <- LA, Hlen, length_app. simpl. lia. }
  (* the run *)
  assert (Hrun : MsiRead.loop py_float (length lines) lines MsiRead.initial
                 = Some (ret se)).
  { rewrite Hlen, La, loop_S.
    replace (MsiRead.line_num sa <? length lines)%nat with true
      by (symmetry; apply Nat.ltb_lt; lia).
    rewrite Sb. unfold ret at 1. cbv iota. rewrite Lc, loop_S.
    replace (MsiRead.line_num sc <? length lines)%nat with true
      by (symmetry; apply Nat.ltb_lt; lia).
    rewrite Sd. unfold ret at 1. cbv iota.
    replace (length good + length tail)%nat
      with (length tail - c + (length good + c))%nat by lia.
    rewrite Le. apply loop_done. exact Hend. }
  assert (Hgain : MsiRead.dict_get (MsiRead.Optional se) "gain"
                  = Some (MsiRead.VGain (Some g) u)).
  { rewrite Sed, Hopt, Scd. exact Hbd. }
  exists (MsiRead.Optional se). split; [| exact Hgain].
  unfold MsiRead.msiread, MsiRead.msiread_on.
  rewrite Hrun, bind_ret. unfold MsiRead.finish. rewrite Hgain.
  unfold section_of, other_section_of in Hsec, Hoth.
  unfold units_of.
  destruct Hw as [-> | ->]; simpl in Hsec, Hoth |- *;
    rewrite SeH, SeV, Hsec, Hoth, ScH, ScV, HbH, HbV, SaH, SaV;
    destruct (String.eqb u "dBi"); reflexivity.
Qed.

(** The usual layout: the vertical header ends the horizontal block. *)
Lemma X16_gain_then_section_witness :
  exists opt,
    MsiRead.msiread MsiRead.float_of_digits
      ["NAME antenna"; "GAIN 10 dBi"; "HORIZONTAL 2"; "0 1"; "1 2";
       "VERTICAL 2"; "0 3"]%string
    = Some (ret (read_slice [0; 1]%Q [9; 8]%Q (Some "dBi"%string),
                 unread_slice (Some "dBi"%string), opt)).
Proof.
  destruct (X16_gain_then_section MsiRead.float_of_digits
              ["NAME antenna"%string] "GAIN 10 dBi"%string []
              "HORIZONTAL 2"%string ["0 1"; "1 2"]%string
              ["VERTICAL 2"; "0 3"]%string
              "10 dBi"%string "horizontal"%string "2"%string "dBi"%string
              10%Q) as (opt & Hrun & _).
  - apply Forall_cons; [| apply Forall_nil].
    intros w Hw. vm_compute in Hw. injection Hw as <-.
    simpl. intuition discriminate.
  - apply Forall_nil.
  - reflexivity.
  - reflexivity.
  - reflexivity.
  - left. reflexivity.
  - apply Forall_cons; [right; vm_compute; discriminate |].
    apply Forall_cons; [right; vm_compute; discriminate |].
    apply Forall_nil.
  - right. exists "VERTICAL 2"%string, ["0 3"%string].
    split; [reflexivity |]. split.
    + intros [H | H]; vm_compute in H; [discriminate | apply H; reflexivity].
    + apply Forall_cons; [| apply Forall_nil].
      intros w Hw. vm_compute in Hw. injection Hw as <-.
      simpl. intuition discriminate.
  - exists opt. exact Hrun.
Defined.

(** ** The words of a line *)

Section Words.

Import MsiRead.

Open Scope string_scope.

Lemma append_empty_r (s : string) : s ++ "" = s.
Proof. induction s as [| c t IH]; simpl; [| rewrite IH]; reflexivity. Qed.

Lemma append_assoc' (a b c : string) : (a ++ b) ++ c = a ++ (b ++ c).
Proof. induction a as [| x t IH]; simpl; [| rewrite IH]; reflexivity. Qed.

Lemma length_append' (a b : string) :
  String.length (a ++ b) = (String.length a + String.length b)%nat.
Proof. induction a as [| x t IH]; simpl; [| rewrite IH]; reflexivity. Qed.

Lemma is_empty_append (a b : string) :
  is_empty b = false -> is_empty (a ++ b) = false.
Proof. destruct a; simpl; auto. Qed.

Lemma no_space_append (a b : string) :
  no_space (a ++ b) = no_space a && no_space b.
Proof.
  induction a as [| c t IH]; simpl; [reflexivity |].
  rewrite IH, andb_assoc. reflexivity.
Qed.

(** *** [split] *)

Lemma split_from_words (s : string) :
  forall cur, no_space cur = true -> Forall word (split_from s cur).
Proof.
  induction s as [| c t IH]; intros cur Hcur; simpl.
  - destruct (is_empty cur) eqn:E; constructor; [split; assumption | constructor].
  - destruct (is_space c) eqn:Ec.
    + destruct (is_empty cur) eqn:E; [apply IH; reflexivity |].
      constructor; [split; assumption | apply IH; reflexivity].
    + apply IH. rewrite no_space_append, Hcur. simpl. rewrite Ec. reflexivity.
Qed.

Lemma split_from_cur (s : string) :
  forall cur, is_empty cur = false -> split_from s cur <> [].
Proof.
  induction s as [| c t IH]; intros cur Hcur; simpl.
  - rewrite Hcur. discriminate.
  - destruct (is_space c); [rewrite Hcur; discriminate |].
    apply IH. apply is_empty_append. reflexivity.
Qed.

Lemma split_lstrip (s : string) : split (lstrip s) = split s.
Proof.
  unfold split. induction s as [| c t IH]; simpl; [reflexivity |].
  destruct (is_space c) eqn:E; [exact IH |]. simpl. rewrite E. reflexivity.
Qed.

Lemma split_from_rstrip (s : string) :
  forall cur, split_from (rstrip s) cur = split_from s cur.
Proof.
  induction s as [| c t IH]; intros cur; simpl; [reflexivity |].
  destruct (is_space c) eqn:Ec; simpl.
  - destruct (is_empty (rstrip t)) eqn:Et.
    + assert (Hnil : split_from t "" = []).
      { rewrite <- IH. destruct (rstrip t); [reflexivity | discriminate]. }
      simpl. rewrite Hnil. reflexivity.
    + simpl. rewrite Ec, !IH. reflexivity.
  - rewrite Ec, IH. reflexivity.
Qed.

Lemma split_strip (s : string) : split (strip s) = split s.
Proof.
  unfold strip. rewrite split_lstrip. unfold split. apply split_from_rstrip.
Qed.

Lemma is_empty_lstrip (s : string) :
  is_empty (lstrip s) = true <-> split s = [].
Proof.
  unfold split. induction s as [| c t IH]; simpl; [tauto |].
  destruct (is_space c) eqn:E; [exact IH |]. simpl. split; [discriminate |].
  intros H. exfalso. revert H. apply split_from_cur. reflexivity.
Qed.

Lemma is_empty_strip (s : string) :
  is_empty (strip s) = true <-> split s = [].
Proof.
  unfold strip. rewrite is_empty_lstrip. unfold split.
  rewrite split_from_rstrip. tauto.
Qed.

Lemma split_from_word (w : string) :
  forall s cur,
    no_space w = true -> split_from (w ++ s) cur = split_from s (cur ++ w).
Proof.
  induction w as [| c t IH]; intros s cur Hw; simpl.
  - rewrite append_empty_r. reflexivity.
  - simpl in Hw. apply andb_true_iff in Hw. destruct Hw as [Hc Ht].
    apply negb_true_iff in Hc. rewrite Hc, IH by exact Ht.
    rewrite append_assoc'. reflexivity.
Qed.

Lemma split_concat (ws : list string) :
  Forall word ws -> split (String.concat " " ws) = ws.
Proof.
  unfold split. induction 1 as [| w ws [Hne Hns] Hws IH]; [reflexivity |].
  destruct ws as [| w2 r].
  - simpl. rewrite <- (append_empty_r w) at 1.
    rewrite split_from_word by exact Hns. simpl. rewrite Hne. reflexivity.
  - change (String.concat " " (w :: w2 :: r))
      with (w ++ " " ++ String.concat " " (w2 :: r)).
    rewrite split_from_word by exact Hns. simpl. rewrite Hne.
    f_equal. exact IH.
Qed.

(** *** [strip] on words joined by single spaces *)

Lemma rstrip_no_space (w : string) : no_space w = true -> rstrip w = w.
Proof.
  induction w as [| c t IH]; simpl; [reflexivity |]. intros H.
  apply andb_true_iff in H. destruct H as [Hc Ht].
  apply negb_true_iff in Hc. rewrite Hc, IH by exact Ht. reflexivity.
Qed.

Lemma rstrip_append (a b : string) :
  is_empty (rstrip b) = false -> rstrip (a ++ b) = a ++ rstrip b.
Proof.
  intros Hb. induction a as [| c t IH]; simpl; [reflexivity |].
  rewrite IH, (is_empty_append t _ Hb), andb_false_r. reflexivity.
Qed.

Lemma concat_not_empty (w : string) (ws : list string) :
  is_empty w = false -> is_empty (String.concat " " (w :: ws)) = false.
Proof.
  intros Hw. destruct ws; simpl; [exact Hw |].
  destruct w; [discriminate | reflexivity].
Qed.

Lemma rstrip_concat (ws : list string) :
  Forall word ws -> rstrip (String.concat " " ws) = String.concat " " ws.
Proof.
  induction 1 as [| w ws [Hne Hns] Hws IH]; [reflexivity |].
  destruct ws as [| w2 r].
  - simpl. apply rstrip_no_space. exact Hns.
  - change (String.concat " " (w :: w2 :: r))
      with (w ++ String " " (String.concat " " (w2 :: r))).
    inversion Hws as [| ? ? [Hne2 _] _]; subst.
    assert (Hx : is_empty (String.concat " " (w2 :: r)) = false)
      by (apply concat_not_empty; exact Hne2).
    set (X := String.concat " " (w2 :: r)) in *.
    assert (Hr : rstrip (String " " X) = String " " X).
    { cbn [rstrip]. rewrite IH, Hx, andb_false_r. reflexivity. }
    rewrite rstrip_append; rewrite Hr; reflexivity.
Qed.

Lemma lstrip_concat (w : string) (ws : list string) :
  word w -> lstrip (String.concat " " (w :: ws)) = String.concat " " (w :: ws).
Proof.
  intros [Hne Hns]. destruct w as [| c t]; [discriminate |].
  simpl in Hns. apply andb_true_iff in Hns. destruct Hns as [Hc _].
  apply negb_true_iff in Hc.
  destruct ws; simpl; rewrite Hc; reflexivity.
Qed.

Lemma strip_concat (ws : list string) :
  Forall word ws -> strip (String.concat " " ws) = String.concat " " ws.
Proof.
  intros H. unfold strip. rewrite rstrip_concat by exact H.
  destruct H as [| w ws Hw Hws]; [reflexivity |].
  apply lstrip_concat. exact Hw.
Qed.

(** *** [find] and slices *)

Lemma find_space_word (w : string) :
  no_space w = true ->
  find_space w = None /\
  forall r, find_space (w ++ String " " r) = Some (String.length w).
Proof.
  induction w as [| c t IH]; simpl; intros H.
  - split; reflexivity.
  - apply andb_true_iff in H. destruct H as [Hc Ht].
    apply negb_true_iff in Hc.
    assert (Hne : Ascii.eqb c " " = false).
    { destruct (Ascii.eqb c " ") eqn:E; [| reflexivity].
      apply Ascii.eqb_eq in E. subst. discriminate. }
    rewrite Hne. destruct (IH Ht) as [H1 H2]. rewrite H1.
    split; [reflexivity |]. intros r. rewrite H2. reflexivity.
Qed.

Lemma substring_prefix (w r : string) :
  substring 0 (String.length w) (w ++ r) = w.
Proof.
  induction w as [| c t IH]; simpl; [destruct r; reflexivity |].
  rewrite IH. reflexivity.
Qed.

Lemma substring_all (r : string) : substring 0 (String.length r) r = r.
Proof. induction r as [| c t IH]; simpl; [| rewrite IH]; reflexivity. Qed.

Lemma substring_suffix (w r : string) :
  substring (String.length w) (String.length r) (w ++ r) = r.
Proof.
  induction w as [| c t IH]; simpl; [apply substring_all | exact IH].
Qed.

Lemma substring_past (w : string) : substring (String.length w) 0 w = "".
Proof. induction w as [| c t IH]; simpl; [reflexivity | exact IH]. Qed.

End Words.

(** X17: the first word and the rest of a line, which the loop finds with
    [strip], [find(' ')] and two slices, are the first of the words of the
    line, in lower case, and its other words joined by single spaces; a line
    without words is skipped. *)
Theorem X17_parse_line_words (raw : string) :
  MsiRead.parse_line raw =
  match MsiRead.split raw with
  | [] => None
  | w :: ws => Some (MsiRead.lower w, String.concat " " ws)
  end.
Proof.
  unfold MsiRead.parse_line, MsiRead.reduce_spaces.
  rewrite split_strip.
  pose proof (split_from_words raw "" eq_refl) as Hwords.
  fold (MsiRead.split raw) in Hwords.
  destruct (MsiRead.split raw) as [| w ws] eqn:Hs.
  - replace (MsiRead.is_empty (MsiRead.strip raw)) with true
      by (symmetry; apply is_empty_strip; exact Hs).
    reflexivity.
  - replace (MsiRead.is_empty (MsiRead.strip raw)) with false.
    2:{ destruct (MsiRead.is_empty (MsiRead.strip raw)) eqn:E;
          [| reflexivity].
        apply is_empty_strip in E. congruence. }
    inversion Hwords as [| ? ? [Hne Hns] Hrest]; subst.
    destruct (find_space_word w Hns) as [F1 F2].
    destruct ws as [| w2 r].
    + simpl String.concat. rewrite F1.
      rewrite substring_all, Nat.sub_diag, substring_past. reflexivity.
    + change (String.concat " " (w :: w2 :: r))
        with (w ++ String " " (String.concat " " (w2 :: r)))%string.
      rewrite F2, substring_prefix, length_append'.
      replace (String.length w
               + String.length (String " " (String.concat " " (w2 :: r)))
               - String.length w)%nat
        with (String.length (String " " (String.concat " " (w2 :: r))))
        by lia.
      rewrite substring_suffix.
      assert (Hx : MsiRead.is_empty (String.concat " " (w2 :: r)) = false).
      { inversion Hrest as [| ? ? [Hne2 _] _]; subst.
        apply concat_not_empty. exact Hne2. }
      assert (Hr : MsiRead.rstrip (String.concat " " (w2 :: r))
                   = String.concat " " (w2 :: r))
        by (apply rstrip_concat; exact Hrest).
      assert (Hl : MsiRead.lstrip (String.concat " " (w2 :: r))
                   = String.concat " " (w2 :: r))
        by (inversion Hrest; subst; apply lstrip_concat; assumption).
      set (X := String.concat " " (w2 :: r)) in *.
      f_equal. f_equal. unfold MsiRead.strip. cbn [MsiRead.rstrip].
      rewrite Hr, Hx, andb_false_r.
      change (MsiRead.lstrip (String " " X)) with (MsiRead.lstrip X).
      exact Hl.
Qed.

(** X18: [reduce_spaces] keeps the words of a string and nothing else: the
    result has the same words, starts and ends with none of the white space
    that [strip] removes, and reducing it again changes nothing. *)
Theorem X18_reduce_spaces_words (s : string) :
  MsiRead.split (MsiRead.reduce_spaces s) = MsiRead.split s /\
  MsiRead.strip (MsiRead.reduce_spaces s) = MsiRead.reduce_spaces s /\
  MsiRead.reduce_spaces (MsiRead.reduce_spaces s) = MsiRead.reduce_spaces s /\
  MsiRead.reduce_spaces (MsiRead.strip s) = MsiRead.reduce_spaces s.
Proof.
  unfold MsiRead.reduce_spaces.
  pose proof (split_from_words s "" eq_refl) as Hwords.
  fold (MsiRead.split s) in Hwords.
  rewrite split_strip, !split_concat, strip_concat by exact Hwords.
  repeat split.
Qed.

(** * Tolerances *)

Section Tolerances.

Open Scope Q_scope.

Lemma np_min_pure (l : list Q) w x : np_min l = (w, inr x) -> w = [].
Proof. destruct l; simpl; intros H; inversion H; reflexivity. Qed.

Lemma np_max_pure (l : list Q) w x : np_max l = (w, inr x) -> w = [].
Proof. destruct l; simpl; intros H; inversion H; reflexivity. Qed.

Lemma boresight_gain_pure (slice angles : list Q) (bs : Q) w g :
  boresight_gain slice angles bs = (w, inr g) -> w = [].
Proof.
  unfold boresight_gain. intros H. apply bind_returns in H.
  destruct H as (w1 & i & w2 & Hi & Hx & ->).
  destruct (map (fun t => Qabs (t - bs)) angles); simpl in Hi;
    inversion Hi; subst.
  unfold index in Hx. destruct (nth_error slice _); inversion Hx; reflexivity.
Qed.

(** A check that returns has passed the boresight checks and found the two
    slices within the second tolerance of each other. *)
Lemma check_reconstruction_requirements_returns
      vert theta horiz phi t1 t2 t3 ws :
  check_reconstruction_requirements vert theta horiz phi t1 t2 t3
    = (ws, inr tt) ->
  exists vert_bs horiz_bs,
    passes_boresight_checks vert theta horiz phi t1 t2 vert_bs horiz_bs /\
    Qabs (vert_bs - horiz_bs) <= snd t3 /\
    ws = if Qlt_bool (fst t3) (Qabs (vert_bs - horiz_bs))
         then [GainDiffSignificant] else [].
Proof.
  unfold check_reconstruction_requirements. intros H.
  apply bind_returns in H. destruct H as (w1 & mt & w1' & Hmt & H & ->).
  pose proof (np_min_pure _ _ _ Hmt) as ->.
  apply bind_returns in H. destruct H as (w2 & mp & w2' & Hmp & H & ->).
  pose proof (np_min_pure _ _ _ Hmp) as ->.
  destruct (Qlt_bool t1 mt) eqn:E1; [discriminate |].
  destruct (Qlt_bool t1 mp) eqn:E2; [discriminate |].
  apply bind_returns in H. destruct H as (w3 & vmax & w3' & Hv & H & ->).
  pose proof (np_max_pure _ _ _ Hv) as ->.
  apply bind_returns in H. destruct H as (w4 & vbs & w4' & Hvb & H & ->).
  pose proof (boresight_gain_pure _ _ _ _ _ Hvb) as ->.
  destruct (Qlt_bool t2 (vmax - vbs)) eqn:E3; [discriminate |].
  apply bind_returns in H. destruct H as (w5 & hmax & w5' & Hh & H & ->).
  pose proof (np_max_pure _ _ _ Hh) as ->.
  apply bind_returns in H. destruct H as (w6 & hbs & w6' & Hhb & H & ->).
  pose proof (boresight_gain_pure _ _ _ _ _ Hhb) as ->.
  destruct (Qlt_bool t2 (hmax - hbs)) eqn:E4; [discriminate |].
  destruct (Qlt_bool (snd t3) (Qabs (vbs - hbs))) eqn:E5; [discriminate |].
  apply Qlt_bool_false in E1, E2, E3, E4, E5.
  exists vbs, hbs. split; [| split; [exact E5 |]].
  - exists mt, mp, vmax, hmax. repeat split; assumption.
  - destruct (Qlt_bool (fst t3) (Qabs (vbs - hbs)));
      inversion H; reflexivity.
Qed.

Lemma passes_boresight_checks_loosen
      vert theta horiz phi t1 t2 t1' t2' vert_bs horiz_bs :
  t1 <= t1' -> t2 <= t2' ->
  passes_boresight_checks vert theta horiz phi t1 t2 vert_bs horiz_bs ->
  passes_boresight_checks vert theta horiz phi t1' t2' vert_bs horiz_bs.
Proof.
  intros L1 L2 (mt & mp & vmax & hmax & H1 & H2 & H3 & H4 & H5 & H6 & H7
                & H8 & H9 & H10).
  exists mt, mp, vmax, hmax. repeat split; auto; lra.
Qed.

End Tolerances.

(** X19: loosening the tolerances never turns a call that returns into one
    that fails: with each tolerance at least as large, the call returns the
    same pattern and angle series, with the same warning or none. *)
Theorem X19_looser_tolerances
        vert theta horiz phi method k t1 t2 t3 t1' t2' t3' ws r :
  pattern_from_slices vert theta horiz phi method k t1 t2 t3 = (ws, inr r) ->
  (t1 <= t1')%Q -> (t2 <= t2')%Q ->
  (fst t3 <= fst t3')%Q -> (snd t3 <= snd t3')%Q ->
  exists ws',
    pattern_from_slices vert theta horiz phi method k t1' t2' t3'
      = (ws', inr r) /\
    (ws' = ws \/ ws' = []).
Proof.
  intros Hrun L1 L2 L3 L4. destruct r as [[pat theta_out] phi_out].
  pose proof Hrun as Hinv. apply pattern_from_slices_returns in Hinv.
  destruct Hinv as (hs & m & Hlen & Hh & Hhs & Hc1 & Hc2 & Hc3 & Hm & _).
  apply check_reconstruction_requirements_returns in Hc3.
  destruct Hc3 as (vbs & hbs & Hpass & Hd & Hws).
  pose proof (passes_boresight_checks_loosen _ _ _ _ _ _ t1' t2' _ _
                L1 L2 Hpass) as Hpass'.
  pose proof (check_reconstruction_requirements_tail
                vert theta hs (phi_used phi) t1' t2' t3' vbs hbs Hpass')
    as Htail.
  replace (Qlt_bool (snd t3') (Qabs (vbs - hbs))) with false in Htail
    by (symmetry; apply Qlt_bool_false; lra).
  rewrite pattern_from_slices_split in Hrun |- *.
  assert (Hval : forall a b c w,
             check_reconstruction_requirements vert theta hs (phi_used phi)
               a b c = (w, inr tt) ->
             validation vert theta horiz phi a b c = (w, inr (hs, m))).
  { intros a b c w Hc. unfold validation.
    rewrite Hlen, Nat.eqb_refl. cbn [negb].
    rewrite Hh, bind_ret, Hc1, bind_ret, Hc2, bind_ret, Hc, bind_value.
    rewrite Hm, bind_ret. cbn [fst snd ret]. rewrite app_nil_r.
    reflexivity. }
  assert (Hold : validation vert theta horiz phi t1 t2 t3 = (ws, inr (hs, m))).
  { apply Hval. rewrite (check_reconstruction_requirements_tail
                           vert theta hs (phi_used phi) t1 t2 t3 vbs hbs Hpass).
    replace (Qlt_bool (snd t3) (Qabs (vbs - hbs))) with false
      by (symmetry; apply Qlt_bool_false; exact Hd).
    rewrite Hws. destruct (Qlt_bool (fst t3) (Qabs (vbs - hbs))); reflexivity. }
  rewrite Hold in Hrun.
  destruct (Qlt_bool (fst t3') (Qabs (vbs - hbs))) eqn:E'.
  - assert (E : Qlt_bool (fst t3) (Qabs (vbs - hbs)) = true).
    { apply Qlt_bool_iff. apply Qlt_bool_iff in E'. lra. }
    exists ws. split; [| left; reflexivity].
    rewrite (Hval t1' t2' t3' ws); [exact Hrun |].
    rewrite Htail, Hws, E. reflexivity.
  - exists []. split; [| right; reflexivity].
    rewrite (Hval t1' t2' t3' []); [| rewrite Htail; reflexivity].
    destruct (is_known_method method); inversion Hrun; reflexivity.
Qed.

Lemma X19_looser_tolerances_witness :
  exists ws',
    pattern_from_slices Scenario.vert_gain Scenario.theta
      (HorizVector [-2; -10; -20; -10]%Q) (Some Scenario.phi) "Summing"
      default_cross_weighted_normalization 20 5 (2, 4)%Q
    = (ws', inr (PatQ [[-22; -8; -2; -8; -22]; [-30; -16; -10; -16; -30];
                       [-40; -26; -20; -26; -40]; [-30; -16; -10; -16; -30]]%Q,
                 Scenario.theta, Scenario.phi)).
Proof.
  destruct (X19_looser_tolerances
              Scenario.vert_gain Scenario.theta
              (HorizVector [-2; -10; -20; -10]%Q) (Some Scenario.phi)
              "Summing" default_cross_weighted_normalization
              default_tol_nearest_angle_from_boresight
              default_tol_gain_max_vs_boresight
              default_tol_gain_diff_at_slice_intersect
              20%Q 5%Q (2, 4)%Q [GainDiffSignificant]
              (PatQ [[-22; -8; -2; -8; -22]; [-30; -16; -10; -16; -30];
                     [-40; -26; -20; -26; -40]; [-30; -16; -10; -16; -30]]%Q,
               Scenario.theta, Scenario.phi))
    as (ws' & H & _).
  - vm_compute. reflexivity.
  - vm_compute. discriminate.
  - vm_compute. discriminate.
  - vm_compute. discriminate.
  - vm_compute. discriminate.
  - exists ws'. exact H.
Defined.
